(** * LevelDB write path: the log writer and the skip list

    A shallow embedding of [db/log_format.h], [db/log_writer.{h,cc}] and
    [db/skiplist.h], and the properties of them that the specification
    states; and of [include/leveldb/slice.h], [util/hash.cc] and the inline
    part of [util/arena.h], with properties read off the code.

    Conventions.
    - A C++ integer is a [Z]; the conversions the compiler inserts are written
      out ([to_int], [to_size_t], [to_uint64], [to_char]).
    - A byte is a [Z] in [0, 256); a byte string is a [list Z].
    - A [while] loop whose termination rests on an invariant of the data takes
      a fuel argument and answers [None] when it runs dry; the theorems say how
      much fuel is enough.
    - An [assert] that fails, or a read through a dangling or uninitialised
      pointer, also answers [None].
    - The collaborators the sources only declare (the file, the status, the
      checksum, the comparator, the random source, the decoder of fixed-width
      integers, the fallback of the arena) are type classes.

    The models come first: the checksum, the log writer, the skip list, the
    slice, the hash function and the arena, each with the vocabulary its
    properties are stated in.  The proofs follow, in the same order. *)

From stdpp Require Import base tactics option numbers list list_numbers sorting.
From Stdlib Require Import ZArith Lia.

Local Open Scope Z_scope.

(** ** Fixed-width integers *)

(** [int]: 32 bits, two's complement. *)
Definition to_int (z : Z) : Z := (z + 2 ^ 31) mod 2 ^ 32 - 2 ^ 31.
(** [size_t] and [uint64_t]: 64 bits, unsigned. *)
Definition to_size_t (z : Z) : Z := z mod 2 ^ 64.
Definition to_uint64 (z : Z) : Z := z mod 2 ^ 64.
(** [uint32_t]. *)
Definition to_uint32 (z : Z) : Z := z mod 2 ^ 32.
(** [static_cast<char>]: the byte that is stored. *)
Definition to_char (z : Z) : Z := z mod 256.

(** [assert(c)] in the option monad. *)
Definition assert (c : bool) : option unit := if c then Some tt else None.

(** ** The checksum primitive *)

Module crc32c.

(** Modelled from the spec: [util/crc32c.h] is not among the sources.  The
    specification asks for "a streaming, seedable checksum (e.g., CRC-32C) with
    [extend(seed, bytes) -> value] and a fixed masking transform for storage".
    [Value] checksums a byte string from scratch, [Extend] continues a checksum
    over more bytes, [Mask] is the transform. *)
Class Checksum := {
  Value : list Z -> Z;
  Extend : Z -> list Z -> Z;
  Mask : Z -> Z
}.

(** Modelled from the spec: the checksum is streaming when continuing the
    checksum of [a] over [b] gives the checksum of [a ++ b]. *)
Definition streaming `{Checksum} : Prop :=
  forall a b, Extend (Value a) b = Value (a ++ b).

(** An instance: bit-by-bit CRC-32C (Castagnoli, reflected polynomial
    0x82f63b78), with the masking of LevelDB's on-disk format. *)
Definition kPoly : Z := 0x82f63b78.
Definition kMaskDelta : Z := 0xa282ead8.

Definition crc_bit (l : Z) : Z :=
  Z.lxor (Z.shiftr l 1) (if Z.testbit l 0 then kPoly else 0).

Definition crc_byte (l b : Z) : Z :=
  Nat.iter 8 crc_bit (Z.lxor l b).

Definition crc_extend (crc : Z) (data : list Z) : Z :=
  Z.lxor (foldl crc_byte (Z.lxor crc 0xffffffff) data) 0xffffffff.

Definition crc_value (data : list Z) : Z := crc_extend 0 data.

Definition crc_mask (crc : Z) : Z :=
  to_uint32 (Z.lor (Z.shiftr crc 15) (to_uint32 (Z.shiftl crc 17)) + kMaskDelta).

Definition crc32c_checksum : Checksum :=
  {| Value := crc_value; Extend := crc_extend; Mask := crc_mask |}.

End crc32c.

(** ** Fixed-width encoding *)

(** Modelled from the spec: [util/coding.h] is not among the sources.  The
    header is little-endian: [EncodeFixed32] stores the four bytes of a 32-bit
    value, the least significant first. *)
Definition EncodeFixed32 (value : Z) : list Z :=
  [to_char value; to_char (Z.shiftr value 8);
   to_char (Z.shiftr value 16); to_char (Z.shiftr value 24)].

(** ** The log format ([db/log_format.h]) and the log writer ([db/log_writer.cc]) *)

Module log.

Import crc32c.

Inductive RecordType : Set :=
| kZeroType    (* reserved for preallocated files *)
| kFullType
| kFirstType
| kMiddleType
| kLastType.

(** The value of each enumerator. *)
Definition RecordType_value (t : RecordType) : Z :=
  match t with
  | kZeroType => 0
  | kFullType => 1
  | kFirstType => 2
  | kMiddleType => 3
  | kLastType => 4
  end.

Definition kMaxRecordType : Z := RecordType_value kLastType.
Definition kBlockSize : Z := 32768.
(** Header is checksum (4 bytes), length (2 bytes), type (1 byte). *)
Definition kHeaderSize : Z := 4 + 2 + 1.

(** *** The durability target

    [WritableFile] ([leveldb/env.h]) and [Status] ([leveldb/status.h]) are
    collaborators of the writer, not part of it.  A file is modelled by the
    calls it has received, oldest first; what it answers to a call is given by
    a class, as a function of the calls up to and including that one. *)
Inductive Call : Type :=
| CallAppend (data : list Z)
| CallFlush.

Definition WritableFile : Type := list Call.

(** [Status::ok()]. *)
Class StatusOk (Status : Type) := { ok : Status -> bool }.

(** The status the file answers for the last call of a history. *)
Class FileOutcome (Status : Type) := { outcome : WritableFile -> Status }.

Section Writer.

Context {Status : Type} {status_ok : StatusOk Status}
  {file : FileOutcome Status} {checksum : Checksum}.

Definition Append (dest : WritableFile) (data : list Z) : Status * WritableFile :=
  let dest' := dest ++ [CallAppend data] in (outcome dest', dest').

Definition Flush (dest : WritableFile) : Status * WritableFile :=
  let dest' := dest ++ [CallFlush] in (outcome dest', dest').

Record Writer : Type := mkWriter {
  dest_ : WritableFile;
  block_offset_ : Z;        (* int: current offset in block *)
  type_crc_ : list Z        (* uint32_t[kMaxRecordType + 1] *)
}.

(** [InitTypeCrc]: for i = 0 .. kMaxRecordType, type_crc[i] is the checksum of
    the single byte i. *)
Definition InitTypeCrc : list Z :=
  (fun i => Value [to_char i]) <$> seqZ 0 (kMaxRecordType + 1).

(** [Writer::Writer(WritableFile* dest)]. *)
Definition Writer_new (dest : WritableFile) : Writer :=
  {| dest_ := dest; block_offset_ := 0; type_crc_ := InitTypeCrc |}.

(** [Writer::Writer(WritableFile* dest, uint64_t dest_length)]: the remainder
    is taken in [uint64_t] and stored in an [int]. *)
Definition Writer_resume (dest : WritableFile) (dest_length : Z) : Writer :=
  {| dest_ := dest;
     block_offset_ := to_int (to_uint64 dest_length mod to_uint64 kBlockSize);
     type_crc_ := InitTypeCrc |}.

(** [type_crc_[t]]. *)
Definition type_crc_at (w : Writer) (t : RecordType) : option Z :=
  type_crc_ w !! Z.to_nat (RecordType_value t).

(** The seven bytes [EmitPhysicalRecord] formats into [buf]. *)
Definition header (crc length : Z) (t : RecordType) : list Z :=
  EncodeFixed32 crc ++
  [to_char (Z.land length 0xff); to_char (Z.shiftr length 8);
   to_char (RecordType_value t)].

(** The two assertions of [EmitPhysicalRecord]: the length must fit in two
    bytes, and the record must fit in the block.  The sum is taken in [size_t],
    [length] being one. *)
Definition fits_two_bytes (length : Z) : bool := length <=? 0xffff.

Definition fits_block (block_offset length : Z) : bool :=
  to_size_t (to_int (block_offset + kHeaderSize) + length)
  <=? to_size_t kBlockSize.

(** [Writer::EmitPhysicalRecord(t, ptr, length)].  [ptr] is the data from the
    pointer on; the record is its first [length] bytes. *)
Definition EmitPhysicalRecord (w : Writer) (t : RecordType) (ptr : list Z)
    (length : Z) : option (Status * Writer) :=
  _ ← assert (fits_two_bytes length);
  _ ← assert (fits_block (block_offset_ w) length);
  seed ← type_crc_at w t;
  let payload := take (Z.to_nat length) ptr in
  let crc := Extend seed payload in
  let crc := Mask crc in
  let buf := header crc length t in
  let '(s, dest) := Append (dest_ w) buf in
  let '(s, dest) :=
    if ok s then
      let '(s, dest) := Append dest payload in
      if ok s then Flush dest else (s, dest)
    else (s, dest) in
  Some (s, {| dest_ := dest;
              block_offset_ :=
                to_int (to_size_t (block_offset_ w + (kHeaderSize + length)));
              type_crc_ := type_crc_ w |}).

(** The literal the trailer is taken from: six zero bytes. *)
Definition trailer_literal : list Z := [0; 0; 0; 0; 0; 0].

(** One pass through the body of the do-while loop of [AddRecord], with
    everything it computes. *)
Record Iteration : Type := mkIteration {
  it_writer0 : Writer;      (* the writer when the body starts *)
  it_ptr0 : list Z;         (* ptr when the body starts *)
  it_left0 : Z;             (* left when the body starts *)
  it_begin : bool;          (* begin when the body starts *)
  it_leftover : Z;          (* leftover *)
  it_offset : Z;            (* block_offset_ after the trailer branch *)
  it_dest : WritableFile;   (* dest_ after the trailer branch *)
  it_avail : Z;             (* avail *)
  it_length : Z;            (* fragment_length *)
  it_end : bool;            (* end *)
  it_type : RecordType;     (* type *)
  it_payload : list Z;      (* the fragment: fragment_length bytes from ptr *)
  it_status : Status;       (* s *)
  it_writer : Writer;       (* the writer when the body ends *)
  it_ptr : list Z;          (* ptr when the body ends *)
  it_left : Z               (* left when the body ends *)
}.

Definition AddRecord_body (w : Writer) (ptr : list Z) (left : Z) (begin : bool)
    : option Iteration :=
  let leftover := to_int (kBlockSize - block_offset_ w) in
  _ ← assert (0 <=? leftover);
  let w1 :=
    if leftover <? kHeaderSize then
      (* Switch to a new block *)
      let dest :=
        if 0 <? leftover then
          (* Fill the trailer; the status of this Append is dropped *)
          snd (Append (dest_ w) (take (Z.to_nat leftover) trailer_literal))
        else dest_ w in
      {| dest_ := dest; block_offset_ := 0; type_crc_ := type_crc_ w |}
    else w in
  (* Invariant: we never leave < kHeaderSize bytes in a block. *)
  _ ← assert (0 <=? to_int (kBlockSize - block_offset_ w1 - kHeaderSize));
  let avail := to_size_t (to_int (kBlockSize - block_offset_ w1 - kHeaderSize)) in
  let fragment_length := if left <? avail then left else avail in
  let end_ := left =? fragment_length in
  let type :=
    if begin && end_ then kFullType
    else if begin then kFirstType
    else if end_ then kLastType
    else kMiddleType in
  '(s, w2) ← EmitPhysicalRecord w1 type ptr fragment_length;
  Some {| it_writer0 := w;
          it_ptr0 := ptr;
          it_left0 := left;
          it_begin := begin;
          it_leftover := leftover;
          it_offset := block_offset_ w1;
          it_dest := dest_ w1;
          it_avail := avail;
          it_length := fragment_length;
          it_end := end_;
          it_type := type;
          it_payload := take (Z.to_nat fragment_length) ptr;
          it_status := s;
          it_writer := w2;
          it_ptr := drop (Z.to_nat fragment_length) ptr;
          it_left := to_size_t (left - fragment_length) |}.

(** The do-while loop: the body runs, and runs again while [s.ok() && left > 0].
    The result is the passes made, in order. *)
Fixpoint AddRecord_loop (fuel : nat) (w : Writer) (ptr : list Z) (left : Z)
    (begin : bool) : option (list Iteration) :=
  match fuel with
  | O => None
  | S fuel =>
      it ← AddRecord_body w ptr left begin;
      if ok (it_status it) && (0 <? it_left it) then
        rest ← AddRecord_loop fuel (it_writer it) (it_ptr it) (it_left it) false;
        Some (it :: rest)
      else Some [it]
  end.

(** The passes of [AddRecord(slice)]. *)
Definition AddRecord_trace (fuel : nat) (w : Writer) (slice : list Z)
    : option (list Iteration) :=
  AddRecord_loop fuel w slice (Z.of_nat (length slice)) true.

(** [Writer::AddRecord(slice)]: the status returned and the writer left. *)
Definition AddRecord (fuel : nat) (w : Writer) (slice : list Z)
    : option (Status * Writer) :=
  its ← AddRecord_trace fuel w slice;
  it ← last its;
  Some (it_status it, it_writer it).

(** A sequence of [AddRecord] calls on one writer, statuses dropped: the passes
    of all the calls, and the writer left. *)
Fixpoint AddRecords (fuel : nat) (w : Writer) (slices : list (list Z))
    : option (list Iteration * Writer) :=
  match slices with
  | [] => Some ([], w)
  | slice :: slices =>
      its ← AddRecord_trace fuel w slice;
      it ← last its;
      '(rest, w') ← AddRecords fuel (it_writer it) slices;
      Some (its ++ rest, w')
  end.

(** *** The vocabulary of the properties *)

(** What [EmitPhysicalRecord] sends to the file, when every call succeeds. *)
Definition record_calls (t : RecordType) (payload : list Z) : list Call :=
  [CallAppend (header (Mask (Extend (Value [to_char (RecordType_value t)])
                               payload))
                 (Z.of_nat (length payload)) t);
   CallAppend payload;
   CallFlush].

(** What the trailer branch sends to the file for a given [leftover]. *)
Definition trailer_calls (leftover : Z) : list Call :=
  if (0 <? leftover) && (leftover <? kHeaderSize)
  then [CallAppend (replicate (Z.to_nat leftover) 0)] else [].

(** The type of a fragment, by its position in the record. *)
Definition classify (first last : bool) : RecordType :=
  match first, last with
  | true, true => kFullType
  | true, false => kFirstType
  | false, true => kLastType
  | false, false => kMiddleType
  end.

(** The writers this development speaks of: the seed table is the one the
    constructors compute. *)
Definition constructed (w : Writer) : Prop := type_crc_ w = InitTypeCrc.

(** What holds of one pass of the loop of [AddRecord]. *)
Record pass_ok (it : Iteration) : Prop := mkPassOk {
  pass_constructed : constructed (it_writer it);
  pass_left0_ptr0 : it_left0 it = Z.of_nat (length (it_ptr0 it));
  pass_leftover : it_leftover it = kBlockSize - block_offset_ (it_writer0 it);
  pass_offset :
    it_offset it =
      if it_leftover it <? kHeaderSize then 0 else block_offset_ (it_writer0 it);
  pass_dest :
    it_dest it = dest_ (it_writer0 it) ++ trailer_calls (it_leftover it);
  pass_offset_nonneg : 0 <= it_offset it;
  pass_avail : it_avail it = kBlockSize - it_offset it - kHeaderSize;
  pass_avail_nonneg : 0 <= kBlockSize - it_offset it - kHeaderSize;
  pass_length : it_length it = Z.min (it_left0 it) (it_avail it);
  pass_length_nonneg : 0 <= it_length it;
  pass_end : it_end it = (it_left0 it =? it_length it);
  pass_type : it_type it = classify (it_begin it) (it_end it);
  pass_payload : it_payload it = take (Z.to_nat (it_length it)) (it_ptr0 it);
  pass_payload_length : Z.of_nat (length (it_payload it)) = it_length it;
  pass_ptr : it_ptr it = drop (Z.to_nat (it_length it)) (it_ptr0 it);
  pass_left : it_left it = it_left0 it - it_length it;
  pass_left_ptr : it_left it = Z.of_nat (length (it_ptr it));
  pass_fits : it_offset it + kHeaderSize + it_length it <= kBlockSize;
  pass_block_offset :
    block_offset_ (it_writer it) = it_offset it + kHeaderSize + it_length it;
  pass_calls :
    exists n, (1 <= n <= 3)%nat /\
      dest_ (it_writer it) =
        it_dest it ++ take n (record_calls (it_type it) (it_payload it)) /\
      it_status it = outcome (dest_ (it_writer it)) /\
      (forall m, (1 <= m < n)%nat ->
         ok (outcome (it_dest it ++
                      take m (record_calls (it_type it) (it_payload it)))) = true) /\
      ((n < 3)%nat -> ok (it_status it) = false)
}.

(** One pass follows another: it starts where the other ended, which was with
    an ok status and bytes left. *)
Definition follows (a b : Iteration) : Prop :=
  it_writer0 b = it_writer a /\ it_ptr0 b = it_ptr a /\
  it_left0 b = it_left a /\ it_begin b = false /\
  ok (it_status a) = true /\ 0 < it_left a.

(** Each pass but the first follows the one before it. *)
Definition chained (its : list Iteration) : Prop :=
  forall i a b, its !! i = Some a -> its !! S i = Some b -> follows a b.

(** What holds of the passes of a run of the loop entered with [w], [ptr],
    [left] and [begin]. *)
Record run_ok (w : Writer) (ptr : list Z) (left : Z) (begin : bool)
    (its : list Iteration) : Prop := mkRunOk {
  run_first :
    exists it, its !! 0%nat = Some it /\ it_writer0 it = w /\ it_ptr0 it = ptr /\
               it_left0 it = left /\ it_begin it = begin;
  run_passes : Forall pass_ok its;
  run_chained : chained its;
  run_last :
    exists it, last its = Some it /\
               ok (it_status it) && (0 <? it_left it) = false
}.

(** The bytes a list of calls appends to the file. *)
Definition appended_bytes (calls : list Call) : list Z :=
  concat ((fun c => match c with CallAppend data => data | CallFlush => [] end)
            <$> calls).

(** The slices a call can be given, and the fuel that is enough for each. *)
Definition slices_ok (fuel : nat) (slices : list (list Z)) : Prop :=
  Forall (fun slice => Z.of_nat (length slice) < 2 ^ 64 /\
                       (2 * length slice + 2 <= fuel)%nat) slices.

(** The writers a program can hold: made by a constructor, and then used for
    [AddRecord] calls. *)
Inductive reachable : Writer -> Prop :=
| reachable_new dest : reachable (Writer_new dest)
| reachable_resume dest dest_length :
    0 <= dest_length < 2 ^ 64 ->
    reachable (Writer_resume dest dest_length)
| reachable_AddRecord fuel w slice s w' :
    reachable w ->
    Z.of_nat (length slice) < 2 ^ 64 ->
    AddRecord fuel w slice = Some (s, w') ->
    reachable w'.

(** Failures stop the call: whichever call of an [AddRecord] the file does
    not answer ok, that call is the last of the [AddRecord], and its status is
    the one returned. *)
Definition every_failure_stops (fuel : nat) (w : Writer) (slice : list Z)
    : Prop :=
  forall s w' calls call,
    AddRecord fuel w slice = Some (s, w') ->
    (dest_ w ++ calls ++ [call]) `prefix_of` dest_ w' ->
    ok (outcome (dest_ w ++ calls ++ [call])) = false ->
    dest_ w' = dest_ w ++ calls ++ [call] /\
    s = outcome (dest_ w ++ calls ++ [call]).

(** *** What reaches the file *)

(** The calls of a whole fragment: the header, the payload and a flush; and
    the calls of a pass that sent its whole fragment: the padding, when the
    pass found fewer than [kHeaderSize] bytes left in the block, and then the
    fragment. *)
Definition fragment_calls (it : Iteration) : list Call :=
  record_calls (it_type it) (it_payload it).

Definition sent_calls (it : Iteration) : list Call :=
  trailer_calls (kBlockSize - block_offset_ (it_writer0 it))
  ++ fragment_calls it.

(** The calls of a list of passes that all sent their whole fragments. *)
Definition written (its : list Iteration) : list Call :=
  concat (sent_calls <$> its).

(** The bytes of a fragment: its header, and its payload. *)
Definition fragment_bytes (t : RecordType) (payload : list Z) : list Z :=
  header (Mask (Extend (Value [to_char (RecordType_value t)]) payload))
    (Z.of_nat (length payload)) t
  ++ payload.

(** The file answered ok to each of the calls [calls], made one after the
    other on a file that had received [before]. *)
Definition all_accepted (before calls : list Call) : Prop :=
  forall k, (1 <= k <= length calls)%nat ->
    ok (outcome (before ++ take k calls)) = true.

(** The bytes the file holds of the calls [calls], made on a file that had
    received [before]: those of the appends it answered ok. *)
Fixpoint accepted_bytes (before calls : list Call) : list Z :=
  match calls with
  | [] => []
  | call :: calls =>
      let history := before ++ [call] in
      (if ok (outcome history)
       then match call with CallAppend data => data | CallFlush => [] end
       else [])
      ++ accepted_bytes history calls
  end.

End Writer.

(** *** Instances *)

(** Statuses that are booleans, [true] for ok. *)
Definition ok_bool : StatusOk bool := {| ok := fun s => s |}.

(** A file every call of which succeeds, and one every call of which fails. *)
Definition always_ok : FileOutcome bool := {| outcome := fun _ => true |}.
Definition always_fails : FileOutcome bool := {| outcome := fun _ => false |}.

(** A file whose first call fails, and no other. *)
Definition first_call_fails : FileOutcome bool :=
  {| outcome := fun h => negb (Nat.eqb (length h) 1) |}.

End log.

(** ** The skip list ([db/skiplist.h]) *)

Module skiplist.

(** C arrays: an access out of bounds answers [None]. *)
Definition array_get {A} (a : list A) (i : Z) : option A :=
  _ ← assert ((0 <=? i) && (i <? Z.of_nat (length a)));
  a !! Z.to_nat i.

Definition array_set {A} (a : list A) (i : Z) (v : A) : option (list A) :=
  _ ← assert ((0 <=? i) && (i <? Z.of_nat (length a)));
  Some (<[Z.to_nat i := v]> a).

(** [for (int i = from; i < to; i++) body], threading a state through. *)
Fixpoint for_count {A} (n : nat) (i : Z) (body : Z -> A -> option A) (a : A)
    : option A :=
  match n with
  | O => Some a
  | S n => a' ← body i a; for_count n (i + 1) body a'
  end.

Definition for_range {A} (from to : Z) (body : Z -> A -> option A) (a : A)
    : option A :=
  for_count (Z.to_nat (to - from)) from body a.

(** [kMaxHeight]. *)
Definition kMaxHeight : Z := 12.
(** [kBranching] of [RandomHeight]. *)
Definition kBranching : Z := 4.

(** The template parameters: the key type and the comparator, a three-way
    comparison that answers an [int]. *)
Class Comparator (Key : Type) := { compare_ : Key -> Key -> Z }.

(** The key the constructor gives the head node, [Key(0)]; it is never read. *)
Class HeadKey (Key : Type) := { key0 : Key }.

(** [util/random.h] is not among the sources.  The generator is a class: a
    state, and [OneIn(n)], which answers a boolean and steps the state. *)
Class RandomSource (Random : Type) := { OneIn : Random -> Z -> bool * Random }.

Section SkipList.

Context {Key : Type} {cmp : Comparator Key} {head_key : HeadKey Key}.
Context {Random : Type} {random : RandomSource Random}.

(** A node: its key and its [next_] array, one link per level; the height of a
    node is the length of the array.  A [Node*] is the index of the node in the
    arena, or [None] for [nullptr]. *)
Record Node : Type := mkNode {
  key : Key;
  next_ : list (option nat)
}.

(** The list.  [nodes] is the arena memory that holds its nodes, in the order
    they were allocated; the head is allocated by the constructor, so [head_]
    is the first of them. *)
Record SkipList : Type := mkSkipList {
  nodes : list Node;
  max_height_ : Z;
  rnd_ : Random
}.

Definition head_ : nat := 0%nat.

Definition GetMaxHeight (s : SkipList) : Z := max_height_ s.

(** [NewNode(key, height)]: the links are not initialised by the constructor
    of [Node]; [Insert] and [SkipList] store every one of them before they are
    read.  They are modelled as null. *)
Definition NewNode (k : Key) (height : Z) : Node :=
  {| key := k; next_ := replicate (Z.to_nat height) None |}.

(** [n->key]. *)
Definition Node_key (mem : list Node) (n : nat) : option Key :=
  key <$> mem !! n.

(** [x->Next(n)] and [x->NoBarrier_Next(n)]. *)
Definition Node_Next (mem : list Node) (x : nat) (n : Z) : option (option nat) :=
  _ ← assert (0 <=? n);
  nd ← mem !! x;
  array_get (next_ nd) n.

(** [x->SetNext(n, y)] and [x->NoBarrier_SetNext(n, y)]. *)
Definition Node_SetNext (mem : list Node) (x : nat) (n : Z) (y : option nat)
    : option (list Node) :=
  _ ← assert (0 <=? n);
  nd ← mem !! x;
  links ← array_set (next_ nd) n y;
  Some (<[x := {| key := key nd; next_ := links |}]> mem).

(** [SkipList(cmp, arena)]; [rnd] is [Random(0xdeadbeef)]. *)
Definition SkipList_new (rnd : Random) : option SkipList :=
  let mem := [NewNode key0 kMaxHeight] in
  mem ← for_range 0 kMaxHeight (fun i mem => Node_SetNext mem head_ i None) mem;
  Some {| nodes := mem; max_height_ := 1; rnd_ := rnd |}.

Definition Equal (a b : Key) : bool := compare_ a b =? 0.

(** [RandomHeight]: the loop runs at most [kMaxHeight - 1] times, so it is
    given that many steps and one more for the test that ends it. *)
Fixpoint RandomHeight_loop (fuel : nat) (height : Z) (rnd : Random)
    : option (Z * Random) :=
  match fuel with
  | O => None
  | S fuel =>
      if height <? kMaxHeight then
        let '(one, rnd) := OneIn rnd kBranching in
        if one then RandomHeight_loop fuel (height + 1) rnd
        else Some (height, rnd)
      else Some (height, rnd)
  end.

Definition RandomHeight (rnd : Random) : option (Z * Random) :=
  '(height, rnd) ← RandomHeight_loop (Z.to_nat kMaxHeight) 1 rnd;
  _ ← assert (0 <? height);
  _ ← assert (height <=? kMaxHeight);
  Some (height, rnd).

(** [KeyIsAfterNode(key, n)]: null n is considered infinite. *)
Definition KeyIsAfterNode (s : SkipList) (k : Key) (n : option nat)
    : option bool :=
  match n with
  | None => Some false
  | Some n => nk ← Node_key (nodes s) n; Some (compare_ nk k <? 0)
  end.

(** The loop of [FindGreaterOrEqual].  [prev] is [None] for a null [prev], and
    otherwise the array, in which [None] is an entry not yet written. *)
Fixpoint FindGreaterOrEqual_loop (fuel : nat) (s : SkipList) (k : Key)
    (prev : option (list (option nat))) (x : nat) (level : Z)
    : option (option nat * option (list (option nat))) :=
  match fuel with
  | O => None
  | S fuel =>
      next ← Node_Next (nodes s) x level;
      after ← KeyIsAfterNode s k next;
      if (after : bool) then
        (* Keep searching in this list *)
        match next with
        | Some x => FindGreaterOrEqual_loop fuel s k prev x level
        | None => None
        end
      else
        prev ← match prev with
               | Some a => a ← array_set a level (Some x); Some (Some a)
               | None => Some None
               end;
        if level =? 0 then Some (next, prev)
        else
          (* Switch to next list *)
          FindGreaterOrEqual_loop fuel s k prev x (level - 1)
  end.

Definition FindGreaterOrEqual (fuel : nat) (s : SkipList) (k : Key)
    (prev : option (list (option nat)))
    : option (option nat * option (list (option nat))) :=
  FindGreaterOrEqual_loop fuel s k prev head_ (GetMaxHeight s - 1).

(** The loop of [FindLessThan]. *)
Fixpoint FindLessThan_loop (fuel : nat) (s : SkipList) (k : Key) (x : nat)
    (level : Z) : option nat :=
  match fuel with
  | O => None
  | S fuel =>
      xk ← Node_key (nodes s) x;
      _ ← assert (bool_decide (x = head_) || (compare_ xk k <? 0));
      next ← Node_Next (nodes s) x level;
      stop ← match next with
             | None => Some true
             | Some n => nk ← Node_key (nodes s) n; Some (0 <=? compare_ nk k)
             end;
      if (stop : bool) then
        if level =? 0 then Some x
        else FindLessThan_loop fuel s k x (level - 1)
      else
        match next with
        | Some x => FindLessThan_loop fuel s k x level
        | None => None
        end
  end.

Definition FindLessThan (fuel : nat) (s : SkipList) (k : Key) : option nat :=
  FindLessThan_loop fuel s k head_ (GetMaxHeight s - 1).

(** The loop of [FindLast]. *)
Fixpoint FindLast_loop (fuel : nat) (s : SkipList) (x : nat) (level : Z)
    : option nat :=
  match fuel with
  | O => None
  | S fuel =>
      next ← Node_Next (nodes s) x level;
      match next with
      | None =>
          if level =? 0 then Some x
          else FindLast_loop fuel s x (level - 1)
      | Some n => FindLast_loop fuel s n level
      end
  end.

Definition FindLast (fuel : nat) (s : SkipList) : option nat :=
  FindLast_loop fuel s head_ (GetMaxHeight s - 1).

(** The second loop of [Insert]: link the new node [x] in at level [i]. *)
Definition Insert_link (x : nat) (prev : list (option nat)) (i : Z)
    (mem : list Node) : option (list Node) :=
  p ← array_get prev i;
  p ← p;
  succ ← Node_Next mem p i;
  mem ← Node_SetNext mem x i succ;
  Node_SetNext mem p i (Some x).

(** [Insert(key)]. *)
Definition Insert (fuel : nat) (s : SkipList) (k : Key) : option SkipList :=
  '(x, prev) ← FindGreaterOrEqual fuel s k
                 (Some (replicate (Z.to_nat kMaxHeight) None));
  prev ← prev;
  (* Our data structure does not allow duplicate insertion *)
  dup ← match x with
        | None => Some false
        | Some x => xk ← Node_key (nodes s) x; Some (Equal k xk)
        end;
  _ ← assert (negb dup);
  '(height, rnd) ← RandomHeight (rnd_ s);
  '(prev, max_height) ←
    (if GetMaxHeight s <? height then
       prev ← for_range (GetMaxHeight s) height
                (fun i prev => array_set prev i (Some head_)) prev;
       Some (prev, height)
     else Some (prev, max_height_ s));
  let x := length (nodes s) in
  let mem := nodes s ++ [NewNode k height] in
  mem ← for_range 0 height (Insert_link x prev) mem;
  Some {| nodes := mem; max_height_ := max_height; rnd_ := rnd |}.

(** [Contains(key)]. *)
Definition Contains (fuel : nat) (s : SkipList) (k : Key) : option bool :=
  '(x, _) ← FindGreaterOrEqual fuel s k None;
  match x with
  | None => Some false
  | Some x => xk ← Node_key (nodes s) x; Some (Equal k xk)
  end.

(** *** The iterator

    An iterator holds a pointer to the list and [node_]; the list is passed to
    each operation. *)
Record Iterator : Type := mkIterator { node_ : option nat }.

Definition Iterator_new : Iterator := {| node_ := None |}.

Definition Valid (it : Iterator) : bool := bool_decide (node_ it ≠ None).

Definition Iterator_key (s : SkipList) (it : Iterator) : option Key :=
  _ ← assert (Valid it);
  n ← node_ it;
  Node_key (nodes s) n.

Definition Next (s : SkipList) (it : Iterator) : option Iterator :=
  _ ← assert (Valid it);
  n ← node_ it;
  n' ← Node_Next (nodes s) n 0;
  Some {| node_ := n' |}.

Definition Prev (fuel : nat) (s : SkipList) (it : Iterator) : option Iterator :=
  _ ← assert (Valid it);
  n ← node_ it;
  nk ← Node_key (nodes s) n;
  n' ← FindLessThan fuel s nk;
  Some {| node_ := if bool_decide (n' = head_) then None else Some n' |}.

Definition Seek (fuel : nat) (s : SkipList) (target : Key) : option Iterator :=
  '(n, _) ← FindGreaterOrEqual fuel s target None;
  Some {| node_ := n |}.

Definition SeekToFirst (s : SkipList) : option Iterator :=
  n ← Node_Next (nodes s) head_ 0;
  Some {| node_ := n |}.

Definition SeekToLast (fuel : nat) (s : SkipList) : option Iterator :=
  n ← FindLast fuel s;
  Some {| node_ := if bool_decide (n = head_) then None else Some n |}.

(** A forward scan, as a client writes it:
    [for (; it.Valid(); it.Next()) out.push_back(it.key())]. *)
Fixpoint scan (fuel : nat) (s : SkipList) (it : Iterator) : option (list Key) :=
  match fuel with
  | O => None
  | S fuel =>
      if Valid it then
        k ← Iterator_key s it;
        it ← Next s it;
        rest ← scan fuel s it;
        Some (k :: rest)
      else Some []
  end.

(** A sequence of [Insert] calls. *)
Fixpoint InsertAll (fuel : nat) (s : SkipList) (keys : list Key)
    : option SkipList :=
  match keys with
  | [] => Some s
  | k :: keys => s ← Insert fuel s k; InsertAll fuel s keys
  end.

(** *** The vocabulary of the properties *)

Definition lt (a b : Key) : Prop := compare_ a b < 0.

(** The key of node [x], its height, and its link at level [l]: [None] is a
    null link (or no link at all, above the height of the node). *)
Definition nkey (mem : list Node) (x : nat) : Key :=
  default key0 (Node_key mem x).

Definition hgt (mem : list Node) (x : nat) : nat :=
  default 0%nat ((fun nd => length (next_ nd)) <$> mem !! x).

Definition link (mem : list Node) (x l : nat) : option nat :=
  nd ← mem !! x; y ← next_ nd !! l; y.

(** The keys in the list, in the order they were inserted: the keys of the
    nodes after the head. *)
Definition inserted (mem : list Node) : list Key := key <$> tail mem.

(** [z] is a node other than the head. *)
Definition is_node (mem : list Node) (z : nat) : Prop :=
  (0 < z < length mem)%nat.

(** Node [x] comes before the key [k]: it is the head, or its key is smaller. *)
Definition before (mem : list Node) (x : nat) (k : Key) : Prop :=
  x = head_ \/ lt (nkey mem x) k.

(** The head has every level and the other nodes at most [max_height_]; a link
    at level [l] leads to a node that has level [l] and a greater key; a link
    skips no node that has its level; and no two nodes compare equal. *)
Record inv (mem : list Node) (mh : Z) : Prop := mkInv {
  inv_head : (0 < length mem)%nat;
  inv_head_height : hgt mem head_ = Z.to_nat kMaxHeight;
  inv_max_height : 1 <= mh <= kMaxHeight;
  inv_height : forall z,
    is_node mem z -> (1 <= hgt mem z)%nat /\ Z.of_nat (hgt mem z) <= mh;
  inv_link : forall x l y,
    link mem x l = Some y ->
    is_node mem y /\ (l < hgt mem y)%nat /\
    (x <> head_ -> lt (nkey mem x) (nkey mem y));
  inv_no_skip : forall x l z,
    (l < hgt mem x)%nat -> is_node mem z -> (l < hgt mem z)%nat ->
    before mem x (nkey mem z) ->
    exists y, link mem x l = Some y /\ compare_ (nkey mem y) (nkey mem z) <= 0;
  inv_distinct : forall z1 z2,
    is_node mem z1 -> is_node mem z2 -> z1 <> z2 ->
    compare_ (nkey mem z1) (nkey mem z2) <> 0
}.

(** The rank of a node is the number of keys it comes before. *)
Definition beforeb (mem : list Node) (x : nat) (k : Key) : bool :=
  bool_decide (x = head_) || (compare_ (nkey mem x) k <? 0).

Definition rank (mem : list Node) (x : nat) : nat :=
  length (List.filter (beforeb mem x) (inserted mem)).

(** [p] is the predecessor of the key [k] at level [l]: a node that has the
    level and comes before [k], and whose link at that level does not lead to
    a node that comes before [k]. *)
Definition pred_at (mem : list Node) (k : Key) (p l : nat) : Prop :=
  (l < hgt mem p)%nat /\ before mem p k /\
  forall y, link mem p l = Some y -> ~ lt (nkey mem y) k.

(** What the search leaves in a [prev] array that was [a]: every level from
    [top] down holds its predecessor, and the levels above are untouched. *)
Definition prev_filled (mem : list Node) (k : Key) (top : nat)
    (a a' : list (option nat)) : Prop :=
  length a' = length a /\
  (forall l, (l <= top)%nat ->
     exists p, a' !! l = Some (Some p) /\ pred_at mem k p l) /\
  (forall l, (top < l)%nat -> a' !! l = a !! l).

Definition prev_result (mem : list Node) (k : Key) (top : nat)
    (prev prev' : option (list (option nat))) : Prop :=
  match prev, prev' with
  | None, None => True
  | Some a, Some a' => prev_filled mem k top a a'
  | _, _ => False
  end.

(** The node a search for [k] answers: the first that does not come before
    [k], or null when every node comes before [k]. *)
Definition first_ge (mem : list Node) (k : Key) (next : option nat) : Prop :=
  (forall y, next = Some y -> is_node mem y /\ ~ lt (nkey mem y) k) /\
  (forall z, is_node mem z -> ~ lt (nkey mem z) k ->
     exists y, next = Some y /\ compare_ (nkey mem y) (nkey mem z) <= 0).

(** The node [FindLessThan(k)] answers: the last that comes before [k], the
    head when there is none. *)
Definition last_lt (mem : list Node) (k : Key) (p : nat) : Prop :=
  (p < length mem)%nat /\ before mem p k /\
  forall z, is_node mem z -> lt (nkey mem z) k ->
    p <> head_ /\ compare_ (nkey mem z) (nkey mem p) <= 0.

(** The node [FindLast] answers: the one with the greatest key, the head when
    the list is empty. *)
Definition is_last (mem : list Node) (p : nat) : Prop :=
  (p < length mem)%nat /\
  forall z, is_node mem z ->
    p <> head_ /\ compare_ (nkey mem z) (nkey mem p) <= 0.

(** The arena after [Insert] linked a new node of key [k] and height [h] in,
    described link by link: [pl l] is the predecessor of [k] at level [l]. *)
Record linked_in (mem mem' : list Node) (k : Key) (h : nat) (pl : nat -> nat)
    : Prop := mkLinkedIn {
  li_length : length mem' = S (length mem);
  li_key_old : forall x, (x < length mem)%nat -> nkey mem' x = nkey mem x;
  li_key_new : nkey mem' (length mem) = k;
  li_hgt_old : forall x, (x < length mem)%nat -> hgt mem' x = hgt mem x;
  li_hgt_new : hgt mem' (length mem) = h;
  li_link : forall x l,
    link mem' x l =
      if decide (x = length mem) then
        if decide (l < h)%nat then link mem (pl l) l else None
      else if decide ((l < h)%nat /\ x = pl l) then Some (length mem)
      else link mem x l
}.

(** The entry of a [prev] array at a level, the head where there is none. *)
Definition prev_at (a : list (option nat)) (l : nat) : nat :=
  match a !! l with
  | Some (Some p) => p
  | _ => head_
  end.

(** No two of the keys compare equal. *)
Definition distinct (keys : list Key) : Prop :=
  forall i j a b,
    keys !! i = Some a -> keys !! j = Some b -> i <> j -> compare_ a b <> 0.

(** *** Whole lists, and what [Insert] keeps *)

(** The list [s] is the one the keys [keys], inserted in that order into an
    empty list, build. *)
Definition built (fuel : nat) (rnd : Random) (keys : list Key) (s : SkipList)
    : Prop :=
  exists s0, SkipList_new rnd = Some s0 /\ InsertAll fuel s0 keys = Some s.

(** [mem'] holds the nodes of [mem], each where it was, with its key and its
    height; only links may differ. *)
Definition same_nodes (mem mem' : list Node) : Prop :=
  length mem' = length mem /\
  forall x nd, mem !! x = Some nd ->
    exists nd', mem' !! x = Some nd' /\ key nd' = key nd /\
                length (next_ nd') = length (next_ nd).

(** [mh] is the height of the tallest node, or 1 when there is none. *)
Definition tallest (mem : list Node) (mh : Z) : Prop :=
  (forall z, is_node mem z -> Z.of_nat (hgt mem z) <= mh) /\
  (mh = 1 \/ exists z, is_node mem z /\ Z.of_nat (hgt mem z) = mh).

(** A backward scan, as a client writes it:
    [for (; it.Valid(); it.Prev()) out.push_back(it.key())].  [steps] bounds
    the passes of this loop, [fuel] the search each [Prev] makes. *)
Fixpoint scan_back (steps fuel : nat) (s : SkipList) (it : Iterator)
    : option (list Key) :=
  match steps with
  | O => None
  | S steps =>
      if Valid it then
        k ← Iterator_key s it;
        it ← Prev fuel s it;
        rest ← scan_back steps fuel s it;
        Some (k :: rest)
      else Some []
  end.

End SkipList.

(** *** Instances *)

(** Integer keys, with the comparator of a test. *)
Definition cmpZ (a b : Z) : Z :=
  if a <? b then -1 else if b <? a then 1 else 0.

Definition Z_comparator : Comparator Z := {| compare_ := cmpZ |}.
Definition Z_head_key : HeadKey Z := {| key0 := 0 |}.

(** A random source: a Lehmer generator, [OneIn(n)] being true when the next
    value is a multiple of n. *)
Definition lehmer : RandomSource Z :=
  {| OneIn := fun seed n =>
       let seed := (seed * 16807) mod 2147483647 in (seed mod n =? 0, seed) |}.

(** The list of the examples: 5, 1, 9 and 3 inserted in that order into an
    empty list, with the nodes this random source gives them. *)
Definition list_5_1_9_3 : @SkipList Z Z :=
  Eval vm_compute in
    default {| nodes := []; max_height_ := 0; rnd_ := 0 |}
      (s0 ← SkipList_new (head_key := Z_head_key) 0x5eadbeef;
       InsertAll (cmp := Z_comparator) (random := lehmer) 16 s0 [5; 1; 9; 3]).

End skiplist.


(** ** Slices ([include/leveldb/slice.h]) *)

Module slice.

(** *** The C library and [std::string]

    Memory is given by the bytes from a pointer to the end of the object it
    points into.  [read mem n] is the [n] bytes at the pointer; reading past
    the end of the object answers [None]. *)
Definition read (mem : list Z) (n : Z) : option (list Z) :=
  _ ← assert (n <=? Z.of_nat (length mem));
  Some (take (Z.to_nat n) mem).

(** [memcmp(s1, s2, n)] compares bytes as [unsigned char].  The C standard
    fixes only the sign of what it answers; the model answers the difference
    of the first two bytes that differ. *)
Fixpoint memcmp_bytes (a b : list Z) : Z :=
  match a, b with
  | x :: a, y :: b => if x =? y then memcmp_bytes a b else x - y
  | _, _ => 0
  end.

Definition memcmp (s1 s2 : list Z) (n : Z) : option Z :=
  a ← read s1 n;
  b ← read s2 n;
  Some (memcmp_bytes a b).

(** [strlen(s)]: the number of bytes before the first NUL. *)
Fixpoint strlen (s : list Z) : option Z :=
  match s with
  | [] => None
  | c :: s => if c =? 0 then Some 0 else n ← strlen s; Some (n + 1)
  end.

(** A [std::string] is its bytes; [s.data()] points to them, followed by a
    NUL. *)
Definition string_data (s : list Z) : list Z := s ++ [0].
Definition string_size (s : list Z) : Z := Z.of_nat (length s).

(** *** The class *)

Record Slice : Type := mkSlice {
  data_ : list Z;   (* const char*: the memory from the pointer on *)
  size_ : Z         (* size_t *)
}.

(** [Slice()]: the literal [""] is one NUL byte. *)
Definition Slice_new : Slice := {| data_ := [0]; size_ := 0 |}.

(** [Slice(const char* d, size_t n)]. *)
Definition Slice_of_data (d : list Z) (n : Z) : Slice :=
  {| data_ := d; size_ := n |}.

(** [Slice(const std::string& s)]. *)
Definition Slice_of_string (s : list Z) : Slice :=
  {| data_ := string_data s; size_ := string_size s |}.

(** [Slice(const char* s)]. *)
Definition Slice_of_cstr (s : list Z) : option Slice :=
  n ← strlen s;
  Some {| data_ := s; size_ := n |}.

Definition data (s : Slice) : list Z := data_ s.
Definition size (s : Slice) : Z := size_ s.
Definition empty (s : Slice) : bool := size_ s =? 0.

(** [operator[](n)]. *)
Definition operator_index (s : Slice) (n : Z) : option Z :=
  _ ← assert (n <? size s);
  data_ s !! Z.to_nat n.

Definition clear (s : Slice) : Slice := {| data_ := [0]; size_ := 0 |}.

(** [remove_prefix(n)]. *)
Definition remove_prefix (s : Slice) (n : Z) : option Slice :=
  _ ← assert (n <=? size s);
  Some {| data_ := drop (Z.to_nat n) (data_ s);
          size_ := to_size_t (size_ s - n) |}.

(** [ToString()]: [std::string(data_, size_)]. *)
Definition ToString (s : Slice) : option (list Z) :=
  read (data_ s) (size_ s).

(** [compare(b)]. *)
Definition compare (a b : Slice) : option Z :=
  let min_len := if size_ a <? size_ b then size_ a else size_ b in
  r ← memcmp (data_ a) (data_ b) min_len;
  Some (if r =? 0 then
          if size_ a <? size_ b then -1
          else if size_ b <? size_ a then 1
          else r
        else r).

(** [starts_with(x)]; [&&] does not evaluate its second operand when the first
    is false. *)
Definition starts_with (s x : Slice) : option bool :=
  if size_ x <=? size_ s then
    r ← memcmp (data_ s) (data_ x) (size_ x);
    Some (r =? 0)
  else Some false.

(** [operator==] and [operator!=]. *)
Definition operator_eq (x y : Slice) : option bool :=
  if size x =? size y then
    r ← memcmp (data x) (data y) (size x);
    Some (r =? 0)
  else Some false.

Definition operator_ne (x y : Slice) : option bool :=
  negb <$> operator_eq x y.

(** *** The vocabulary of the properties *)

(** A slice a program may use: its size is within the object its pointer
    points into. *)
Definition valid (s : Slice) : Prop :=
  0 <= size_ s <= Z.of_nat (length (data_ s)) /\ size_ s < 2 ^ 64.

(** The bytes a slice refers to. *)
Definition bytes (s : Slice) : list Z := take (Z.to_nat (size_ s)) (data_ s).

(** The three-way comparison of two byte strings, byte by byte, a proper
    prefix coming first. *)
Fixpoint cmp_bytes (a b : list Z) : Z :=
  match a, b with
  | [], [] => 0
  | [], _ :: _ => -1
  | _ :: _, [] => 1
  | x :: a, y :: b => if x =? y then cmp_bytes a b else x - y
  end.

(** [a] comes before [b] in the lexicographic order of byte strings: it is a
    proper prefix of [b], or the two differ first at a byte that is smaller
    in [a]. *)
Definition lex_lt (a b : list Z) : Prop :=
  (exists c, c <> [] /\ b = a ++ c) \/
  (exists p x y ra rb, a = p ++ x :: ra /\ b = p ++ y :: rb /\ x < y).

End slice.

(** ** The hash function ([util/hash.cc]) *)

Module hash.

(** [util/coding.h] is not among the sources.  [DecodeFixed32(ptr)] is a
    collaborator: it answers a [uint32_t] from the memory at a pointer, or
    [None] when it reads past the end of the object. *)
Class Coding := { DecodeFixed32 : list Z -> option Z }.

(** What [Hash] needs of it: the decoder reads the four bytes at the pointer,
    and nothing else. *)
Definition reads_four_bytes `{Coding} : Prop :=
  forall p q, (4 <= length p)%nat -> take 4 p = take 4 q ->
    exists w, DecodeFixed32 p = Some w /\ DecodeFixed32 q = Some w.

(** [static_cast<uint8_t>]. *)
Definition to_uint8 (z : Z) : Z := z mod 256.

Section Hash.

Context {coding : Coding}.

Definition m : Z := 0xc6a4a793.
Definition r : Z := 24.

(** The loop of [Hash], which picks up four bytes at a time.
    [remaining] is [limit - data]; the loop runs [n / 4] times. *)
Fixpoint Hash_loop (fuel : nat) (data : list Z) (remaining : Z) (h : Z)
    : option (list Z * Z * Z) :=
  match fuel with
  | O => None
  | S fuel =>
      if 4 <=? remaining then
        w ← DecodeFixed32 data;
        let data := drop 4 data in
        let h := to_uint32 (h + w) in
        let h := to_uint32 (h * m) in
        let h := Z.lxor h (Z.shiftr h 16) in
        Hash_loop fuel data (remaining - 4) h
      else Some (data, remaining, h)
  end.

(** [Hash(data, n, seed)].  The product [n * m] is taken in [size_t], and
    the exclusive or with the seed is stored in a [uint32_t]; the cases of
    the [switch] fall through. *)
Definition Hash (data : list Z) (n : Z) (seed : Z) : option Z :=
  let h := to_uint32 (Z.lxor seed (to_size_t (n * m))) in
  '(data, remaining, h) ← Hash_loop (Z.to_nat (n / 4) + 1) data n h;
  (* Pick up remaining bytes *)
  h ← (if remaining =? 3 then
         b ← data !! 2%nat;
         Some (to_uint32 (h + to_int (Z.shiftl (to_uint8 b) 16)))
       else Some h);
  h ← (if (remaining =? 3) || (remaining =? 2) then
         b ← data !! 1%nat;
         Some (to_uint32 (h + to_int (Z.shiftl (to_uint8 b) 8)))
       else Some h);
  h ← (if (remaining =? 3) || (remaining =? 2) || (remaining =? 1) then
         b ← data !! 0%nat;
         let h := to_uint32 (h + to_uint8 b) in
         let h := to_uint32 (h * m) in
         Some (Z.lxor h (Z.shiftr h r))
       else Some h);
  Some h.

End Hash.

(** *** Instances *)

(** A decoder: the four bytes at the pointer, the least significant first. *)
Definition little_endian : Coding :=
  {| DecodeFixed32 := fun ptr =>
       match ptr with
       | b0 :: b1 :: b2 :: b3 :: _ =>
           Some (Z.lor (Z.lor (to_uint8 b0) (Z.shiftl (to_uint8 b1) 8))
                   (Z.lor (Z.shiftl (to_uint8 b2) 16)
                          (Z.shiftl (to_uint8 b3) 24)))
       | _ => None
       end |}.

End hash.

(** ** The arena ([util/arena.h]) *)

Module arena.

(** A [char*] is an address.  [blocks_] holds the addresses of the blocks the
    arena owns. *)
Record Arena : Type := mkArena {
  alloc_ptr_ : Z;
  alloc_bytes_remaining_ : Z;   (* size_t *)
  blocks_ : list Z;
  memory_usage_ : Z             (* size_t *)
}.

(** [util/arena.cc] is not among the sources.  [AllocateFallback(bytes)] is a
    collaborator: it answers a pointer and the arena it leaves. *)
Class Fallback := { AllocateFallback : Arena -> Z -> option (Z * Arena) }.

Section Arena.

Context {fallback : Fallback}.

(** [Arena::Allocate(bytes)]. *)
Definition Allocate (a : Arena) (bytes : Z) : option (Z * Arena) :=
  _ ← assert (0 <? bytes);
  if bytes <=? alloc_bytes_remaining_ a then
    let result := alloc_ptr_ a in
    Some (result,
          {| alloc_ptr_ := alloc_ptr_ a + bytes;
             alloc_bytes_remaining_ :=
               to_size_t (alloc_bytes_remaining_ a - bytes);
             blocks_ := blocks_ a;
             memory_usage_ := memory_usage_ a |})
  else AllocateFallback a bytes.

(** [Arena::MemoryUsage()]. *)
Definition MemoryUsage (a : Arena) : Z := memory_usage_ a.

(** A sequence of [Allocate] calls: the pointers answered, in order, and the
    arena left. *)
Fixpoint Allocates (a : Arena) (sizes : list Z) : option (list Z * Arena) :=
  match sizes with
  | [] => Some ([], a)
  | bytes :: sizes =>
      '(p, a) ← Allocate a bytes;
      '(ps, a) ← Allocates a sizes;
      Some (p :: ps, a)
  end.

(** *** The vocabulary of the properties *)

(** The sum of the sizes. *)
Definition total (sizes : list Z) : Z := foldr Z.add 0 sizes.

(** The regions [p, p + size) of two allocations do not overlap. *)
Definition apart (p1 size1 p2 size2 : Z) : Prop :=
  p1 + size1 <= p2 \/ p2 + size2 <= p1.

End Arena.

(** *** Instances *)

(** A fallback that fails: an arena that cannot get another block. *)
Definition no_fallback : Fallback := {| AllocateFallback := fun _ _ => None |}.

End arena.
(** * Proofs *)

(** ** The conversions and the checksum *)

Lemma to_int_id z : - 2 ^ 31 <= z < 2 ^ 31 -> to_int z = z.
Proof. intros H. unfold to_int. rewrite Z.mod_small; lia. Qed.

Lemma to_size_t_id z : 0 <= z < 2 ^ 64 -> to_size_t z = z.
Proof. intros H. unfold to_size_t. rewrite Z.mod_small; lia. Qed.

Lemma to_uint64_id z : 0 <= z < 2 ^ 64 -> to_uint64 z = z.
Proof. intros H. unfold to_uint64. rewrite Z.mod_small; lia. Qed.

Lemma bind_assert_true {A} (f : unit -> option A) : assert true ≫= f = f tt.
Proof. reflexivity. Qed.

Lemma crc_extend_app c a b :
  crc32c.crc_extend (crc32c.crc_extend c a) b = crc32c.crc_extend c (a ++ b).
Proof.
  unfold crc32c.crc_extend. rewrite foldl_app.
  rewrite (Z.lxor_assoc _ 0xffffffff), Z.lxor_nilpotent, Z.lxor_0_r.
  reflexivity.
Qed.

(** CRC-32C is streaming. *)
Lemma crc32c_streaming : crc32c.streaming (H := crc32c.crc32c_checksum).
Proof. intros a b. apply crc_extend_app. Qed.

(** The check value of CRC-32C: the checksum of the ASCII digits 1 to 9. *)
Example crc_value_check :
  crc32c.crc_value [49; 50; 51; 52; 53; 54; 55; 56; 57] = 0xe3069283.
Proof. vm_compute. reflexivity. Qed.

(** ** The log writer *)

Module log_proofs.

Import crc32c log.

Section Proofs.

Context {Status : Type} {status_ok : StatusOk Status}
  {file : FileOutcome Status} {checksum : Checksum}.

Ltac pass_fields :=
  cbn [it_writer0 it_ptr0 it_left0 it_begin it_leftover it_offset it_dest
       it_avail it_length it_end it_type it_payload it_status it_writer it_ptr
       it_left].

Lemma type_crc_at_constructed w t :
  constructed w ->
  type_crc_at w t = Some (Value [to_char (RecordType_value t)]).
Proof.
  unfold constructed, type_crc_at. intros ->. destruct t; reflexivity.
Qed.

Lemma EmitPhysicalRecord_spec w t ptr len :
  constructed w ->
  0 <= block_offset_ w -> 0 <= len -> len <= Z.of_nat (length ptr) ->
  block_offset_ w + kHeaderSize + len <= kBlockSize ->
  let payload := take (Z.to_nat len) ptr in
  exists s w' n,
    EmitPhysicalRecord w t ptr len = Some (s, w') /\
    constructed w' /\
    block_offset_ w' = block_offset_ w + kHeaderSize + len /\
    (1 <= n <= 3)%nat /\
    dest_ w' = dest_ w ++ take n (record_calls t payload) /\
    s = outcome (dest_ w') /\
    (forall m, (1 <= m < n)%nat ->
       ok (outcome (dest_ w ++ take m (record_calls t payload))) = true) /\
    ((n < 3)%nat -> ok s = false).
Proof.
  intros Hc H0 Hl Hp Hfit payload.
  assert (Hlen : Z.of_nat (length payload) = len).
  { unfold payload. rewrite length_take. lia. }
  unfold kHeaderSize, kBlockSize in *.
  unfold EmitPhysicalRecord.
  unfold fits_two_bytes, fits_block.
  replace (len <=? 0xffff) with true by (symmetry; apply Z.leb_le; lia).
  unfold kHeaderSize, kBlockSize.
  rewrite (to_int_id (block_offset_ w + (4 + 2 + 1))) by lia.
  rewrite !to_size_t_id by lia.
  replace (block_offset_ w + (4 + 2 + 1) + len <=? 32768) with true
    by (symmetry; apply Z.leb_le; lia).
  rewrite (type_crc_at_constructed _ _ Hc). simpl.
  fold payload. rewrite to_int_id by lia.
  unfold Append, Flush, record_calls. rewrite Hlen.
  set (hdr := header _ len t).
  destruct (ok (outcome (dest_ w ++ [CallAppend hdr]))) eqn:E1.
  - destruct (ok (outcome ((dest_ w ++ [CallAppend hdr]) ++ [CallAppend payload])))
      eqn:E2.
    + eexists _, _, 3%nat. split; [reflexivity|]. simpl.
      rewrite <- !app_assoc. simpl.
      repeat split; try lia; try done.
      intros m Hm. assert (m = 1 \/ m = 2)%nat as [-> | ->] by lia; simpl.
      * exact E1.
      * rewrite <- app_assoc in E2. exact E2.
    + eexists _, _, 2%nat. split; [reflexivity|]. simpl.
      rewrite <- !app_assoc. simpl.
      repeat split; try lia; try done.
      * intros m Hm. assert (m = 1)%nat as -> by lia. exact E1.
      * intros _. rewrite <- app_assoc in E2. exact E2.
  - eexists _, _, 1%nat. split; [reflexivity|]. simpl.
    repeat split; try lia; try done.
Qed.

Lemma AddRecord_body_spec w ptr left begin :
  constructed w ->
  0 <= block_offset_ w <= kBlockSize ->
  left = Z.of_nat (length ptr) -> left < 2 ^ 64 ->
  exists it,
    AddRecord_body w ptr left begin = Some it /\
    it_writer0 it = w /\ it_ptr0 it = ptr /\ it_left0 it = left /\
    it_begin it = begin /\ pass_ok it.
Proof.
  intros Hc Hoff Hleft Hmax.
  unfold kBlockSize in Hoff.
  set (leftover := kBlockSize - block_offset_ w).
  set (w1 :=
    if leftover <? kHeaderSize then
      {| dest_ := dest_ w ++ trailer_calls leftover; block_offset_ := 0;
         type_crc_ := type_crc_ w |}
    else w).
  assert (Hw1 : constructed w1 /\
                block_offset_ w1 =
                  (if leftover <? kHeaderSize then 0 else block_offset_ w) /\
                dest_ w1 = dest_ w ++ trailer_calls leftover).
  { unfold w1, trailer_calls.
    destruct (leftover <? kHeaderSize) eqn:E; simpl; [done|].
    rewrite andb_false_r, app_nil_r. done. }
  destruct Hw1 as (Hc1 & Hoff1 & Hdest1).
  assert (Hrange : 0 <= block_offset_ w1 <= kBlockSize - kHeaderSize).
  { rewrite Hoff1. unfold leftover, kHeaderSize, kBlockSize.
    destruct (_ <? _) eqn:E; [lia|]. apply Z.ltb_ge in E.
    unfold leftover, kHeaderSize, kBlockSize in E. lia. }
  unfold kHeaderSize, kBlockSize in Hrange.
  set (avail := kBlockSize - block_offset_ w1 - kHeaderSize).
  set (len := Z.min left avail).
  assert (Hlen : 0 <= len <= left /\ len <= avail).
  { unfold len, avail, kHeaderSize, kBlockSize. lia. }
  destruct (EmitPhysicalRecord_spec w1 (classify begin (left =? len)) ptr len)
    as (s & w2 & n & Hemit & Hc2 & Hoff2 & Hn & Hdest2 & Hs & Hpre & Hfail);
    [done | lia | lia | lia | unfold avail in Hlen; lia |].
  eexists. split.
  - unfold AddRecord_body. cbv zeta.
    assert (E1 : to_int (kBlockSize - block_offset_ w) = leftover)
      by (unfold leftover, kBlockSize; apply to_int_id; lia).
    rewrite E1.
    assert (E2 : (0 <=? leftover) = true)
      by (apply Z.leb_le; unfold leftover, kBlockSize; lia).
    rewrite E2, bind_assert_true.
    match goal with
    | |- context [if leftover <? kHeaderSize then ?a else w] =>
        replace (if leftover <? kHeaderSize then a else w) with w1
    end; cycle 1.
    { unfold w1, trailer_calls, Append, trailer_literal.
      destruct (leftover <? kHeaderSize) eqn:E; [|done].
      destruct (0 <? leftover) eqn:E'; simpl; [|by rewrite app_nil_r].
      apply Z.ltb_lt in E, E'. unfold kHeaderSize in E.
      assert (leftover = 1 \/ leftover = 2 \/ leftover = 3 \/ leftover = 4 \/
              leftover = 5 \/ leftover = 6) as Hcases by lia.
      destruct Hcases as [-> | [-> | [-> | [-> | [-> | ->]]]]]; reflexivity. }
    fold avail.
    assert (E3 : to_int avail = avail)
      by (apply to_int_id; unfold avail, kBlockSize, kHeaderSize; lia).
    rewrite E3.
    assert (E4 : (0 <=? avail) = true)
      by (apply Z.leb_le; unfold avail, kBlockSize, kHeaderSize; lia).
    rewrite E4, bind_assert_true.
    assert (E5 : to_size_t avail = avail)
      by (apply to_size_t_id; unfold avail, kBlockSize, kHeaderSize; lia).
    rewrite E5.
    replace (if left <? avail then left else avail) with len; cycle 1.
    { unfold len. destruct (left <? avail) eqn:E.
      - apply Z.ltb_lt in E. lia.
      - apply Z.ltb_ge in E. lia. }
    replace (if begin && (left =? len) then kFullType
             else if begin then kFirstType
             else if left =? len then kLastType else kMiddleType)
      with (classify begin (left =? len))
      by (destruct begin, (left =? len); reflexivity).
    rewrite Hemit. simpl. reflexivity.
  - pass_fields. do 4 (split; [reflexivity|]).
    rewrite to_size_t_id by lia.
    assert (Hpl : Z.of_nat (length (take (Z.to_nat len) ptr)) = len)
      by (rewrite length_take; lia).
    constructor; pass_fields; try done; try lia.
    + rewrite length_drop. lia.
    + exists n. done.
Qed.

Lemma AddRecord_loop_spec fuel : forall w ptr left begin,
  constructed w ->
  0 <= block_offset_ w <= kBlockSize ->
  left = Z.of_nat (length ptr) -> left < 2 ^ 64 ->
  2 * left + (if block_offset_ w =? kBlockSize - kHeaderSize then 1 else 0)
    < Z.of_nat fuel ->
  exists its, AddRecord_loop fuel w ptr left begin = Some its /\
              run_ok w ptr left begin its.
Proof.
  induction fuel as [|fuel IH]; intros w ptr left begin Hc Hoff Hleft Hmax Hfuel.
  { destruct (_ =? _); lia. }
  destruct (AddRecord_body_spec w ptr left begin Hc Hoff Hleft Hmax)
    as (it & Hbody & Hw0 & Hp0 & Hl0 & Hb0 & Hpass).
  simpl. rewrite Hbody. simpl.
  destruct (ok (it_status it) && (0 <? it_left it)) eqn:Hcont.
  - apply andb_true_iff in Hcont as [Hok Hpos]. apply Z.ltb_lt in Hpos.
    pose proof Hpass as Hpass'. destruct Hpass'.
    rewrite Hl0, pass_avail0 in pass_length0.
    rewrite Hl0 in pass_left0.
    rewrite Hw0 in pass_leftover0, pass_offset0.
    destruct (IH (it_writer it) (it_ptr it) (it_left it) false) as (rest & Hrest & Hrun);
      [done | lia | done | lia | | ].
    { rewrite pass_block_offset0.
      unfold kBlockSize, kHeaderSize in *.
      destruct (block_offset_ w =? 32768 - (4 + 2 + 1)) eqn:E1;
        destruct (it_leftover it <? 4 + 2 + 1) eqn:E2;
        destruct (it_offset it + (4 + 2 + 1) + it_length it =? 32768 - (4 + 2 + 1))
          eqn:E3; lia. }
    rewrite Hrest. simpl. eexists. split; [reflexivity|].
    destruct Hrun as [(it' & Hit' & Hw' & Hp' & Hl' & Hb') Hall Hch Hlast].
    constructor.
    + exists it. done.
    + constructor; done.
    + intros [|i] a b Ha Hb; simpl in Ha, Hb.
      * injection Ha as <-. rewrite Hit' in Hb. injection Hb as <-.
        repeat split; try done.
      * eapply Hch; eauto.
    + destruct Hlast as (itn & Hn & Hstop). exists itn. split; [|done].
      destruct rest; [done|]. simpl in *. done.
  - eexists. split; [reflexivity|].
    constructor.
    + exists it. done.
    + constructor; done.
    + intros [|i] a b Ha Hb; simpl in Ha, Hb; done.
    + exists it. done.
Qed.

Lemma AddRecord_trace_spec fuel w slice :
  constructed w ->
  0 <= block_offset_ w <= kBlockSize ->
  Z.of_nat (length slice) < 2 ^ 64 ->
  (2 * length slice + 2 <= fuel)%nat ->
  exists its, AddRecord_trace fuel w slice = Some its /\
              run_ok w slice (Z.of_nat (length slice)) true its.
Proof.
  intros Hc Hoff Hmax Hfuel. unfold AddRecord_trace.
  apply AddRecord_loop_spec; try done.
  destruct (_ =? _); lia.
Qed.

Lemma run_ok_lookup w ptr left begin its i it :
  run_ok w ptr left begin its -> its !! i = Some it -> pass_ok it.
Proof.
  intros [_ Hall _ _] Hi. rewrite Forall_lookup in Hall. eauto.
Qed.

(** Only the first pass of a run can have [begin] set. *)
Lemma run_ok_begin w ptr left begin its i it :
  run_ok w ptr left begin its -> its !! i = Some it ->
  it_begin it = if i is O then begin else false.
Proof.
  intros [(it0 & H0 & _ & _ & _ & Hb) _ Hch _] Hi.
  destruct i as [|i].
  - rewrite H0 in Hi. by injection Hi as <-.
  - destruct (its !! i) as [a|] eqn:Ha.
    + by destruct (Hch i a it Ha Hi) as (_ & _ & _ & ? & _).
    + apply lookup_ge_None in Ha. apply lookup_lt_Some in Hi. lia.
Qed.

(** The bytes not yet emitted when a pass starts are what the earlier passes
    left of the slice. *)
Lemma run_ok_remaining w ptr left begin its :
  run_ok w ptr left begin its ->
  forall i it, its !! i = Some it ->
    concat (it_payload <$> take i its) ++ it_ptr0 it = ptr.
Proof.
  intros Hrun. pose proof Hrun as [(it0 & H0 & _ & Hp & _ & _) _ Hch _].
  induction i as [|i IH]; intros it Hi.
  - rewrite H0 in Hi. injection Hi as <-. done.
  - destruct (its !! i) as [a|] eqn:Ha; cycle 1.
    { apply lookup_ge_None in Ha. apply lookup_lt_Some in Hi. lia. }
    rewrite (take_S_r _ _ _ Ha), fmap_app, concat_app. simpl.
    rewrite app_nil_r, <- app_assoc.
    destruct (Hch i a it Ha Hi) as (_ & Hptr & _).
    destruct (run_ok_lookup _ _ _ _ _ _ _ Hrun Ha).
    rewrite Hptr, pass_ptr0, pass_payload0, take_drop. by apply IH.
Qed.

(** A pass that is followed by another did not end the record; a pass that
    ends the record is the last one. *)
Lemma run_ok_end w ptr left begin its i it :
  run_ok w ptr left begin its -> its !! i = Some it ->
  (it_end it = true <-> it_left it = 0) /\
  (it_end it = true -> S i = length its) /\
  (S i = length its -> ok (it_status it) = true -> it_end it = true).
Proof.
  intros Hrun Hi.
  destruct (run_ok_lookup _ _ _ _ _ _ _ Hrun Hi).
  assert (Hend : it_end it = true <-> it_left it = 0).
  { rewrite pass_end0, Z.eqb_eq. lia. }
  split; [done|]. destruct Hrun as [_ _ Hch (itn & Hn & Hstop)]. split.
  - intros He. apply Hend in He.
    destruct (its !! S i) as [b|] eqn:Hb.
    + destruct (Hch i it b Hi Hb) as (_ & _ & _ & _ & _ & ?). lia.
    + apply lookup_ge_None in Hb. apply lookup_lt_Some in Hi. lia.
  - intros Hlen Hok. apply Hend.
    rewrite last_lookup in Hn. rewrite <- Hlen in Hn. simpl in Hn.
    rewrite Hi in Hn. injection Hn as <-.
    rewrite Hok in Hstop. simpl in Hstop. apply Z.ltb_ge in Hstop.
    rewrite pass_left_ptr0 in *. lia.
Qed.

(** [C3]: for every payload, the empty one too, [AddRecord] emits at least one
    fragment; a fragment carries the first min(left, kBlockSize - block_offset_
    - kHeaderSize) of the bytes that remain; its type is Full, First, Last or
    Middle according to whether it is the first fragment of the call and
    whether it is the last of the record, the one after which no byte remains.
    The fragment that ends the record is the last one emitted, and when the
    call succeeds the last one emitted ends the record.  All of it is said of
    the file: each pass starts from the writer the pass before left (the first
    from the writer of the call), sends the padding, if any, and then the
    header, the payload and a flush of its fragment, all three when its status
    is ok and at least the header otherwise; the call returns the status and
    the writer of the last pass. *)
Theorem AddRecord_fragments fuel w slice :
  constructed w ->
  0 <= block_offset_ w <= kBlockSize ->
  Z.of_nat (length slice) < 2 ^ 64 ->
  (2 * length slice + 2 <= fuel)%nat ->
  exists its,
    AddRecord_trace fuel w slice = Some its /\
    (1 <= length its)%nat /\
    (exists it, last its = Some it /\
       AddRecord fuel w slice = Some (it_status it, it_writer it)) /\
    forall i it, its !! i = Some it ->
      let remaining := drop (length (concat (it_payload <$> take i its))) slice in
      let carried :=
        Z.min (Z.of_nat (length remaining))
              (kBlockSize - it_offset it - kHeaderSize) in
      it_payload it = take (Z.to_nat carried) remaining /\
      it_length it = carried /\
      (i = 0%nat -> it_writer0 it = w) /\
      (forall j a, i = S j -> its !! j = Some a -> it_writer0 it = it_writer a) /\
      it_offset it =
        (if kBlockSize - block_offset_ (it_writer0 it) <? kHeaderSize
         then 0 else block_offset_ (it_writer0 it)) /\
      it_dest it =
        dest_ (it_writer0 it)
        ++ trailer_calls (kBlockSize - block_offset_ (it_writer0 it)) /\
      (exists n, (1 <= n <= 3)%nat /\
         dest_ (it_writer it) =
           it_dest it ++ take n (record_calls (it_type it) (it_payload it)) /\
         (ok (it_status it) = true -> n = 3%nat)) /\
      it_begin it = bool_decide (i = 0%nat) /\
      (it_end it = true <-> it_payload it = remaining) /\
      it_type it = classify (it_begin it) (it_end it) /\
      (it_end it = true -> S i = length its) /\
      (S i = length its -> ok (it_status it) = true -> it_end it = true).
Proof.
  intros Hc Hoff Hmax Hfuel.
  destruct (AddRecord_trace_spec fuel w slice Hc Hoff Hmax Hfuel)
    as (its & Htrace & Hrun).
  exists its. split; [done|]. split.
  { destruct Hrun as [(it0 & H0 & _) _ _ _]. apply lookup_lt_Some in H0. lia. }
  split.
  { destruct Hrun as [_ _ _ (it & Hlast & _)]. exists it. split; [done|].
    unfold AddRecord. rewrite Htrace. simpl. by rewrite Hlast. }
  intros i it Hi remaining carried.
  pose proof (run_ok_lookup _ _ _ _ _ _ _ Hrun Hi) as Hpass.
  pose proof (run_ok_remaining _ _ _ _ _ Hrun i it Hi) as Hrem.
  pose proof (run_ok_begin _ _ _ _ _ _ _ Hrun Hi) as Hbegin.
  destruct (run_ok_end _ _ _ _ _ _ _ Hrun Hi) as (Hend & Hlast1 & Hlast2).
  pose proof Hrun as [(it0 & H0 & Hw0 & _) _ Hch _].
  destruct Hpass.
  assert (Hptr0 : it_ptr0 it = remaining).
  { unfold remaining. rewrite <- Hrem at 1. by rewrite drop_app_length. }
  assert (Hleft0 : it_left0 it = Z.of_nat (length remaining)).
  { by rewrite <- Hptr0. }
  assert (Hcarried : it_length it = carried).
  { unfold carried. rewrite pass_length0, pass_avail0, Hleft0. done. }
  split; [rewrite pass_payload0, Hcarried, Hptr0; done|].
  split; [done|].
  split.
  { intros ->. rewrite H0 in Hi. by injection Hi as <-. }
  split.
  { intros j a -> Ha. by destruct (Hch j a it Ha Hi). }
  split; [by rewrite pass_offset0, pass_leftover0|].
  split; [by rewrite pass_dest0, pass_leftover0|].
  split.
  { destruct pass_calls0 as (n & Hn & Hd & _ & _ & Hfail).
    exists n. split; [done|]. split; [done|]. intros Hok.
    destruct (decide (n = 3%nat)); [done|]. rewrite Hfail in Hok by lia. done. }
  split; [rewrite Hbegin; by destruct i|].
  split.
  { split.
    - intros He. rewrite pass_payload0, Hptr0. apply take_ge.
      rewrite pass_end0 in He. apply Z.eqb_eq in He. lia.
    - intros He. rewrite pass_end0. apply Z.eqb_eq.
      rewrite <- pass_payload_length0, He. done. }
  done.
Qed.

Lemma appended_bytes_trailer leftover :
  leftover < kHeaderSize ->
  appended_bytes (trailer_calls leftover) = replicate (Z.to_nat leftover) 0.
Proof.
  intros H. unfold trailer_calls, appended_bytes.
  destruct (0 <? leftover) eqn:E.
  - apply Z.ltb_lt in E. replace (leftover <? kHeaderSize) with true
      by (symmetry; apply Z.ltb_lt; lia).
    simpl. apply app_nil_r.
  - apply Z.ltb_ge in E. replace (Z.to_nat leftover) with 0%nat by lia. done.
Qed.

(** After a run of the loop the writer is again one [AddRecord] accepts. *)
Lemma run_ok_final w ptr left begin its :
  run_ok w ptr left begin its ->
  exists it, last its = Some it /\ constructed (it_writer it) /\
             0 <= block_offset_ (it_writer it) <= kBlockSize.
Proof.
  intros Hrun. pose proof Hrun as [_ _ _ (it & Hlast & _)].
  exists it. split; [done|].
  rewrite last_lookup in Hlast.
  destruct (run_ok_lookup _ _ _ _ _ _ _ Hrun Hlast).
  split; [done|]. rewrite pass_block_offset0.
  unfold kBlockSize, kHeaderSize in *. lia.
Qed.

Lemma AddRecords_spec fuel slices : forall w,
  constructed w ->
  0 <= block_offset_ w <= kBlockSize ->
  slices_ok fuel slices ->
  exists its w',
    AddRecords fuel w slices = Some (its, w') /\
    Forall pass_ok its /\
    constructed w' /\ 0 <= block_offset_ w' <= kBlockSize.
Proof.
  induction slices as [|slice slices IH]; intros w Hc Hoff Hsl.
  - exists [], w. done.
  - apply Forall_cons in Hsl as [[Hmax Hfuel] Hsl].
    destruct (AddRecord_trace_spec fuel w slice Hc Hoff Hmax Hfuel)
      as (its & Htrace & Hrun).
    destruct (run_ok_final _ _ _ _ _ Hrun) as (it & Hlast & Hc' & Hoff').
    destruct (IH (it_writer it) Hc' Hoff' Hsl) as (rest & w' & Hrest & Hall & Hw').
    exists (its ++ rest), w'. simpl.
    rewrite Htrace. simpl. rewrite Hlast. simpl. rewrite Hrest. simpl.
    split; [done|]. split; [|done].
    apply Forall_app. split; [|done]. by destruct Hrun.
Qed.

(** The padding and the reset, as the writer does them: in any sequence of
    [AddRecord] calls on a writer whose block offset is in [0, 32768), each
    pass of the loop that finds fewer than 7 bytes left in the block sends
    exactly [leftover] zero bytes to the file (one [Append] of them, or no
    call when none is left) and then its fragment, which it counts from offset
    0; a pass that finds 7 bytes or more sends its fragment at once and leaves
    the offset; so by the count of the writer the header of every fragment
    lies within the block, and so does the fragment: block_offset_ + 7 +
    fragment_length <= 32768.  What the file answers to the padding is not
    looked at: where it refuses it, the count of the writer and the length of
    the file part, as the run at the end of this module shows. *)
Theorem AddRecords_block_boundaries fuel w slices :
  constructed w ->
  0 <= block_offset_ w < 32768 ->
  slices_ok fuel slices ->
  exists its w',
    AddRecords fuel w slices = Some (its, w') /\
    Forall (fun it =>
      let leftover := kBlockSize - block_offset_ (it_writer0 it) in
      it_leftover it = leftover /\
      (leftover < 7 ->
         it_dest it = dest_ (it_writer0 it) ++ trailer_calls leftover /\
         appended_bytes (trailer_calls leftover)
           = replicate (Z.to_nat leftover) 0 /\
         (0 < leftover ->
            trailer_calls leftover
              = [CallAppend (replicate (Z.to_nat leftover) 0)]) /\
         it_offset it = 0) /\
      (7 <= leftover ->
         it_dest it = dest_ (it_writer0 it) /\
         it_offset it = block_offset_ (it_writer0 it)) /\
      0 <= it_offset it /\
      it_offset it + 7 <= 32768 /\
      it_offset it + 7 + it_length it <= 32768 /\
      block_offset_ (it_writer it) = it_offset it + 7 + it_length it /\
      0 <= it_length it /\
      (exists n, (1 <= n <= 3)%nat /\
         dest_ (it_writer it) =
           dest_ (it_writer0 it) ++ trailer_calls leftover
           ++ take n (record_calls (it_type it) (it_payload it)) /\
         (ok (it_status it) = true -> n = 3%nat))) its.
Proof.
  intros Hc Hoff Hsl.
  destruct (AddRecords_spec fuel slices w Hc) as (its & w' & Hrun & Hall & _);
    [unfold kBlockSize; lia | done |].
  exists its, w'. split; [done|].
  eapply Forall_impl; [exact Hall|].
  intros it []. cbv zeta.
  rewrite <- pass_leftover0.
  unfold kBlockSize, kHeaderSize in *.
  split; [done|]. split; [|split].
  - intros Hlt. split; [done|]. split; [by apply appended_bytes_trailer|].
    split.
    + intros Hpos. unfold trailer_calls, kHeaderSize.
      replace (0 <? it_leftover it) with true by (symmetry; apply Z.ltb_lt; lia).
      replace (it_leftover it <? 4 + 2 + 1) with true
        by (symmetry; apply Z.ltb_lt; lia).
      done.
    + rewrite pass_offset0.
      replace (it_leftover it <? 4 + 2 + 1) with true
        by (symmetry; apply Z.ltb_lt; lia).
      done.
  - intros Hge.
    assert (E : (it_leftover it <? 4 + 2 + 1) = false) by (apply Z.ltb_ge; lia).
    rewrite pass_dest0, pass_offset0. unfold trailer_calls, kHeaderSize.
    rewrite E, andb_false_r, app_nil_r. done.
  - split; [done|]. split; [lia|]. split; [lia|].
    split; [rewrite pass_block_offset0; lia|]. split; [done|].
    destruct pass_calls0 as (n & Hn & Hd & _ & _ & Hfail).
    exists n. split; [done|]. split.
    + by rewrite Hd, pass_dest0, <- app_assoc.
    + intros Hok. destruct (decide (n = 3%nat)); [done|].
      rewrite Hfail in Hok by lia. done.
Qed.

(** More fuel does not change the passes of a run. *)
Lemma AddRecord_loop_fuel fuel : forall fuel' w ptr left begin its,
  AddRecord_loop fuel w ptr left begin = Some its ->
  (fuel <= fuel')%nat ->
  AddRecord_loop fuel' w ptr left begin = Some its.
Proof.
  induction fuel as [|fuel IH]; intros fuel' w ptr left begin its H Hle;
    [done|].
  destruct fuel' as [|fuel']; [lia|].
  simpl in *. destruct (AddRecord_body w ptr left begin) as [it|]; [|done].
  simpl in *. destruct (ok (it_status it) && (0 <? it_left it)); [|done].
  destruct (AddRecord_loop fuel _ _ _ _) as [rest|] eqn:E; [|done].
  rewrite (IH fuel' _ _ _ _ rest E) by lia. done.
Qed.

(** Whatever fuel a run that ended was given, its passes are as specified. *)
Lemma AddRecord_trace_inv fuel w slice its :
  constructed w ->
  0 <= block_offset_ w <= kBlockSize ->
  Z.of_nat (length slice) < 2 ^ 64 ->
  AddRecord_trace fuel w slice = Some its ->
  run_ok w slice (Z.of_nat (length slice)) true its.
Proof.
  intros Hc Hoff Hmax H.
  destruct (AddRecord_trace_spec (fuel + (2 * length slice + 2)) w slice)
    as (its' & H' & Hrun); [done | done | done | lia |].
  unfold AddRecord_trace in *.
  rewrite (AddRecord_loop_fuel fuel _ _ _ _ _ its H) in H' by lia.
  by injection H' as <-.
Qed.

Lemma Writer_resume_block_offset dest dest_length :
  0 <= dest_length < 2 ^ 64 ->
  block_offset_ (Writer_resume dest dest_length) = dest_length mod kBlockSize.
Proof.
  intros H. unfold Writer_resume. simpl.
  rewrite !to_uint64_id by (unfold kBlockSize; lia).
  apply to_int_id.
  pose proof (Z.mod_pos_bound dest_length kBlockSize). unfold kBlockSize in *.
  lia.
Qed.

Lemma reachable_ok w :
  reachable w -> constructed w /\ 0 <= block_offset_ w <= kBlockSize.
Proof.
  induction 1 as [dest | dest L HL | fuel w slice s w' Hw IH Hmax Hadd].
  - split; [done|]. simpl. unfold kBlockSize. lia.
  - split; [done|]. rewrite Writer_resume_block_offset by done.
    pose proof (Z.mod_pos_bound L kBlockSize). unfold kBlockSize in *. lia.
  - destruct IH as [Hc Hoff]. unfold AddRecord in Hadd.
    destruct (AddRecord_trace fuel w slice) as [its|] eqn:Htrace; [|done].
    simpl in Hadd.
    pose proof (AddRecord_trace_inv _ _ _ _ Hc Hoff Hmax Htrace) as Hrun.
    destruct (run_ok_final _ _ _ _ _ Hrun) as (it & Hlast & Hc' & Hoff').
    rewrite Hlast in Hadd. simpl in Hadd. by injection Hadd as _ <-.
Qed.

Lemma length_field len :
  0 <= len <= 0xffff ->
  to_char (Z.land len 0xff) + 256 * to_char (Z.shiftr len 8) = len.
Proof.
  intros H. unfold to_char.
  change 0xff with (Z.ones 8). rewrite Z.land_ones by lia.
  rewrite Z.shiftr_div_pow2 by lia. change (2 ^ 8) with 256.
  rewrite Z.mod_mod by lia.
  rewrite (Z.mod_small (len / 256)).
  - pose proof (Z.div_mod len 256). lia.
  - split; [apply Z.div_pos; lia|]. apply Z.div_lt_upper_bound; lia.
Qed.

(** [C10]: in every [AddRecord] call on a reachable writer no assertion fails
    (the call answers), and in every pass: the fragment is emitted at an offset
    of at most 32761, so kBlockSize - block_offset_ - kHeaderSize is not
    negative and [avail] is that number; the fragment is at most 32761 bytes
    long; the two assertions of [EmitPhysicalRecord] hold for it; and the two
    length bytes of the header give the length back. *)
Theorem AddRecord_assertions_hold fuel w slice :
  reachable w ->
  Z.of_nat (length slice) < 2 ^ 64 ->
  (2 * length slice + 2 <= fuel)%nat ->
  exists its,
    AddRecord_trace fuel w slice = Some its /\
    Forall (fun it =>
      0 <= it_offset it <= 32761 /\
      0 <= kBlockSize - it_offset it - kHeaderSize /\
      it_avail it = kBlockSize - it_offset it - kHeaderSize /\
      0 <= it_length it <= 32768 - 7 /\
      fits_two_bytes (it_length it) = true /\
      fits_block (it_offset it) (it_length it) = true /\
      it_offset it + kHeaderSize + it_length it <= kBlockSize /\
      to_char (Z.land (it_length it) 0xff)
        + 256 * to_char (Z.shiftr (it_length it) 8) = it_length it) its.
Proof.
  intros Hw Hmax Hfuel. destruct (reachable_ok w Hw) as [Hc Hoff].
  destruct (AddRecord_trace_spec fuel w slice Hc Hoff Hmax Hfuel)
    as (its & Htrace & [_ Hall _ _]).
  exists its. split; [done|].
  eapply Forall_impl; [exact Hall|]. intros it [].
  unfold kBlockSize, kHeaderSize in *.
  assert (Hlen : 0 <= it_length it <= 32761) by lia.
  repeat split; try lia.
  - unfold fits_two_bytes. apply Z.leb_le. lia.
  - unfold fits_block, kHeaderSize, kBlockSize. apply Z.leb_le.
    rewrite to_int_id by lia. rewrite !to_size_t_id by lia. lia.
  - apply length_field. lia.
Qed.

(** [C7]: a writer constructed for a file of length L starts at block offset
    L mod 32768, and its first [AddRecord] goes on in that block: the first
    pass finds 32768 - L mod 32768 bytes left, and when these are 7 or more it
    emits its fragment at offset L mod 32768, with nothing sent before it. *)
Theorem Writer_resume_continues fuel dest dest_length slice :
  0 <= dest_length < 2 ^ 64 ->
  Z.of_nat (length slice) < 2 ^ 64 ->
  (2 * length slice + 2 <= fuel)%nat ->
  let w := Writer_resume dest dest_length in
  block_offset_ w = dest_length mod 32768 /\
  exists it its,
    AddRecord_trace fuel w slice = Some (it :: its) /\
    it_leftover it = 32768 - dest_length mod 32768 /\
    (7 <= 32768 - dest_length mod 32768 ->
       it_offset it = dest_length mod 32768 /\ it_dest it = dest).
Proof.
  intros HL Hmax Hfuel w.
  assert (Hoff : block_offset_ w = dest_length mod 32768)
    by (by apply Writer_resume_block_offset).
  split; [done|].
  destruct (reachable_ok w (reachable_resume dest dest_length HL)) as [Hc Hr].
  destruct (AddRecord_trace_spec fuel w slice Hc Hr Hmax Hfuel)
    as (its & Htrace & Hrun).
  pose proof Hrun as [(it & H0 & Hw0 & _) _ _ _].
  destruct its as [|it' its]; [done|]. simpl in H0. injection H0 as ->.
  exists it, its. split; [done|].
  destruct (run_ok_lookup _ _ _ _ _ 0%nat it Hrun eq_refl).
  rewrite Hw0 in *. rewrite Hoff in *. unfold kBlockSize, kHeaderSize in *.
  split; [done|]. intros Hge.
  assert (E : (it_leftover it <? 4 + 2 + 1) = false) by (apply Z.ltb_ge; lia).
  rewrite pass_offset0, pass_dest0. unfold trailer_calls, kHeaderSize.
  rewrite E, andb_false_r, app_nil_r. done.
Qed.

(** [C5]: the checksum in the header of a fragment of type t with payload p is
    Mask(Extend(seed, p)), stored as four little-endian bytes, where seed is the
    entry for t of the table the constructor fills, the checksum of the single
    byte t; and, the checksum being streaming, that is the masked checksum of
    the byte t followed by p. *)
Theorem EmitPhysicalRecord_checksum w t ptr len s w' :
  streaming ->
  constructed w ->
  EmitPhysicalRecord w t ptr len = Some (s, w') ->
  let p := take (Z.to_nat len) ptr in
  let tb := to_char (RecordType_value t) in
  exists seed rest,
    type_crc_at w t = Some seed /\
    seed = Value [tb] /\
    dest_ w' =
      dest_ w ++
      CallAppend (EncodeFixed32 (Mask (Extend seed p)) ++
                  [to_char (Z.land len 0xff); to_char (Z.shiftr len 8); tb])
      :: rest /\
    Mask (Extend seed p) = Mask (Value (tb :: p)).
Proof.
  intros Hstream Hc H p tb. exists (Value [tb]).
  unfold EmitPhysicalRecord in H.
  destruct (fits_two_bytes len); [|done].
  destruct (fits_block (block_offset_ w) len); [|done].
  rewrite !bind_assert_true in H.
  rewrite (type_crc_at_constructed w t Hc) in *. simpl in H.
  fold p tb in H. unfold Append, Flush in H.
  set (hdr := header _ len t) in H.
  assert (Hhdr : hdr = EncodeFixed32 (Mask (Extend (Value [tb]) p)) ++
                       [to_char (Z.land len 0xff); to_char (Z.shiftr len 8); tb])
    by done.
  rewrite <- Hhdr. rewrite (Hstream [tb] p).
  destruct (ok (outcome (dest_ w ++ [CallAppend hdr]))).
  - destruct (ok (outcome ((dest_ w ++ [CallAppend hdr]) ++ [CallAppend p])));
      injection H as <- <-; simpl; rewrite <- !app_assoc; simpl;
      eexists; done.
  - injection H as <- <-. simpl. exists []. done.
Qed.

(** The failures of the three calls of a fragment: each pass sends the header,
    the payload and a flush, in that order and stopping at the first that is
    not answered ok; the status of the pass is the answer to the last call
    made.  A pass whose status is not ok is the last: [AddRecord] returns that
    status, and the writer as that pass left it, so nothing more is sent.  A
    pass that is followed by another made all three calls, all answered ok.
    The padding of a block is sent before the three calls, and what the file
    answers to it is not looked at. *)
Theorem AddRecord_record_failure_stops fuel w slice :
  constructed w ->
  0 <= block_offset_ w <= kBlockSize ->
  Z.of_nat (length slice) < 2 ^ 64 ->
  (2 * length slice + 2 <= fuel)%nat ->
  exists its s w',
    AddRecord_trace fuel w slice = Some its /\
    AddRecord fuel w slice = Some (s, w') /\
    forall i it, its !! i = Some it ->
      let calls := record_calls (it_type it) (it_payload it) in
      it_dest it = dest_ (it_writer0 it) ++ trailer_calls (it_leftover it) /\
      exists n,
        (1 <= n <= 3)%nat /\
        dest_ (it_writer it) = it_dest it ++ take n calls /\
        it_status it = outcome (dest_ (it_writer it)) /\
        (forall m, (1 <= m < n)%nat ->
           ok (outcome (it_dest it ++ take m calls)) = true) /\
        ((n < 3)%nat -> ok (it_status it) = false) /\
        (ok (it_status it) = false ->
           S i = length its /\ s = it_status it /\ w' = it_writer it) /\
        (forall b, its !! S i = Some b ->
           n = 3%nat /\ ok (it_status it) = true /\
           it_writer0 b = it_writer it) /\
        (S i = length its -> s = it_status it /\ w' = it_writer it).
Proof.
  intros Hc Hoff Hmax Hfuel.
  destruct (AddRecord_trace_spec fuel w slice Hc Hoff Hmax Hfuel)
    as (its & Htrace & Hrun).
  pose proof Hrun as [_ _ Hch (itn & Hlast & Hstop)].
  exists its, (it_status itn), (it_writer itn).
  split; [done|]. split.
  { unfold AddRecord. rewrite Htrace. simpl. rewrite Hlast. done. }
  intros i it Hi calls.
  destruct (run_ok_lookup _ _ _ _ _ _ _ Hrun Hi).
  split; [done|].
  destruct pass_calls0 as (n & Hn & Hd & Hs & Hpre & Hfail).
  rewrite last_lookup in Hlast.
  assert (Hlasti : S i = length its -> itn = it).
  { intros E. rewrite <- E in Hlast. simpl in Hlast. congruence. }
  assert (Hnext : forall b, its !! S i = Some b ->
            ok (it_status it) = true /\ it_writer0 b = it_writer it).
  { intros b Hb. by destruct (Hch i it b Hi Hb) as (? & _ & _ & _ & ? & _). }
  exists n. do 5 (split; [done|]). split; [|split].
  - intros Hno.
    assert (Hend : S i = length its).
    { destruct (its !! S i) as [b|] eqn:Hb.
      + destruct (Hnext b eq_refl). congruence.
      + apply lookup_ge_None in Hb. apply lookup_lt_Some in Hi. lia. }
    rewrite (Hlasti Hend). done.
  - intros b Hb. destruct (Hnext b Hb) as [Hok Hw0].
    split; [|done]. destruct (decide (n = 3%nat)); [done|].
    rewrite Hfail in Hok by lia. done.
  - intros Hend. rewrite (Hlasti Hend). done.
Qed.

(** A failed [AddRecord] leaves the block offset advanced over the whole of
    its last fragment, though the calls that were to send it stopped early. *)
Lemma AddRecord_failed_offset fuel w slice s w' :
  constructed w ->
  0 <= block_offset_ w <= kBlockSize ->
  Z.of_nat (length slice) < 2 ^ 64 ->
  AddRecord fuel w slice = Some (s, w') ->
  ok s = false ->
  exists it n,
    it_writer it = w' /\ it_status it = s /\
    block_offset_ w' = it_offset it + kHeaderSize + it_length it /\
    (1 <= n <= 3)%nat /\
    dest_ w' = it_dest it ++ take n (record_calls (it_type it) (it_payload it)).
Proof.
  intros Hc Hoff Hmax Hadd Hs. unfold AddRecord in Hadd.
  destruct (AddRecord_trace fuel w slice) as [its|] eqn:Htrace; [|done].
  simpl in Hadd.
  pose proof (AddRecord_trace_inv _ _ _ _ Hc Hoff Hmax Htrace) as Hrun.
  destruct (last its) as [it|] eqn:Hlast; [|done]. simpl in Hadd.
  injection Hadd as <- <-. rewrite last_lookup in Hlast.
  destruct (run_ok_lookup _ _ _ _ _ _ _ Hrun Hlast).
  destruct pass_calls0 as (n & Hn & Hd & _).
  exists it, n. done.
Qed.


(** *** What reaches the file *)

Lemma written_snoc (its : list (@Iteration Status)) it :
  written (its ++ [it]) = written its ++ sent_calls it.
Proof.
  unfold written. rewrite fmap_app, concat_app. simpl. by rewrite app_nil_r.
Qed.

(** What one pass leaves in the file: the padding, and the first calls of the
    fragment, all three when the pass ends ok. *)
Lemma pass_ok_sent it :
  pass_ok it ->
  exists n, (1 <= n <= 3)%nat /\
    dest_ (it_writer it) =
      dest_ (it_writer0 it)
      ++ trailer_calls (kBlockSize - block_offset_ (it_writer0 it))
      ++ take n (fragment_calls it) /\
    it_status it = outcome (dest_ (it_writer it)) /\
    (ok (it_status it) = true -> n = 3%nat).
Proof.
  intros []. unfold fragment_calls.
  destruct pass_calls0 as (n & Hn & Hd & Hs & _ & Hfail).
  exists n. split; [done|]. split; [|split; [done|]].
  - by rewrite Hd, pass_dest0, pass_leftover0, <- app_assoc.
  - intros Hok. destruct (decide (n = 3%nat)); [done|].
    rewrite Hfail in Hok by lia. done.
Qed.

Lemma pass_ok_sent_ok it :
  pass_ok it -> ok (it_status it) = true ->
  dest_ (it_writer it) = dest_ (it_writer0 it) ++ sent_calls it.
Proof.
  intros Hp Hok. destruct (pass_ok_sent it Hp) as (n & _ & Hd & _ & Hn).
  rewrite Hd, (Hn Hok). done.
Qed.

(** A pass that is followed by another ended ok and filled its block, so the
    pass after it sends no padding. *)
Lemma run_ok_next w ptr left begin its i a b :
  run_ok w ptr left begin its ->
  its !! i = Some a -> its !! S i = Some b ->
  it_writer0 b = it_writer a /\
  ok (it_status a) = true /\
  block_offset_ (it_writer a) = kBlockSize /\
  trailer_calls (kBlockSize - block_offset_ (it_writer0 b)) = [].
Proof.
  intros Hrun Ha Hb. pose proof Hrun as [_ _ Hch _].
  destruct (Hch i a b Ha Hb) as (Hw & _ & _ & _ & Hok & Hpos).
  assert (Hfull : block_offset_ (it_writer a) = kBlockSize).
  { destruct (run_ok_lookup _ _ _ _ _ _ _ Hrun Ha). lia. }
  split; [done|]. split; [done|]. split; [done|].
  rewrite Hw, Hfull, Z.sub_diag. done.
Qed.

(** What the file had received when a pass started: the whole fragments of
    the passes before it. *)
Lemma run_ok_before w ptr left begin its :
  run_ok w ptr left begin its ->
  forall i it, its !! i = Some it ->
    dest_ (it_writer0 it) = dest_ w ++ written (take i its).
Proof.
  intros Hrun. pose proof Hrun as [(it0 & H0 & Hw0 & _) _ _ _].
  induction i as [|i IH]; intros it Hi.
  - rewrite H0 in Hi. injection Hi as <-. rewrite Hw0. simpl.
    by rewrite app_nil_r.
  - destruct (its !! i) as [a|] eqn:Ha; cycle 1.
    { apply lookup_ge_None in Ha. apply lookup_lt_Some in Hi. lia. }
    destruct (run_ok_next _ _ _ _ _ _ _ _ Hrun Ha Hi) as (Hw & Hok & _).
    rewrite (take_S_r _ _ _ Ha), written_snoc, Hw.
    rewrite (pass_ok_sent_ok a) by (by eapply run_ok_lookup || done).
    rewrite (IH a eq_refl), <- app_assoc. done.
Qed.

(** The calls of the first passes of a run, sent whole: the padding is sent
    once, before the first fragment. *)
Lemma run_ok_written_take w ptr left begin its :
  run_ok w ptr left begin its ->
  forall k, (1 <= k)%nat ->
    written (take k its) =
      trailer_calls (kBlockSize - block_offset_ w)
      ++ concat (fragment_calls <$> take k its).
Proof.
  intros Hrun k Hk. pose proof Hrun as [(it0 & H0 & Hw0 & _) _ _ _].
  destruct its as [|it rest]; [done|]. simpl in H0. injection H0 as ->.
  assert (Hrest : Forall (fun b =>
            trailer_calls (kBlockSize - block_offset_ (it_writer0 b)) = [])
            rest).
  { apply Forall_lookup. intros j b Hb.
    destruct ((it0 :: rest) !! j) as [a|] eqn:Ha; cycle 1.
    { apply lookup_ge_None in Ha. apply lookup_lt_Some in Hb. simpl in Ha. lia. }
    by destruct (run_ok_next _ _ _ _ _ j a b Hrun Ha Hb) as (_ & _ & _ & ?). }
  destruct k as [|k]; [lia|]. rewrite firstn_cons.
  apply (Forall_take _ k) in Hrest.
  unfold written. rewrite !fmap_cons, !concat_cons. unfold sent_calls at 1.
  rewrite Hw0, <- app_assoc. do 2 f_equal.
  clear Hrun. induction Hrest as [|b l Hb _ IH]; [done|].
  rewrite !fmap_cons, !concat_cons. unfold sent_calls at 1.
  rewrite Hb, IH. done.
Qed.

Lemma run_ok_written w ptr left begin its :
  run_ok w ptr left begin its ->
  written its =
    trailer_calls (kBlockSize - block_offset_ w)
    ++ concat (fragment_calls <$> its).
Proof.
  intros Hrun. pose proof Hrun as [(it0 & H0 & _) _ _ _].
  apply lookup_lt_Some in H0.
  pose proof (run_ok_written_take _ _ _ _ _ Hrun (length its) ltac:(lia)) as H.
  by rewrite take_ge in H by lia.
Qed.

(** The whole of a call: the passes it makes, what it returns, and what it
    leaves in the file. *)
Lemma AddRecord_file fuel w slice :
  constructed w ->
  0 <= block_offset_ w <= kBlockSize ->
  Z.of_nat (length slice) < 2 ^ 64 ->
  (2 * length slice + 2 <= fuel)%nat ->
  exists its it n,
    AddRecord_trace fuel w slice = Some its /\
    run_ok w slice (Z.of_nat (length slice)) true its /\
    its !! pred (length its) = Some it /\
    AddRecord fuel w slice = Some (it_status it, it_writer it) /\
    (1 <= n <= 3)%nat /\
    dest_ (it_writer it) =
      dest_ w ++ trailer_calls (kBlockSize - block_offset_ w)
      ++ concat (fragment_calls <$> take (pred (length its)) its)
      ++ take n (fragment_calls it) /\
    it_status it = outcome (dest_ (it_writer it)) /\
    (ok (it_status it) = true ->
       n = 3%nat /\
       dest_ (it_writer it) = dest_ w ++ written its /\
       concat (it_payload <$> its) = slice).
Proof.
  intros Hc Hoff Hmax Hfuel.
  destruct (AddRecord_trace_spec fuel w slice Hc Hoff Hmax Hfuel)
    as (its & Htrace & Hrun).
  pose proof Hrun as [(it0 & H0 & Hw0 & _) _ _ (it & Hlast & _)].
  pose proof Hlast as Hi. rewrite last_lookup in Hi.
  pose proof (lookup_lt_Some _ _ _ Hi) as Hlt.
  pose proof (run_ok_lookup _ _ _ _ _ _ _ Hrun Hi) as Hp.
  destruct (pass_ok_sent it Hp) as (n & Hn & Hd & Hs & Hok3).
  assert (Hsplit : its = take (pred (length its)) its ++ [it]).
  { rewrite <- (take_drop (pred (length its)) its) at 1. f_equal.
    rewrite (drop_S _ _ _ Hi), drop_ge by lia. done. }
  exists its, it, n. split; [done|]. split; [done|]. split; [done|].
  split. { unfold AddRecord. rewrite Htrace. simpl. rewrite Hlast. done. }
  split; [done|]. split.
  { rewrite Hd, (run_ok_before _ _ _ _ _ Hrun _ _ Hi), <- !app_assoc.
    f_equal. fold (fragment_calls it).
    destruct (pred (length its)) as [|p] eqn:Ep.
    - rewrite H0 in Hi. injection Hi as <-. rewrite Hw0. done.
    - destruct (its !! p) as [a|] eqn:Ha; cycle 1.
      { apply lookup_ge_None in Ha. lia. }
      destruct (run_ok_next _ _ _ _ _ _ _ _ Hrun Ha Hi) as (_ & _ & _ & ->).
      rewrite (run_ok_written_take _ _ _ _ _ Hrun (S p)) by lia.
      rewrite <- app_assoc. done. }
  split; [done|].
  intros Hok. split; [by apply Hok3|]. split.
  - rewrite (pass_ok_sent_ok it Hp Hok).
    rewrite (run_ok_before _ _ _ _ _ Hrun _ _ Hi), <- app_assoc.
    rewrite <- written_snoc, <- Hsplit. done.
  - pose proof (run_ok_remaining _ _ _ _ _ Hrun _ _ Hi) as Hrem.
    destruct (run_ok_end _ _ _ _ _ _ _ Hrun Hi) as (Hend & _ & Hfin).
    assert (Hleft : it_left it = 0) by (apply Hend, Hfin; [lia | done]).
    destruct Hp.
    rewrite Hsplit at 1. rewrite fmap_app, concat_app. simpl.
    rewrite app_nil_r, pass_payload0, (take_ge (it_ptr0 it)) by lia.
    exact Hrem.
Qed.

(** *** The bytes the file holds *)

Lemma appended_bytes_app a b :
  appended_bytes (a ++ b) = appended_bytes a ++ appended_bytes b.
Proof. unfold appended_bytes. by rewrite fmap_app, concat_app. Qed.

Lemma appended_bytes_record t p :
  appended_bytes (record_calls t p) = fragment_bytes t p.
Proof.
  unfold appended_bytes, record_calls, fragment_bytes. simpl.
  by rewrite app_nil_r.
Qed.

(** On a file that accepts every call, the bytes it holds are the bytes of
    the appends. *)
Lemma all_accepted_bytes calls : forall before,
  all_accepted before calls ->
  accepted_bytes before calls = appended_bytes calls.
Proof.
  induction calls as [|c calls IH]; intros before Hall; [done|].
  pose proof (Hall 1%nat ltac:(simpl; lia)) as H1.
  change (take 1 (c :: calls)) with [c] in H1.
  simpl. rewrite H1, IH; [done|].
  intros k Hk. rewrite <- app_assoc. apply (Hall (S k)). simpl. lia.
Qed.

(** The status of the last call of a list the file accepts is ok. *)
Lemma all_accepted_last before calls :
  all_accepted before calls -> calls <> [] ->
  ok (outcome (before ++ calls)) = true.
Proof.
  intros Hall Hne. rewrite <- (take_ge calls (length calls)) at 1 by lia.
  apply Hall. destruct calls; [done|]. simpl. lia.
Qed.

(** The bytes of a run of whole fragments: the padding, and then each
    fragment, header and payload. *)
Lemma run_ok_written_bytes w ptr left begin its :
  run_ok w ptr left begin its ->
  appended_bytes (written its) =
    (if kBlockSize - block_offset_ w <? kHeaderSize
     then replicate (Z.to_nat (kBlockSize - block_offset_ w)) 0 else [])
    ++ concat ((fun it => fragment_bytes (it_type it) (it_payload it)) <$> its).
Proof.
  intros Hrun. rewrite (run_ok_written _ _ _ _ _ Hrun), appended_bytes_app.
  f_equal.
  - destruct (_ <? kHeaderSize) eqn:E.
    + apply Z.ltb_lt in E. by apply appended_bytes_trailer.
    + unfold trailer_calls. rewrite E, andb_false_r. done.
  - clear Hrun. induction its as [|it its IH]; [done|].
    rewrite !fmap_cons, !concat_cons. unfold fragment_calls at 1.
    rewrite appended_bytes_app, appended_bytes_record, IH. done.
Qed.

(** *** Reassembly, block filling and the file length *)

(** [X1]: an [AddRecord] call returns, and what it leaves in the file is,
    after what the file had received, the padding, the header, the payload and
    a flush of each fragment but the last, and the header of the last with,
    unless the file refused one of them, its payload and its flush.  The
    payloads, joined in the order they were sent, are a prefix of the record;
    when the call returns ok every fragment was sent whole and the payloads
    are the whole record, byte for byte. *)
Theorem AddRecord_reassembles fuel w slice :
  constructed w ->
  0 <= block_offset_ w <= kBlockSize ->
  Z.of_nat (length slice) < 2 ^ 64 ->
  (2 * length slice + 2 <= fuel)%nat ->
  exists its it n,
    AddRecord_trace fuel w slice = Some its /\
    last its = Some it /\
    AddRecord fuel w slice = Some (it_status it, it_writer it) /\
    (1 <= n <= 3)%nat /\
    dest_ (it_writer it) =
      dest_ w ++ trailer_calls (kBlockSize - block_offset_ w)
      ++ concat ((fun a => record_calls (it_type a) (it_payload a))
                   <$> take (pred (length its)) its)
      ++ take n (record_calls (it_type it) (it_payload it)) /\
    concat (it_payload <$> its) `prefix_of` slice /\
    (ok (it_status it) = true ->
       dest_ (it_writer it) =
         dest_ w ++ trailer_calls (kBlockSize - block_offset_ w)
         ++ concat ((fun a => record_calls (it_type a) (it_payload a))
                      <$> its) /\
       concat (it_payload <$> its) = slice).
Proof.
  intros Hc Hoff Hmax Hfuel.
  destruct (AddRecord_file fuel w slice Hc Hoff Hmax Hfuel)
    as (its & it & n & Htrace & Hrun & Hi & Hadd & Hn & Hd & _ & Hok).
  exists its, it, n. split; [done|].
  split; [by rewrite last_lookup|]. split; [done|]. split; [done|].
  split; [exact Hd|]. split.
  - pose proof (run_ok_remaining _ _ _ _ _ Hrun _ _ Hi) as Hrem.
    destruct (run_ok_lookup _ _ _ _ _ _ _ Hrun Hi).
    pose proof (lookup_lt_Some _ _ _ Hi) as Hlt.
    rewrite <- (take_drop (pred (length its)) its) at 1.
    rewrite (drop_S _ _ _ Hi), drop_ge by lia.
    rewrite fmap_app, concat_app. simpl. rewrite app_nil_r.
    rewrite pass_payload0. rewrite <- Hrem at 1.
    apply prefix_app, prefix_take.
  - intros Hs. destruct (Hok Hs) as (_ & Hw & Hall). split; [|done].
    rewrite Hw, (run_ok_written _ _ _ _ _ Hrun). done.
Qed.

(** [X2]: an [AddRecord] call returns, and a fragment of it that is followed
    by another was sent whole (padding if any, header, payload, flush) and
    fills its block to the last byte; the fragment after it starts from the
    writer it left, at offset 0 of the next block, with no padding sent in
    between: what the file receives next is the header of that fragment.  So
    only the first fragment of a record can start inside a block, and only
    the last can end inside one. *)
Theorem AddRecord_fills_blocks fuel w slice :
  constructed w ->
  0 <= block_offset_ w <= kBlockSize ->
  Z.of_nat (length slice) < 2 ^ 64 ->
  (2 * length slice + 2 <= fuel)%nat ->
  exists its,
    AddRecord_trace fuel w slice = Some its /\
    forall i a b, its !! i = Some a -> its !! S i = Some b ->
      it_end a = false /\
      it_length a = kBlockSize - it_offset a - kHeaderSize /\
      block_offset_ (it_writer a) = kBlockSize /\
      it_begin b = false /\
      it_dest b = dest_ (it_writer a) /\
      it_offset b = 0 /\
      it_offset a =
        (if kBlockSize - block_offset_ (it_writer0 a) <? kHeaderSize
         then 0 else block_offset_ (it_writer0 a)) /\
      Z.of_nat (length (it_payload a)) = it_length a /\
      ok (it_status a) = true /\
      dest_ (it_writer a) =
        dest_ (it_writer0 a)
        ++ trailer_calls (kBlockSize - block_offset_ (it_writer0 a))
        ++ record_calls (it_type a) (it_payload a) /\
      it_writer0 b = it_writer a /\
      block_offset_ (it_writer b)
        = kHeaderSize + Z.of_nat (length (it_payload b)) /\
      exists n, (1 <= n <= 3)%nat /\
        dest_ (it_writer b) =
          dest_ (it_writer a)
          ++ take n (record_calls (it_type b) (it_payload b)).
Proof.
  intros Hc Hoff Hmax Hfuel.
  destruct (AddRecord_trace_spec fuel w slice Hc Hoff Hmax Hfuel)
    as (its & Htrace & Hrun).
  exists its. split; [done|]. intros i a b Ha Hb.
  pose proof Hrun as [_ _ Hch _].
  destruct (Hch i a b Ha Hb) as (Hw & _ & _ & Hbegin & Hoka & Hpos).
  pose proof (run_ok_lookup _ _ _ _ _ _ _ Hrun Ha) as Hpa.
  pose proof (run_ok_lookup _ _ _ _ _ _ _ Hrun Hb) as Hpb.
  destruct (run_ok_next _ _ _ _ _ _ _ _ Hrun Ha Hb) as (_ & _ & Hfull & Htr).
  assert (Hlen : it_length a = kBlockSize - it_offset a - kHeaderSize).
  { destruct Hpa. lia. }
  assert (Hleftover : it_leftover b = 0).
  { destruct Hpb. rewrite pass_leftover0, Hw, Hfull. lia. }
  assert (Hoffb : it_offset b = 0).
  { destruct Hpb. rewrite pass_offset0, Hleftover. done. }
  split. { destruct Hpa. rewrite pass_end0. apply Z.eqb_neq. lia. }
  split; [done|]. split; [done|]. split; [done|].
  split. { destruct Hpb. rewrite pass_dest0, Hleftover, Hw. unfold trailer_calls.
           simpl. by rewrite app_nil_r. }
  split; [done|].
  split. { destruct Hpa. by rewrite pass_offset0, pass_leftover0. }
  split. { by destruct Hpa. }
  split; [done|].
  split. { apply (pass_ok_sent_ok a Hpa Hoka). }
  split; [done|].
  split. { destruct Hpb. rewrite pass_block_offset0, Hoffb. lia. }
  destruct (pass_ok_sent b Hpb) as (n & Hn & Hd & _).
  exists n. split; [done|]. rewrite Hd, Htr, Hw. done.
Qed.

(** The file keeps what the first pass of a call left it when the call
    returns. *)
Lemma run_ok_first_prefix w ptr left begin it its itn :
  run_ok w ptr left begin (it :: its) ->
  last (it :: its) = Some itn ->
  dest_ (it_writer it) `prefix_of` dest_ (it_writer itn).
Proof.
  intros Hrun Hlast. rewrite last_lookup in Hlast. simpl in Hlast.
  destruct its as [|b its].
  { simpl in Hlast. by injection Hlast as <-. }
  destruct (run_ok_next _ _ _ _ _ 0%nat it b Hrun eq_refl eq_refl)
    as (_ & Hok & _).
  pose proof (run_ok_lookup _ _ _ _ _ 0%nat it Hrun eq_refl) as Hp.
  pose proof (run_ok_lookup _ _ _ _ _ _ _ Hrun Hlast) as Hpn.
  pose proof Hrun as [(it0 & H0 & Hw0 & _) _ _ _].
  simpl in H0. injection H0 as <-.
  destruct (pass_ok_sent itn Hpn) as (n & _ & Hd & _).
  rewrite Hd, (run_ok_before _ _ _ _ _ Hrun _ _ Hlast).
  rewrite (pass_ok_sent_ok it Hp Hok), Hw0.
  simpl. unfold written. rewrite fmap_cons, concat_cons, <- !app_assoc.
  rewrite (app_assoc (dest_ w)). by apply prefix_app_r.
Qed.

(** [X3]: an [AddRecord] call returns, and the record is written as one
    [kFullType] fragment exactly when it fits in what is left of the block
    after the header (an empty record always does): the call then makes a
    single pass, and what it leaves in the file is the padding, if fewer than
    seven bytes were left in the block, and the header, the whole record and a
    flush, or the first of these three when the file refuses one.  A record
    that does not fit starts with a [kFirstType] fragment that carries as much
    of it as the block takes, and what the first pass sends stays at the head
    of what the call leaves in the file. *)
Theorem AddRecord_full_iff_fits fuel w slice :
  constructed w ->
  0 <= block_offset_ w <= kBlockSize ->
  Z.of_nat (length slice) < 2 ^ 64 ->
  (2 * length slice + 2 <= fuel)%nat ->
  let offset :=
    if kBlockSize - block_offset_ w <? kHeaderSize then 0 else block_offset_ w in
  let avail := kBlockSize - offset - kHeaderSize in
  exists it its s w' n,
    AddRecord_trace fuel w slice = Some (it :: its) /\
    AddRecord fuel w slice = Some (s, w') /\
    it_offset it = offset /\
    (1 <= n <= 3)%nat /\
    (ok (it_status it) = true -> n = 3%nat) /\
    dest_ (it_writer it) `prefix_of` dest_ w' /\
    (Z.of_nat (length slice) <= avail ->
       its = [] /\ it_type it = kFullType /\ it_payload it = slice /\
       block_offset_ (it_writer it)
         = offset + kHeaderSize + Z.of_nat (length slice) /\
       s = it_status it /\ w' = it_writer it /\
       dest_ w' =
         dest_ w ++ trailer_calls (kBlockSize - block_offset_ w)
         ++ take n (record_calls kFullType slice)) /\
    (avail < Z.of_nat (length slice) ->
       it_type it = kFirstType /\ it_length it = avail /\
       it_payload it = take (Z.to_nat avail) slice /\
       dest_ (it_writer it) =
         dest_ w ++ trailer_calls (kBlockSize - block_offset_ w)
         ++ take n (record_calls kFirstType (take (Z.to_nat avail) slice))).
Proof.
  intros Hc Hoff Hmax Hfuel offset avail.
  destruct (AddRecord_trace_spec fuel w slice Hc Hoff Hmax Hfuel)
    as (its0 & Htrace & Hrun).
  pose proof Hrun as [(it & H0 & Hw0 & Hp0 & Hl0 & Hb0) _ _ (itn & Hlast & _)].
  destruct its0 as [|it' its]; [done|]. simpl in H0. injection H0 as ->.
  pose proof (run_ok_lookup _ _ _ _ (it :: its) 0%nat it Hrun eq_refl) as Hp.
  destruct (pass_ok_sent it Hp) as (n & Hn & Hd & _ & Hn3).
  exists it, its, (it_status itn), (it_writer itn), n.
  split; [done|].
  split. { unfold AddRecord. rewrite Htrace. simpl in *. by rewrite Hlast. }
  pose proof (run_ok_first_prefix _ _ _ _ _ _ _ Hrun Hlast) as Hpre.
  unfold fragment_calls in Hd.
  destruct Hp.
  rewrite Hw0 in *. rewrite Hp0 in *. rewrite Hl0 in *. rewrite Hb0 in *.
  assert (Hoffset : it_offset it = offset).
  { rewrite pass_offset0, pass_leftover0. done. }
  split; [done|]. split; [done|]. split; [done|]. split; [done|].
  rewrite Hoffset in *. fold avail in pass_avail0. split.
  - intros Hfits.
    assert (Hlen : it_length it = Z.of_nat (length slice)) by lia.
    assert (Hend : it_end it = true).
    { rewrite pass_end0. apply Z.eqb_eq. lia. }
    destruct (run_ok_end _ _ _ _ _ 0%nat it Hrun eq_refl) as (_ & Hfin & _).
    specialize (Hfin Hend). simpl in Hfin.
    assert (Hits : its = []) by (by destruct its).
    subst its. simpl in Hlast. injection Hlast as <-.
    assert (Htype : it_type it = kFullType) by (by rewrite pass_type0, Hend).
    assert (Hpay : it_payload it = slice).
    { rewrite pass_payload0, Hlen. apply take_ge. lia. }
    split; [done|]. split; [done|]. split; [done|]. split; [lia|].
    split; [done|]. split; [done|].
    rewrite Hd, Htype, Hpay. done.
  - intros Hbig.
    assert (Hlen : it_length it = avail) by lia.
    assert (Htype : it_type it = kFirstType).
    { rewrite pass_type0, pass_end0.
      replace (_ =? _) with false by (symmetry; apply Z.eqb_neq; lia). done. }
    assert (Hpay : it_payload it = take (Z.to_nat avail) slice).
    { by rewrite pass_payload0, Hlen. }
    split; [done|]. split; [done|]. split; [done|].
    rewrite Hd, Htype, Hpay. done.
Qed.

(** [X4]: with exactly [kHeaderSize] bytes left in the block, an [AddRecord]
    call of a record that is not empty starts with a [kFirstType] fragment
    that carries no byte: the first thing the file receives is its header,
    which says length 0 and type 2, without padding before it, and then, when
    the file accepts the header, an empty payload and a flush; the fragment
    fills the block.  When the file accepts all three the record goes on from
    its first byte at offset 0 of the next block, and what the file receives
    next is the header of that fragment. *)
Theorem AddRecord_header_only_fragment fuel w slice :
  constructed w ->
  block_offset_ w = kBlockSize - kHeaderSize ->
  slice <> [] ->
  Z.of_nat (length slice) < 2 ^ 64 ->
  (2 * length slice + 2 <= fuel)%nat ->
  exists it its n,
    AddRecord_trace fuel w slice = Some (it :: its) /\
    it_dest it = dest_ w /\
    it_offset it = kBlockSize - kHeaderSize /\
    it_type it = kFirstType /\
    it_payload it = [] /\
    block_offset_ (it_writer it) = kBlockSize /\
    (1 <= n <= 3)%nat /\
    dest_ (it_writer it) =
      dest_ w
      ++ take n [CallAppend
                   (EncodeFixed32 (Mask (Extend (Value [2]) [])) ++ [0; 0; 2]);
                 CallAppend []; CallFlush] /\
    (exists s w', AddRecord fuel w slice = Some (s, w') /\
                  dest_ (it_writer it) `prefix_of` dest_ w') /\
    (ok (it_status it) = true ->
       n = 3%nat /\
       exists b m, its !! 0%nat = Some b /\ it_offset b = 0 /\
                   it_ptr0 b = slice /\
                   it_writer0 b = it_writer it /\
                   it_payload b =
                     take (Z.to_nat (kBlockSize - kHeaderSize)) slice /\
                   block_offset_ (it_writer b)
                     = kHeaderSize + Z.of_nat (length (it_payload b)) /\
                   (1 <= m <= 3)%nat /\
                   dest_ (it_writer b) =
                     dest_ (it_writer it)
                     ++ take m (record_calls (it_type b) (it_payload b))).
Proof.
  intros Hc Hoff Hne Hmax Hfuel.
  assert (Hrange : 0 <= block_offset_ w <= kBlockSize).
  { rewrite Hoff. unfold kBlockSize, kHeaderSize. lia. }
  destruct (AddRecord_trace_spec fuel w slice Hc Hrange Hmax Hfuel)
    as (its0 & Htrace & Hrun).
  pose proof Hrun as [(it & H0 & Hw0 & Hp0 & Hl0 & Hb0) _ Hch (itn & Hn & Hstop)].
  destruct its0 as [|it' its]; [done|]. simpl in H0. injection H0 as ->.
  pose proof (run_ok_lookup _ _ _ _ (it :: its) 0%nat it Hrun eq_refl) as Hp.
  destruct (pass_ok_sent it Hp) as (n & Hn13 & Hd & _ & Hn3).
  exists it, its, n. split; [done|].
  pose proof (run_ok_first_prefix _ _ _ _ _ _ _ Hrun Hn) as Hpre.
  unfold fragment_calls in Hd.
  destruct Hp.
  rewrite Hw0 in *. rewrite Hp0 in *. rewrite Hl0 in *. rewrite Hb0 in *.
  assert (Hlen : 0 < Z.of_nat (length slice)).
  { destruct slice; [done|]. simpl. lia. }
  assert (Hleftover : it_leftover it = kHeaderSize) by lia.
  assert (Hoffset : it_offset it = kBlockSize - kHeaderSize).
  { rewrite pass_offset0, Hleftover, Z.ltb_irrefl. done. }
  assert (Hlength : it_length it = 0) by lia.
  assert (Htype : it_type it = kFirstType).
  { rewrite pass_type0, pass_end0, Hlength.
    replace (_ =? _) with false by (symmetry; apply Z.eqb_neq; lia). done. }
  assert (Hpay : it_payload it = []) by (by rewrite pass_payload0, Hlength).
  split.
  { rewrite pass_dest0, Hleftover. unfold trailer_calls.
    rewrite Z.ltb_irrefl, andb_false_r. by rewrite app_nil_r. }
  split; [done|]. split; [done|]. split; [done|].
  split; [lia|]. split; [done|].
  split.
  { rewrite Hd, Htype, Hpay, Hoff.
    replace (kBlockSize - (kBlockSize - kHeaderSize)) with kHeaderSize by lia.
    done. }
  split.
  { exists (it_status itn), (it_writer itn). split; [|done].
    unfold AddRecord. rewrite Htrace. simpl in *. by rewrite Hn. }
  intros Hok. split; [by apply Hn3|].
  destruct its as [|b its].
  { simpl in Hn. injection Hn as <-. rewrite Hok in Hstop. simpl in Hstop.
    apply Z.ltb_ge in Hstop. lia. }
  destruct (Hch 0%nat it b eq_refl eq_refl) as (Hwb & Hpb & Hlb & _).
  destruct (run_ok_next _ _ _ _ _ 0%nat it b Hrun eq_refl eq_refl)
    as (_ & _ & _ & Htr).
  pose proof (run_ok_lookup _ _ _ _ (it :: b :: its) 1%nat b Hrun eq_refl) as Hp.
  destruct (pass_ok_sent b Hp) as (m & Hm & Hdb & _).
  exists b, m. split; [done|].
  destruct Hp.
  assert (Hoffb : it_offset b = 0).
  { rewrite pass_offset1, pass_leftover1, Hwb, pass_block_offset0.
    replace (_ <? _) with true; [done|].
    symmetry. apply Z.ltb_lt. unfold kHeaderSize in *. lia. }
  assert (Hptrb : it_ptr0 b = slice) by (by rewrite Hpb, pass_ptr0, Hlength).
  split; [done|]. split; [done|]. split; [done|].
  split.
  { rewrite pass_payload1, Hptrb.
    destruct (Z.le_gt_cases (it_left0 b) (it_avail b)) as [Hle|Hgt].
    - rewrite !take_ge; [done | |];
        rewrite Hlb, pass_left0, Hlength in *; lia.
    - f_equal. lia. }
  split; [lia|]. split; [done|].
  rewrite Hdb, Htr, Hwb. done.
Qed.

(** The bytes one pass that ended ok sent to the file. *)
Lemma pass_ok_bytes it :
  pass_ok it ->
  block_offset_ (it_writer0 it) <= kBlockSize ->
  ok (it_status it) = true ->
  exists calls,
    dest_ (it_writer it) = dest_ (it_writer0 it) ++ calls /\
    Z.of_nat (length (appended_bytes calls)) =
      (if it_leftover it <? kHeaderSize then it_leftover it else 0)
      + kHeaderSize + it_length it.
Proof.
  intros [] Hle Hok.
  destruct pass_calls0 as (n & Hn & Hd & _ & _ & Hfail).
  assert (n = 3%nat) as ->.
  { destruct (decide (n = 3%nat)); [done|]. rewrite Hfail in Hok by lia. done. }
  exists (trailer_calls (it_leftover it)
            ++ record_calls (it_type it) (it_payload it)).
  split.
  { rewrite Hd, pass_dest0, <- app_assoc. done. }
  unfold appended_bytes. rewrite fmap_app, concat_app, length_app.
  fold (appended_bytes (trailer_calls (it_leftover it))).
  assert (Htrailer : Z.of_nat (length (appended_bytes
                                         (trailer_calls (it_leftover it)))) =
                     if it_leftover it <? kHeaderSize then it_leftover it else 0).
  { destruct (it_leftover it <? kHeaderSize) eqn:E.
    - apply Z.ltb_lt in E. rewrite appended_bytes_trailer by done.
      rewrite length_replicate. lia.
    - unfold trailer_calls. rewrite E, andb_false_r. done. }
  simpl. rewrite length_app. simpl.
  unfold kHeaderSize in *. lia.
Qed.

(** While the calls succeed, the block offset follows the length of the
    file. *)
Lemma run_ok_bytes w ptr left begin its :
  run_ok w ptr left begin its ->
  block_offset_ w <= kBlockSize ->
  forall i it, its !! i = Some it -> ok (it_status it) = true ->
    exists calls,
      dest_ (it_writer it) = dest_ w ++ calls /\
      (block_offset_ w + Z.of_nat (length (appended_bytes calls)))
        mod kBlockSize = block_offset_ (it_writer it) mod kBlockSize.
Proof.
  intros Hrun Hle.
  pose proof Hrun as [(it0 & H0 & Hw0 & _) _ Hch _].
  assert (Hstep : forall it, pass_ok it ->
            block_offset_ (it_writer0 it) <= kBlockSize ->
            ok (it_status it) = true ->
            exists calls,
              dest_ (it_writer it) = dest_ (it_writer0 it) ++ calls /\
              (block_offset_ (it_writer0 it)
                 + Z.of_nat (length (appended_bytes calls))) mod kBlockSize
              = block_offset_ (it_writer it) mod kBlockSize).
  { intros it Hp Hle' Hok.
    destruct (pass_ok_bytes it Hp Hle' Hok) as (calls & Hd & Hlen).
    exists calls. split; [done|]. rewrite Hlen. destruct Hp.
    rewrite pass_block_offset0, pass_offset0.
    destruct (it_leftover it <? kHeaderSize).
    - replace (block_offset_ (it_writer0 it)
                 + (it_leftover it + kHeaderSize + it_length it))
        with (0 + kHeaderSize + it_length it + 1 * kBlockSize) by lia.
      apply Z_mod_plus_full.
    - f_equal. lia. }
  induction i as [|i IH]; intros it Hi Hok.
  - rewrite H0 in Hi. injection Hi as <-. rewrite <- Hw0.
    apply Hstep; [by eapply run_ok_lookup | by rewrite Hw0 | done].
  - destruct (its !! i) as [a|] eqn:Ha; cycle 1.
    { apply lookup_ge_None in Ha. apply lookup_lt_Some in Hi. lia. }
    destruct (Hch i a it Ha Hi) as (Hw & _ & _ & _ & Hoka & _).
    destruct (IH a eq_refl Hoka) as (c1 & Hd1 & Hm1).
    pose proof (run_ok_lookup _ _ _ _ _ _ _ Hrun Ha) as Hpa.
    destruct (Hstep it) as (c2 & Hd2 & Hm2);
      [by eapply run_ok_lookup | | done |].
    { rewrite Hw. destruct Hpa. lia. }
    exists (c1 ++ c2). split.
    { rewrite Hd2, Hw, Hd1, <- app_assoc. done. }
    unfold appended_bytes in *. rewrite fmap_app, concat_app, length_app.
    rewrite <- Hm2, Hw, Nat2Z.inj_add, Z.add_assoc.
    rewrite <- Z.add_mod_idemp_l, Hm1, Z.add_mod_idemp_l by done. done.
Qed.

(** [X5]: an [AddRecord] call returns, with a block offset in [0, 32768];
    and on a file that accepts every call it makes, it returns ok and the
    block offset has followed the file: the offset before the call plus the
    number of bytes the file took (padding, headers and payload) is, modulo
    the block size, the offset after it.  A writer that started at the length
    of its file modulo the block size therefore stays there while the file
    accepts what it is sent. *)
Theorem AddRecord_offset_tracks_length fuel w slice :
  constructed w ->
  0 <= block_offset_ w <= kBlockSize ->
  Z.of_nat (length slice) < 2 ^ 64 ->
  (2 * length slice + 2 <= fuel)%nat ->
  exists s w' calls,
    AddRecord fuel w slice = Some (s, w') /\
    dest_ w' = dest_ w ++ calls /\
    0 <= block_offset_ w' <= kBlockSize /\
    (all_accepted (dest_ w) calls ->
       ok s = true /\
       (block_offset_ w + Z.of_nat (length (accepted_bytes (dest_ w) calls)))
         mod kBlockSize
       = block_offset_ w' mod kBlockSize).
Proof.
  intros Hc Hoff Hmax Hfuel.
  destruct (AddRecord_file fuel w slice Hc Hoff Hmax Hfuel)
    as (its & it & n & Htrace & Hrun & Hi & Hadd & Hn & Hd & Hs & Hok).
  eexists _, _, _. split; [exact Hadd|]. split; [exact Hd|].
  split.
  { destruct (run_ok_lookup _ _ _ _ _ _ _ Hrun Hi).
    unfold kHeaderSize, kBlockSize in *. lia. }
  intros Hall.
  assert (Hoks : ok (it_status it) = true).
  { rewrite Hs, Hd. apply all_accepted_last; [done|].
    destruct n as [|n]; [lia|].
    intros E. apply (f_equal length) in E. rewrite !length_app in E.
    simpl in E. lia. }
  split; [done|].
  rewrite (all_accepted_bytes _ _ Hall).
  destruct (run_ok_bytes _ _ _ _ _ Hrun (proj2 Hoff) _ _ Hi Hoks)
    as (calls & Hd' & Hm).
  rewrite Hd in Hd'. apply app_inv_head in Hd'. rewrite Hd'. exact Hm.
Qed.

(** A writer at the end of a block and a writer at the start of the next one
    make the same pass, but for what the record of the pass says of where it
    started. *)
Lemma AddRecord_body_block_end dest crcs ptr left begin :
  let w := {| dest_ := dest; block_offset_ := kBlockSize; type_crc_ := crcs |} in
  let w0 := {| dest_ := dest; block_offset_ := 0; type_crc_ := crcs |} in
  match AddRecord_body w ptr left begin, AddRecord_body w0 ptr left begin with
  | Some a, Some b =>
      it_status a = it_status b /\ it_writer a = it_writer b /\
      it_ptr a = it_ptr b /\ it_left a = it_left b
  | None, None => True
  | _, _ => False
  end.
Proof.
  intros w w0. unfold AddRecord_body. simpl.
  destruct (EmitPhysicalRecord _ _ _ _) as [[s w2]|]; simpl; done.
Qed.

(** [X6]: a writer made by [Writer(dest, dest_length)] for a length that agrees
    with the block offset of a live writer modulo the block size behaves as
    the live writer does: the next [AddRecord] sends the same calls to the
    file, returns the same status and leaves the same writer.  The one case
    where the two offsets differ is a live writer at the very end of a block,
    where the resumed one is at 0. *)
Theorem Writer_resume_equivalent fuel w dest_length slice :
  constructed w ->
  0 <= block_offset_ w <= kBlockSize ->
  0 <= dest_length < 2 ^ 64 ->
  dest_length mod kBlockSize = block_offset_ w mod kBlockSize ->
  AddRecord fuel (Writer_resume (dest_ w) dest_length) slice
    = AddRecord fuel w slice.
Proof.
  intros Hc Hoff Hlen Hmod.
  assert (Hr : Writer_resume (dest_ w) dest_length =
               {| dest_ := dest_ w;
                  block_offset_ := block_offset_ w mod kBlockSize;
                  type_crc_ := type_crc_ w |}).
  { unfold Writer_resume. rewrite Hc.
    pose proof (Writer_resume_block_offset (dest_ w) dest_length Hlen) as H.
    unfold Writer_resume in H. simpl in H. rewrite H, Hmod. done. }
  rewrite Hr.
  destruct (decide (block_offset_ w = kBlockSize)) as [E|E].
  - destruct w as [dest off crcs]. simpl in *. subst off.
    rewrite Z_mod_same_full.
    unfold AddRecord, AddRecord_trace. destruct fuel as [|fuel]; [done|].
    simpl.
    pose proof (AddRecord_body_block_end dest crcs slice
                  (Z.of_nat (length slice)) true) as H.
    simpl in H.
    destruct (AddRecord_body {| dest_ := dest; block_offset_ := kBlockSize;
                                type_crc_ := crcs |} _ _ _) as [a|];
      destruct (AddRecord_body {| dest_ := dest; block_offset_ := 0;
                                  type_crc_ := crcs |} _ _ _) as [b|];
      try done.
    destruct H as (Hs & Hw & Hp & Hl). simpl.
    rewrite Hs, Hw, Hp, Hl.
    destruct (ok (it_status b) && (0 <? it_left b)); simpl.
    + destruct (AddRecord_loop fuel _ _ _ _) as [[|r rest]|]; simpl; try done.
      by rewrite Hs, Hw.
    + by rewrite Hs, Hw.
  - rewrite Z.mod_small by lia. by destruct w.
Qed.

(** The bytes the passes of a run sent to the file, up to a pass that ended
    ok: padding before the first fragment, and a header and a payload for each
    fragment. *)
Lemma run_ok_count w ptr left begin its :
  run_ok w ptr left begin its ->
  block_offset_ w <= kBlockSize ->
  forall i it, its !! i = Some it -> ok (it_status it) = true ->
    exists calls,
      dest_ (it_writer it) = dest_ w ++ calls /\
      Z.of_nat (length (appended_bytes calls)) =
        (if kBlockSize - block_offset_ w <? kHeaderSize
         then kBlockSize - block_offset_ w else 0)
        + kHeaderSize * Z.of_nat (S i)
        + Z.of_nat (length (concat (it_payload <$> take (S i) its))).
Proof.
  intros Hrun Hle.
  pose proof Hrun as [(it0 & H0 & Hw0 & _) _ Hch _].
  induction i as [|i IH]; intros it Hi Hok.
  - rewrite H0 in Hi. injection Hi as <-.
    pose proof (run_ok_lookup _ _ _ _ _ _ _ Hrun H0) as Hp.
    destruct (pass_ok_bytes it0 Hp ltac:(by rewrite Hw0) Hok)
      as (calls & Hd & Hlen).
    exists calls. rewrite <- Hw0. split; [done|]. rewrite Hlen.
    destruct its as [|it' its]; [done|]. simpl in H0. injection H0 as ->.
    simpl. rewrite app_nil_r. destruct Hp.
    rewrite pass_leftover0, <- pass_payload_length0. lia.
  - destruct (its !! i) as [a|] eqn:Ha; cycle 1.
    { apply lookup_ge_None in Ha. apply lookup_lt_Some in Hi. lia. }
    destruct (Hch i a it Ha Hi) as (Hw & _ & _ & _ & Hoka & Hposa).
    destruct (IH a eq_refl Hoka) as (c1 & Hd1 & Hl1).
    pose proof (run_ok_lookup _ _ _ _ _ _ _ Hrun Ha) as Hpa.
    pose proof (run_ok_lookup _ _ _ _ _ _ _ Hrun Hi) as Hp.
    assert (Hfull : block_offset_ (it_writer a) = kBlockSize).
    { destruct Hpa. lia. }
    destruct (pass_ok_bytes it Hp ltac:(rewrite Hw; lia) Hok)
      as (c2 & Hd2 & Hl2).
    exists (c1 ++ c2). split.
    { rewrite Hd2, Hw, Hd1, <- app_assoc. done. }
    unfold appended_bytes in *. rewrite fmap_app, concat_app, length_app.
    rewrite Nat2Z.inj_add, Hl1, Hl2.
    rewrite (take_S_r _ _ _ Hi), fmap_app, concat_app, length_app. simpl.
    rewrite app_nil_r. destruct Hp.
    rewrite pass_leftover0, Hw, Hfull, <- pass_payload_length0.
    replace (kBlockSize - kBlockSize <? kHeaderSize) with true by done.
    lia.
Qed.

(** [X23]: an [AddRecord] call returns, and on a file that accepts every call
    it makes, it returns ok and the bytes the file takes are exactly: the zero
    bytes that pad a block with fewer than seven bytes left, before the first
    fragment only; and then for each fragment its seven bytes of header and
    its payload.  The payloads are the record, so the file grows by the
    padding, seven bytes for each fragment, and the length of the record. *)
Theorem AddRecord_bytes_appended fuel w slice :
  constructed w ->
  0 <= block_offset_ w <= kBlockSize ->
  Z.of_nat (length slice) < 2 ^ 64 ->
  (2 * length slice + 2 <= fuel)%nat ->
  exists its s w' calls,
    AddRecord_trace fuel w slice = Some its /\
    AddRecord fuel w slice = Some (s, w') /\
    dest_ w' = dest_ w ++ calls /\
    (all_accepted (dest_ w) calls ->
       ok s = true /\
       accepted_bytes (dest_ w) calls =
         (if kBlockSize - block_offset_ w <? kHeaderSize
          then replicate (Z.to_nat (kBlockSize - block_offset_ w)) 0 else [])
         ++ concat ((fun it => fragment_bytes (it_type it) (it_payload it))
                      <$> its) /\
       concat (it_payload <$> its) = slice /\
       Z.of_nat (length (accepted_bytes (dest_ w) calls)) =
         (if kBlockSize - block_offset_ w <? kHeaderSize
          then kBlockSize - block_offset_ w else 0)
         + kHeaderSize * Z.of_nat (length its)
         + Z.of_nat (length slice)).
Proof.
  intros Hc Hoff Hmax Hfuel.
  destruct (AddRecord_file fuel w slice Hc Hoff Hmax Hfuel)
    as (its & it & n & Htrace & Hrun & Hi & Hadd & Hn & Hd & Hs & Hok).
  eexists its, _, _, _. split; [exact Htrace|]. split; [exact Hadd|].
  split; [exact Hd|].
  intros Hall.
  assert (Hoks : ok (it_status it) = true).
  { rewrite Hs, Hd. apply all_accepted_last; [done|].
    destruct n as [|n]; [lia|].
    intros E. apply (f_equal length) in E. rewrite !length_app in E.
    simpl in E. lia. }
  destruct (Hok Hoks) as (_ & Hw & Hcat).
  assert (Hcalls : trailer_calls (kBlockSize - block_offset_ w)
                   ++ concat (fragment_calls <$> take (pred (length its)) its)
                   ++ take n (fragment_calls it) = written its).
  { rewrite Hd in Hw. by apply app_inv_head in Hw. }
  split; [done|].
  rewrite (all_accepted_bytes _ _ Hall), Hcalls.
  split; [by apply (run_ok_written_bytes _ _ _ _ _ Hrun)|].
  split; [done|].
  pose proof (lookup_lt_Some _ _ _ Hi) as Hlt.
  destruct (run_ok_count _ _ _ _ _ Hrun (proj2 Hoff) _ _ Hi Hoks)
    as (calls & Hd' & Hlen).
  rewrite Hw in Hd'. apply app_inv_head in Hd'. rewrite Hd', Hlen.
  replace (S (pred (length its))) with (length its) by lia.
  rewrite take_ge by lia. by rewrite Hcat.
Qed.
End Proofs.

(** [C9]: when [EmitPhysicalRecord] returns a status that is not ok, the block
    offset has still been advanced by kHeaderSize + length: the new offset does
    not depend on what the file answered, so it is the one a run in which every
    call succeeds leaves; and nothing else of the writer is put back either. *)
Theorem EmitPhysicalRecord_offset_unconditional {Status : Type}
    {status_ok : StatusOk Status} (file file' : FileOutcome Status)
    {checksum : Checksum} w t ptr len s w1 :
  EmitPhysicalRecord (file := file) w t ptr len = Some (s, w1) ->
  ok s = false ->
  block_offset_ w1 = to_int (to_size_t (block_offset_ w + (kHeaderSize + len))) /\
  (0 <= block_offset_ w -> 0 <= len ->
   block_offset_ w + kHeaderSize + len <= kBlockSize ->
   block_offset_ w1 = block_offset_ w + kHeaderSize + len) /\
  (forall s' w2,
     EmitPhysicalRecord (file := file') w t ptr len = Some (s', w2) ->
     block_offset_ w2 = block_offset_ w1) /\
  type_crc_ w1 = type_crc_ w.
Proof.
  intros H Hs.
  assert (Hoff : forall (oc : FileOutcome Status) s0 w0,
            EmitPhysicalRecord (file := oc) w t ptr len = Some (s0, w0) ->
            block_offset_ w0 =
              to_int (to_size_t (block_offset_ w + (kHeaderSize + len))) /\
            type_crc_ w0 = type_crc_ w).
  { intros oc s0 w0 H0. unfold EmitPhysicalRecord in H0.
    destruct (fits_two_bytes len); [|done].
    destruct (fits_block (block_offset_ w) len); [|done].
    destruct (type_crc_at w t); [|done]. simpl in H0.
    unfold Append, Flush in H0.
    repeat match type of H0 with
           | context [ok ?x] => destruct (ok x)
           end; by injection H0 as <- <-. }
  destruct (Hoff _ _ _ H) as [H1 H2].
  split; [done|]. split; [|split; [|done]].
  - intros H0 Hl Hfit. rewrite H1.
    unfold kHeaderSize, kBlockSize in *.
    rewrite to_size_t_id by lia. rewrite to_int_id by lia. lia.
  - intros s' w2 H'. destruct (Hoff _ _ _ H') as [-> _]. done.
Qed.

(** The instances are on boolean statuses and CRC-32C. *)
#[local] Existing Instance crc32c_checksum.
#[local] Existing Instance ok_bool.

Lemma EmitPhysicalRecord_offset_unconditional_witness :
  exists s w1,
    EmitPhysicalRecord (file := always_fails)
      (Writer_new []) kFullType [97; 98] 2 = Some (s, w1) /\
    ok s = false /\
    length (dest_ w1) = 1%nat /\
    block_offset_ w1 = 9.
Proof.
  eexists _, _. split; [vm_compute; reflexivity|].
  split; [reflexivity|]. split; [reflexivity|].
  eapply (EmitPhysicalRecord_offset_unconditional always_fails always_ok
            (Writer_new []) kFullType [97; 98] 2);
    [vm_compute; reflexivity | reflexivity | vm_compute; discriminate
    | lia | vm_compute; discriminate].
Defined.

Lemma AddRecord_fragments_witness :
  let w := Writer_resume [] 32760 in
  constructed w /\
  block_offset_ w = 32760 /\
  exists its,
    AddRecord_trace (file := always_ok) 8 w
      [97; 98; 99] = Some its /\
    (1 <= length its)%nat.
Proof.
  split; [reflexivity|]. split; [reflexivity|].
  destruct (AddRecord_fragments (file := always_ok)
              8 (Writer_resume [] 32760) [97; 98; 99])
    as (its & Htrace & Hlen & _);
    [reflexivity | vm_compute; split; discriminate | reflexivity
    | simpl; lia |].
  exists its. split; [exact Htrace | exact Hlen].
Defined.

(** The run of the witness: a First fragment of one byte ends the block, and a
    Last fragment of two bytes starts the next. *)
Example AddRecord_fragments_example :
  map (fun it => (it_offset it, it_length it, it_type it))
    (default [] (AddRecord_trace (file := always_ok)
                   8 (Writer_resume [] 32760) [97; 98; 99]))
  = [(32760, 1, kFirstType); (0, 2, kLastType)].
Proof. vm_compute. reflexivity. Qed.

Lemma AddRecords_block_boundaries_witness :
  let w := Writer_resume [] 32765 in
  constructed w /\
  block_offset_ w = 32765 /\
  exists its w',
    AddRecords (file := always_ok) 8 w
      [[]; [97; 98]] = Some (its, w') /\
    Forall (fun it => it_offset it + 7 + it_length it <= 32768) its.
Proof.
  split; [reflexivity|]. split; [reflexivity|].
  destruct (AddRecords_block_boundaries (file := always_ok)
              8 (Writer_resume [] 32765)
              [[]; [97; 98]])
    as (its & w' & Hrun & Hall);
    [reflexivity | vm_compute; split; [discriminate | reflexivity]
    | repeat constructor; simpl; lia |].
  exists its, w'. split; [exact Hrun|].
  eapply Forall_impl; [exact Hall|].
  intros it H. apply H.
Defined.

(** The run of the witness: three zero bytes pad the block before the first
    fragment. *)
Example AddRecords_block_boundaries_example :
  match AddRecords (file := always_ok) 8 (Writer_resume [] 32765)
          [[]; [97; 98]] with
  | Some (its, _) => Some (map (fun it => (it_dest it, it_offset it)) its)
  | None => None
  end
  = Some [([CallAppend [0; 0; 0]], 0);
          ([CallAppend [0; 0; 0]; CallAppend [5; 43; 40; 67; 0; 0; 1];
            CallAppend []; CallFlush], 7)].
Proof. vm_compute. reflexivity. Qed.

Lemma AddRecord_assertions_hold_witness :
  exists its,
    AddRecord_trace (file := always_ok) 6
      (Writer_new []) [97; 98] = Some its /\
    Forall (fun it => 0 <= it_length it <= 32768 - 7 /\
                      fits_two_bytes (it_length it) = true /\
                      fits_block (it_offset it) (it_length it) = true) its.
Proof.
  destruct (AddRecord_assertions_hold (file := always_ok)
              6 (Writer_new []) [97; 98])
    as (its & Htrace & Hall);
    [apply reachable_new | reflexivity | simpl; lia |].
  exists its. split; [exact Htrace|].
  eapply Forall_impl; [exact Hall|].
  intros it H. split; [apply H|]. split; apply H.
Defined.

Lemma Writer_resume_continues_witness :
  let w := Writer_resume [] 40000 in
  block_offset_ w = 40000 mod 32768 /\
  exists it its,
    AddRecord_trace (file := always_ok) 6 w
      [97; 98] = Some (it :: its) /\
    it_leftover it = 32768 - 40000 mod 32768 /\
    (7 <= 32768 - 40000 mod 32768 ->
       it_offset it = 40000 mod 32768 /\ it_dest it = []).
Proof.
  apply (Writer_resume_continues (file := always_ok)
           6 [] 40000 [97; 98]);
    [lia | reflexivity | simpl; lia].
Defined.

Lemma EmitPhysicalRecord_checksum_witness :
  let w := Writer_new [] in
  let w' := {| dest_ := [CallAppend [164; 152; 68; 130; 2; 0; 1];
                         CallAppend [97; 98]; CallFlush];
               block_offset_ := 9;
               type_crc_ := InitTypeCrc |} in
  EmitPhysicalRecord (file := always_ok) w kFullType [97; 98] 2
    = Some (true, w') /\
  let p := take (Z.to_nat 2) [97; 98] in
  let tb := to_char (RecordType_value kFullType) in
  exists seed rest,
    type_crc_at w kFullType = Some seed /\
    seed = Value [tb] /\
    dest_ w' =
      dest_ w ++
      CallAppend (EncodeFixed32 (Mask (Extend seed p)) ++
                  [to_char (Z.land 2 0xff); to_char (Z.shiftr 2 8); tb])
      :: rest /\
    Mask (Extend seed p) = Mask (Value (tb :: p)).
Proof.
  intros w w'.
  assert (Hc : constructed w) by reflexivity.
  assert (He : EmitPhysicalRecord (file := always_ok) w kFullType [97; 98] 2
               = Some (true, w'))
    by (vm_compute; reflexivity).
  split; [exact He|].
  exact (EmitPhysicalRecord_checksum (file := always_ok) w kFullType [97; 98] 2
           true w' crc32c_streaming Hc He).
Defined.

Lemma AddRecord_record_failure_stops_witness :
  exists its s w',
    AddRecord_trace (file := always_fails) 8
      (Writer_new []) [97; 98] = Some its /\
    AddRecord (file := always_fails) 8
      (Writer_new []) [97; 98] = Some (s, w') /\
    forall i it, its !! i = Some it ->
      ok (it_status it) = false ->
      S i = length its /\ s = it_status it /\ w' = it_writer it.
Proof.
  destruct (AddRecord_record_failure_stops (file := always_fails)
              8 (Writer_new []) [97; 98])
    as (its & s & w' & Htrace & Hadd & Hall);
    [reflexivity | vm_compute; split; discriminate | reflexivity
    | simpl; lia |].
  exists its, s, w'. split; [exact Htrace|]. split; [exact Hadd|].
  intros i it Hi Hs. destruct (Hall i it Hi) as (_ & n & H).
  apply H. exact Hs.
Defined.

(** [C4] at a failing input: with three bytes left in the block, the padding
    is the first call of [AddRecord]; the file does not answer it ok, and the
    call goes on to send the header, the payload and a flush, and returns ok. *)
Example AddRecord_ignores_trailer_failure :
  ok (outcome (FileOutcome := first_call_fails) [CallAppend [0; 0; 0]]) = false /\
  option_map (fun r => (fst r, dest_ (snd r)))
    (AddRecord (file := first_call_fails) 8 (Writer_resume [] 32765) [97])
  = Some (true, [CallAppend [0; 0; 0];
                 CallAppend [181; 205; 11; 162; 1; 0; 1];
                 CallAppend [97]; CallFlush]).
Proof. split; vm_compute; reflexivity. Qed.


(** So the statement that every failure stops the call is false there. *)
Lemma every_failure_stops_counterexample :
  block_offset_ (Writer_resume [] 32765) = 32765 /\
  ~ every_failure_stops (file := first_call_fails) 8 (Writer_resume [] 32765) [97].
Proof.
  split; [reflexivity|]. intros H.
  assert (E : AddRecord (file := first_call_fails) 8 (Writer_resume [] 32765) [97]
              = Some (true,
                      {| dest_ := [CallAppend [0; 0; 0];
                                   CallAppend [181; 205; 11; 162; 1; 0; 1];
                                   CallAppend [97]; CallFlush];
                         block_offset_ := 8;
                         type_crc_ := InitTypeCrc |}))
    by (vm_compute; reflexivity).
  destruct (H _ _ [] (CallAppend [0; 0; 0]) E) as [Hd _].
  - eexists. reflexivity.
  - reflexivity.
  - discriminate Hd.
Qed.


(** *** Reassembly, block filling and the file length, at concrete inputs *)

(** The run used below: a writer eight bytes before the end of a block, so
    that a record of three bytes takes a First fragment of one byte and a
    Last fragment of two. *)
Lemma AddRecord_reassembles_witness :
  let w := Writer_resume [] 32760 in
  exists its it,
    AddRecord_trace (file := always_ok) 8 w [97; 98; 99] = Some its /\
    AddRecord (file := always_ok) 8 w [97; 98; 99]
      = Some (it_status it, it_writer it) /\
    dest_ (it_writer it) =
      dest_ w ++ trailer_calls (kBlockSize - block_offset_ w)
      ++ concat ((fun a => record_calls (it_type a) (it_payload a)) <$> its) /\
    concat (it_payload <$> its) = [97; 98; 99].
Proof.
  intros w.
  destruct (AddRecord_reassembles (file := always_ok) 8 w [97; 98; 99])
    as (its & it & n & Htrace & _ & Hadd & _ & _ & _ & Hok);
    [reflexivity | vm_compute; split; discriminate | reflexivity
    | simpl; lia |].
  exists its, it. split; [exact Htrace|]. split; [exact Hadd|].
  apply Hok.
  pose proof Hadd as E. vm_compute in E. injection E as E _.
  symmetry. exact E.
Defined.

(** What the file receives in that run. *)
Example AddRecord_reassembles_example :
  option_map (fun r => dest_ (snd r))
    (AddRecord (file := always_ok) 8 (Writer_resume [] 32760) [97; 98; 99])
  = Some (record_calls kFirstType [97] ++ record_calls kLastType [98; 99]).
Proof. vm_compute. reflexivity. Qed.

Lemma AddRecord_fills_blocks_witness :
  exists its a b,
    AddRecord_trace (file := always_ok) 8 (Writer_resume [] 32760) [97; 98; 99]
      = Some its /\
    its !! 0%nat = Some a /\ its !! 1%nat = Some b /\
    block_offset_ (it_writer a) = kBlockSize /\
    it_dest b = dest_ (it_writer a) /\
    it_offset b = 0 /\
    dest_ (it_writer a) =
      dest_ (it_writer0 a)
      ++ trailer_calls (kBlockSize - block_offset_ (it_writer0 a))
      ++ record_calls (it_type a) (it_payload a).
Proof.
  destruct (AddRecord_fills_blocks (file := always_ok) 8
              (Writer_resume [] 32760) [97; 98; 99])
    as (its & Htrace & H);
    [reflexivity | vm_compute; split; discriminate | reflexivity
    | simpl; lia |].
  assert (Hlen : length <$> AddRecord_trace (file := always_ok) 8
                              (Writer_resume [] 32760) [97; 98; 99]
                 = Some 2%nat) by (vm_compute; reflexivity).
  rewrite Htrace in Hlen. simpl in Hlen. injection Hlen as Hlen.
  destruct its as [|a [|b [|c its]]];
    [discriminate Hlen | discriminate Hlen | | discriminate Hlen].
  exists [a; b], a, b. split; [exact Htrace|].
  split; [reflexivity|]. split; [reflexivity|].
  destruct (H 0%nat a b eq_refl eq_refl)
    as (_ & _ & Hfull & _ & Hdest & Hoff & _ & _ & _ & Hsent & _).
  split; [exact Hfull|]. split; [exact Hdest|]. split; [exact Hoff|].
  exact Hsent.
Defined.

Lemma AddRecord_full_iff_fits_witness :
  exists it s w' n,
    AddRecord_trace (file := always_ok) 6 (Writer_new []) [97; 98] = Some [it] /\
    AddRecord (file := always_ok) 6 (Writer_new []) [97; 98] = Some (s, w') /\
    it_type it = kFullType /\ it_payload it = [97; 98] /\
    dest_ w' = take n (record_calls kFullType [97; 98]).
Proof.
  destruct (AddRecord_full_iff_fits (file := always_ok) 6 (Writer_new [])
              [97; 98])
    as (it & its & s & w' & n & Htrace & Hadd & _ & _ & _ & _ & Hfits & _);
    [reflexivity | vm_compute; split; discriminate | reflexivity
    | simpl; lia |].
  destruct Hfits as (-> & Htype & Hpayload & _ & _ & _ & Hd);
    [vm_compute; discriminate|].
  exists it, s, w', n. split; [exact Htrace|]. split; [exact Hadd|].
  split; [exact Htype|]. split; [exact Hpayload | exact Hd].
Defined.

(** What the file receives in that run. *)
Example AddRecord_full_iff_fits_example :
  option_map (fun r => dest_ (snd r))
    (AddRecord (file := always_ok) 6 (Writer_new []) [97; 98])
  = Some [CallAppend [164; 152; 68; 130; 2; 0; 1]; CallAppend [97; 98];
          CallFlush].
Proof. vm_compute. reflexivity. Qed.

Lemma AddRecord_header_only_fragment_witness :
  exists it its n,
    AddRecord_trace (file := always_ok) 8 (Writer_resume [] 32761) [97]
      = Some (it :: its) /\
    it_type it = kFirstType /\ it_payload it = [] /\
    block_offset_ (it_writer it) = kBlockSize /\
    dest_ (it_writer it) =
      take n [CallAppend
                (EncodeFixed32 (Mask (Extend (Value [2]) [])) ++ [0; 0; 2]);
              CallAppend []; CallFlush].
Proof.
  destruct (AddRecord_header_only_fragment (file := always_ok) 8
              (Writer_resume [] 32761) [97])
    as (it & its & n & Htrace & _ & _ & Htype & Hpayload & Hfull & _ & Hd & _);
    [reflexivity | reflexivity | discriminate | reflexivity | simpl; lia |].
  exists it, its, n. split; [exact Htrace|]. split; [exact Htype|].
  split; [exact Hpayload|]. split; [exact Hfull | exact Hd].
Defined.

(** The run of the witness: the header of the First fragment fills the block,
    and the byte follows in a Last fragment. *)
Example AddRecord_header_only_fragment_example :
  map (fun it => (it_offset it, it_length it, it_type it))
    (default [] (AddRecord_trace (file := always_ok)
                   8 (Writer_resume [] 32761) [97]))
  = [(32761, 0, kFirstType); (0, 1, kLastType)].
Proof. vm_compute. reflexivity. Qed.

Lemma AddRecord_offset_tracks_length_witness :
  exists s w' calls,
    AddRecord (file := always_ok) 8 (Writer_resume [] 32765) [97; 98]
      = Some (s, w') /\
    dest_ w' = [] ++ calls /\
    all_accepted (file := always_ok) [] calls /\
    ok s = true /\
    (32765 + Z.of_nat (length (accepted_bytes (file := always_ok) [] calls)))
      mod kBlockSize
    = block_offset_ w' mod kBlockSize.
Proof.
  destruct (AddRecord_offset_tracks_length (file := always_ok) 8
              (Writer_resume [] 32765) [97; 98])
    as (s & w' & calls & Hadd & Hd & _ & H);
    [reflexivity | vm_compute; split; discriminate | reflexivity
    | simpl; lia |].
  assert (Hall : all_accepted (file := always_ok) [] calls)
    by (intros k Hk; reflexivity).
  destruct (H Hall) as [Hs Hm].
  exists s, w', calls. split; [exact Hadd|]. split; [exact Hd|].
  split; [exact Hall|]. split; [exact Hs | exact Hm].
Defined.

(** The run of the witness: three bytes of padding, seven of header and two
    of payload take the offset from 32765 to 9. *)
Example AddRecord_offset_tracks_length_example :
  option_map (fun r => (accepted_bytes (file := always_ok) [] (dest_ (snd r)),
                        block_offset_ (snd r)))
    (AddRecord (file := always_ok) 8 (Writer_resume [] 32765) [97; 98])
  = Some ([0; 0; 0; 164; 152; 68; 130; 2; 0; 1; 97; 98], 9).
Proof. vm_compute. reflexivity. Qed.

Lemma Writer_resume_equivalent_witness :
  let w := {| dest_ := []; block_offset_ := 32768; type_crc_ := InitTypeCrc |} in
  AddRecord (file := always_ok) 8 (Writer_resume (dest_ w) 65536) [97]
    = AddRecord (file := always_ok) 8 w [97].
Proof.
  exact (Writer_resume_equivalent (file := always_ok) 8
           {| dest_ := []; block_offset_ := 32768; type_crc_ := InitTypeCrc |}
           65536 [97]
           eq_refl ltac:(vm_compute; split; discriminate)
           ltac:(lia) eq_refl).
Defined.

Lemma AddRecord_bytes_appended_witness :
  exists its s w' calls,
    AddRecord_trace (file := always_ok) 8 (Writer_resume [] 32765) [97; 98]
      = Some its /\
    AddRecord (file := always_ok) 8 (Writer_resume [] 32765) [97; 98]
      = Some (s, w') /\
    dest_ w' = [] ++ calls /\
    all_accepted (file := always_ok) [] calls /\
    accepted_bytes (file := always_ok) [] calls =
      replicate 3 0
      ++ concat ((fun it => fragment_bytes (it_type it) (it_payload it))
                   <$> its) /\
    concat (it_payload <$> its) = [97; 98].
Proof.
  destruct (AddRecord_bytes_appended (file := always_ok) 8
              (Writer_resume [] 32765) [97; 98])
    as (its & s & w' & calls & Htrace & Hadd & Hd & H);
    [reflexivity | vm_compute; split; discriminate | reflexivity
    | simpl; lia |].
  assert (Hall : all_accepted (file := always_ok) [] calls)
    by (intros k Hk; reflexivity).
  destruct (H Hall) as (_ & Hbytes & Hcat & _).
  exists its, s, w', calls. split; [exact Htrace|]. split; [exact Hadd|].
  split; [exact Hd|]. split; [exact Hall|]. split; [exact Hbytes | exact Hcat].
Defined.
End log_proofs.

(** ** The skip list *)

Module skiplist_proofs.

Import skiplist.

Section Proofs.

Context {Key : Type} {cmp : Comparator Key} {head_key : HeadKey Key}.
Context {Random : Type} {random : RandomSource Random}.

Implicit Types (mem : list (@Node Key)) (s : @SkipList Key Random).
Implicit Types (k : Key) (keys : list Key) (rnd : Random).

(** *** The comparator

    The specification asks for a total order with a three-way comparison.
    Two laws are enough: the sign of [compare_ b a] is opposite to that of
    [compare_ a b], and "not after" is transitive. *)
Hypothesis compare_antisym : forall a b, compare_ a b < 0 <-> 0 < compare_ b a.
Hypothesis compare_trans :
  forall a b c, compare_ a b <= 0 -> compare_ b c <= 0 -> compare_ a c <= 0.

Lemma compare_refl a : compare_ a a = 0.
Proof.
  pose proof (compare_antisym a a) as [H1 H2].
  destruct (Z.lt_trichotomy (compare_ a a) 0) as [H | [H | H]]; [|done|].
  - specialize (H1 H). lia.
  - specialize (H2 ltac:(lia)). lia.
Qed.

Lemma lt_irrefl a : ~ lt a a.
Proof. unfold lt. rewrite compare_refl. lia. Qed.

Lemma lt_trans a b c : lt a b -> lt b c -> lt a c.
Proof.
  unfold lt. intros Hab Hbc.
  destruct (Z_lt_ge_dec (compare_ a c) 0) as [|Hca]; [done|].
  assert (compare_ c a <= 0).
  { destruct (Z_le_gt_dec (compare_ c a) 0) as [|H]; [done|].
    assert (compare_ a c < 0) by (apply compare_antisym; lia). lia. }
  pose proof (compare_trans c a b ltac:(done) ltac:(lia)).
  apply compare_antisym in Hbc. lia.
Qed.

Lemma le_lt_trans a b c : compare_ a b <= 0 -> lt b c -> lt a c.
Proof.
  unfold lt. intros Hab Hbc.
  destruct (Z_lt_ge_dec (compare_ a c) 0) as [|Hca]; [done|].
  assert (compare_ c a <= 0).
  { destruct (Z_le_gt_dec (compare_ c a) 0) as [|H]; [done|].
    assert (compare_ a c < 0) by (apply compare_antisym; lia). lia. }
  pose proof (compare_trans c a b ltac:(done) ltac:(done)).
  apply compare_antisym in Hbc. lia.
Qed.

Lemma lt_le_trans a b c : lt a b -> compare_ b c <= 0 -> lt a c.
Proof.
  unfold lt. intros Hab Hbc.
  destruct (Z_lt_ge_dec (compare_ a c) 0) as [|Hca]; [done|].
  assert (compare_ c a <= 0).
  { destruct (Z_le_gt_dec (compare_ c a) 0) as [|H]; [done|].
    assert (compare_ a c < 0) by (apply compare_antisym; lia). lia. }
  pose proof (compare_trans b c a ltac:(done) ltac:(done)).
  apply compare_antisym in Hab. lia.
Qed.

(** Keys that do not compare equal are ordered one way or the other. *)
Lemma lt_total a b : compare_ a b <> 0 -> lt a b \/ lt b a.
Proof.
  unfold lt. intros H.
  destruct (Z.lt_trichotomy (compare_ a b) 0) as [? | [? | ?]]; [by left|done|].
  right. by apply compare_antisym.
Qed.

Lemma not_lt_le a b : ~ lt a b -> compare_ b a <= 0.
Proof.
  unfold lt. intros H.
  destruct (Z_le_gt_dec (compare_ b a) 0) as [|H']; [done|].
  exfalso. apply H. apply compare_antisym. lia.
Qed.

Lemma le_not_lt a b : compare_ a b <= 0 -> ~ lt b a.
Proof.
  unfold lt. intros H H'. apply compare_antisym in H'. lia.
Qed.

Lemma compare_eq_sym a b : compare_ a b = 0 -> compare_ b a = 0.
Proof.
  intros H.
  destruct (Z.lt_trichotomy (compare_ b a) 0) as [H' | [H' | H']]; [|done|].
  - apply compare_antisym in H'. lia.
  - assert (compare_ a b < 0) by (by apply compare_antisym). lia.
Qed.

(** *** Reading the arena *)

Lemma hgt_lt_length mem x l : (l < hgt mem x)%nat -> (x < length mem)%nat.
Proof.
  unfold hgt. intros H. destruct (mem !! x) eqn:E.
  - by apply lookup_lt_Some in E.
  - simpl in H. lia.
Qed.

Lemma link_Some_hgt mem x l y :
  link mem x l = Some y -> (l < hgt mem x)%nat.
Proof.
  unfold link, hgt. destruct (mem !! x) as [nd|]; simpl; [|done].
  destruct (next_ nd !! l) eqn:E; simpl; [|done].
  intros _. by apply lookup_lt_Some in E.
Qed.

Lemma Node_key_nkey mem x :
  (x < length mem)%nat -> Node_key mem x = Some (nkey mem x).
Proof.
  intros H. unfold nkey, Node_key.
  destruct (lookup_lt_is_Some_2 mem x H) as [nd ->]. done.
Qed.

Lemma Node_Next_link mem x l :
  0 <= l -> (Z.to_nat l < hgt mem x)%nat ->
  Node_Next mem x l = Some (link mem x (Z.to_nat l)).
Proof.
  intros Hl H. unfold Node_Next, link, hgt, array_get in *.
  replace (0 <=? l) with true by (symmetry; apply Z.leb_le; lia). simpl.
  destruct (mem !! x) as [nd|]; simpl in *; [|lia].
  replace (l <? Z.of_nat (length (next_ nd))) with true
    by (symmetry; apply Z.ltb_lt; lia).
  simpl. destruct (lookup_lt_is_Some_2 (next_ nd) (Z.to_nat l) H) as [y ->].
  done.
Qed.

Lemma Node_SetNext_spec mem x l v :
  0 <= l -> (Z.to_nat l < hgt mem x)%nat ->
  exists mem',
    Node_SetNext mem x l v = Some mem' /\
    length mem' = length mem /\
    (forall x', nkey mem' x' = nkey mem x') /\
    (forall x', hgt mem' x' = hgt mem x') /\
    (forall x' l', link mem' x' l' =
       if decide (x' = x /\ l' = Z.to_nat l) then v else link mem x' l').
Proof.
  intros Hl H. pose proof (hgt_lt_length _ _ _ H) as Hx.
  unfold Node_SetNext, array_set, hgt in *.
  replace (0 <=? l) with true by (symmetry; apply Z.leb_le; lia). simpl.
  destruct (mem !! x) as [nd|] eqn:E; simpl in *; [|lia].
  replace (l <? Z.of_nat (length (next_ nd))) with true
    by (symmetry; apply Z.ltb_lt; lia).
  simpl. eexists. split; [reflexivity|].
  split; [by rewrite length_insert|]. split; [|split].
  - intros x'. unfold nkey, Node_key.
    destruct (decide (x' = x)) as [->|Hne].
    + rewrite list_lookup_insert_eq by done. by rewrite E.
    + by rewrite list_lookup_insert_ne.
  - intros x'. destruct (decide (x' = x)) as [->|Hne].
    + rewrite list_lookup_insert_eq by done. rewrite E. simpl.
      by rewrite length_insert.
    + by rewrite list_lookup_insert_ne.
  - intros x' l'. unfold link. destruct (decide (x' = x)) as [->|Hne].
    + rewrite list_lookup_insert_eq by done. rewrite E. simpl.
      destruct (decide (l' = Z.to_nat l)) as [->|Hne'].
      * rewrite list_lookup_insert_eq by done. simpl.
        rewrite decide_True by done. done.
      * rewrite list_lookup_insert_ne by done.
        rewrite decide_False by (intros [_ ?]; done). done.
    + rewrite list_lookup_insert_ne by done.
      rewrite decide_False by (intros [? _]; done). done.
Qed.

(** *** The invariant of the list *)

Lemma inserted_lookup mem z :
  is_node mem z -> inserted mem !! pred z = Some (nkey mem z).
Proof.
  intros [Hz Hlen]. unfold inserted, nkey, Node_key.
  destruct mem as [|hd rest]; simpl in *; [lia|].
  destruct z as [|z]; [lia|]. simpl.
  rewrite list_lookup_fmap.
  destruct (lookup_lt_is_Some_2 rest z ltac:(lia)) as [nd ->]. done.
Qed.

Lemma elem_of_inserted mem k :
  k ∈ inserted mem <-> exists z, is_node mem z /\ nkey mem z = k.
Proof.
  split.
  - intros H. apply list_elem_of_lookup in H as [i Hi].
    unfold inserted in Hi. rewrite list_lookup_fmap in Hi.
    destruct (tail mem !! i) as [nd|] eqn:E; [|done].
    simpl in Hi. injection Hi as <-.
    exists (S i). destruct mem as [|hd rest]; simpl in *; [done|].
    split.
    + apply lookup_lt_Some in E. unfold is_node. simpl. lia.
    + unfold nkey, Node_key. simpl. by rewrite E.
  - intros (z & Hz & <-). apply list_elem_of_lookup.
    exists (pred z). by apply inserted_lookup.
Qed.

Lemma hgt_bound mem mh x :
  inv mem mh -> (x < length mem)%nat ->
  Z.of_nat (hgt mem x) <= kMaxHeight.
Proof.
  intros Hinv Hx. destruct (decide (x = head_)) as [->|Hne].
  - rewrite (inv_head_height _ _ Hinv). unfold kMaxHeight. lia.
  - destruct (inv_height _ _ Hinv x) as [_ H]; [unfold is_node, head_ in *; lia|].
    pose proof (inv_max_height _ _ Hinv). lia.
Qed.

(** *** Termination of the searches

    The rank of a node is the number of keys it comes before.  A search that
    follows a link moves to a node of smaller rank. *)
Definition beforeb (mem : list Node) (x : nat) (k : Key) : bool :=
  bool_decide (x = head_) || (compare_ (nkey mem x) k <? 0).

Lemma beforeb_before mem x k : beforeb mem x k = true <-> before mem x k.
Proof.
  unfold beforeb, before, lt.
  rewrite orb_true_iff, bool_decide_eq_true, Z.ltb_lt. done.
Qed.

Lemma filter_length_lt {A} (f g : A -> bool) (l : list A) :
  (forall a, a ∈ l -> f a = true -> g a = true) ->
  (exists a, a ∈ l /\ g a = true /\ f a = false) ->
  (length (List.filter f l) < length (List.filter g l))%nat.
Proof.
  assert (Hle : forall l : list A,
            (forall a, a ∈ l -> f a = true -> g a = true) ->
            (length (List.filter f l) <= length (List.filter g l))%nat).
  { clear l. induction l as [|a l IH]; intros Himp; simpl; [lia|].
    assert (IH' := IH (fun b Hb => Himp b (list_elem_of_further _ _ _ Hb))).
    destruct (f a) eqn:Ef.
    - rewrite (Himp a (list_elem_of_here _ _) Ef). simpl. lia.
    - destruct (g a); simpl; lia. }
  induction l as [|a l IH]; intros Himp (b & Hb & Hg & Hf).
  { by apply elem_of_nil in Hb. }
  assert (Himp' := fun b Hb => Himp b (list_elem_of_further _ _ _ Hb)).
  apply elem_of_cons in Hb as [-> | Hb]; simpl.
  - rewrite Hf, Hg. simpl. specialize (Hle l Himp'). lia.
  - specialize (IH Himp' (ex_intro _ b (conj Hb (conj Hg Hf)))).
    destruct (f a) eqn:Ef.
    + rewrite (Himp a (list_elem_of_here _ _) Ef). simpl. lia.
    + destruct (g a); simpl; lia.
Qed.

Lemma rank_link mem mh x l y :
  inv mem mh -> link mem x l = Some y -> (rank mem y < rank mem x)%nat.
Proof.
  intros Hinv Hl. destruct (inv_link _ _ Hinv x l y Hl) as (Hy & _ & Hlt).
  apply filter_length_lt.
  - intros a _. rewrite !beforeb_before. intros [Hy0 | Ha].
    + unfold is_node, head_ in *. lia.
    + destruct (decide (x = head_)) as [->|Hne]; [by left|].
      right. eapply lt_trans; [by apply Hlt | done].
  - exists (nkey mem y). split; [|split].
    + apply elem_of_inserted. by exists y.
    + apply beforeb_before.
      destruct (decide (x = head_)) as [->|Hne]; [by left|].
      right. by apply Hlt.
    + apply not_true_iff_false. rewrite beforeb_before. intros [Hy0 | Hlt'].
      * unfold is_node, head_ in *. lia.
      * by apply lt_irrefl in Hlt'.
Qed.

Lemma rank_le_inserted mem x : (rank mem x <= length (inserted mem))%nat.
Proof. unfold rank. apply List.filter_length_le. Qed.

(** *** [FindGreaterOrEqual] *)

Lemma FindGreaterOrEqual_loop_spec s k mh fuel :
  inv (nodes s) mh ->
  forall prev x level,
    0 <= level -> (Z.to_nat level < hgt (nodes s) x)%nat ->
    before (nodes s) x k ->
    Z.of_nat (rank (nodes s) x) + level < Z.of_nat fuel ->
    match prev with Some a => length a = Z.to_nat kMaxHeight | None => True end ->
    exists next p prev',
      FindGreaterOrEqual_loop fuel s k prev x level = Some (next, prev') /\
      pred_at (nodes s) k p 0 /\ link (nodes s) p 0 = next /\
      prev_result (nodes s) k (Z.to_nat level) prev prev'.
Proof.
  intros Hinv. set (mem := nodes s) in *.
  induction fuel as [|fuel IH]; intros prev x level Hl Hh Hb Hfuel Hprev; [lia|].
  simpl. fold mem.
  rewrite (Node_Next_link mem x level Hl Hh). simpl.
  pose proof (hgt_bound mem mh x Hinv (hgt_lt_length _ _ _ Hh)) as Hhb.
  unfold kMaxHeight in Hhb.
  assert (Hstop : forall nxt,
    link mem x (Z.to_nat level) = nxt ->
    (forall y, nxt = Some y -> ~ lt (nkey mem y) k) ->
    exists next p prev',
      (match prev with
       | Some a => array_set a level (Some x) ≫= (fun a => Some (Some a))
       | None => Some None
       end ≫= fun prev =>
         if level =? 0 then Some (nxt, prev)
         else FindGreaterOrEqual_loop fuel s k prev x (level - 1))
      = Some (next, prev') /\
      pred_at mem k p 0 /\ link mem p 0 = next /\
      prev_result mem k (Z.to_nat level) prev prev').
  { intros nxt Hnxt Hnlt.
    assert (Hpred : pred_at mem k x (Z.to_nat level)).
    { split; [done|]. split; [done|]. intros y Hy. apply Hnlt. congruence. }
    set (prev1 := match prev with
                  | Some a => Some (<[Z.to_nat level := Some x]> a)
                  | None => None
                  end).
    assert (Hprev1 : match prev with
       | Some a => array_set a level (Some x) ≫= (fun a => Some (Some a))
       | None => Some None
       end = Some prev1).
    { unfold prev1. destruct prev as [a|]; [|done]. unfold array_set.
      replace ((0 <=? level) && (level <? Z.of_nat (length a))) with true; [done|].
      symmetry. apply andb_true_iff. rewrite Z.leb_le, Z.ltb_lt.
      rewrite Hprev. unfold kMaxHeight. lia. }
    rewrite Hprev1. simpl.
    destruct (level =? 0) eqn:Elevel.
    - apply Z.eqb_eq in Elevel. subst level. simpl in *.
      exists nxt, x, prev1. split; [done|]. split; [done|]. split; [done|].
      unfold prev1. destruct prev as [a|]; simpl; [|done].
      split; [by rewrite length_insert|]. split.
      + intros l Hle. assert (l = 0%nat) as -> by lia. exists x.
        split; [|done]. apply list_lookup_insert_eq. rewrite Hprev.
        unfold kMaxHeight. lia.
      + intros l Hlt. apply list_lookup_insert_ne. lia.
    - apply Z.eqb_neq in Elevel.
      destruct (IH prev1 x (level - 1)) as (next & p & prev' & Hrun & Hp & Hlink & Hres);
        [lia | lia | done | lia | |].
      { unfold prev1. destruct prev as [a|]; [|done]. by rewrite length_insert. }
      exists next, p, prev'. split; [done|]. split; [done|]. split; [done|].
      unfold prev1 in Hres. destruct prev as [a|], prev' as [a'|]; simpl in *;
        try done.
      destruct Hres as (Hlen & Hlow & Hhigh).
      rewrite length_insert in Hlen. split; [done|]. split.
      + intros l Hle. destruct (decide (l = Z.to_nat level)) as [->|Hne].
        * exists x. split; [|done]. rewrite Hhigh by lia.
          apply list_lookup_insert_eq. rewrite Hprev. unfold kMaxHeight. lia.
        * apply Hlow. lia.
      + intros l Hlt. rewrite Hhigh by lia. apply list_lookup_insert_ne. lia. }
  destruct (link mem x (Z.to_nat level)) as [y|] eqn:Enext.
  - destruct (inv_link _ _ Hinv _ _ _ Enext) as (Hy & Hhy & _).
    unfold KeyIsAfterNode. fold mem.
    rewrite Node_key_nkey by (unfold is_node in Hy; lia). simpl.
    destruct (compare_ (nkey mem y) k <? 0) eqn:Ecmp.
    + (* Keep searching in this list *)
      apply Z.ltb_lt in Ecmp.
      pose proof (rank_link _ _ _ _ _ Hinv Enext).
      apply IH; try done; [by right | lia].
    + apply Z.ltb_ge in Ecmp. apply Hstop; [done|].
      intros y' Hy'. injection Hy' as <-. unfold lt. lia.
  - simpl. apply Hstop; [done|]. intros y' Hy'. done.
Qed.

(** The fuel that is enough for a search from the head. *)
Lemma search_fuel mem mh fuel :
  inv mem mh ->
  (length (inserted mem) + Z.to_nat kMaxHeight <= fuel)%nat ->
  0 <= mh - 1 /\ (Z.to_nat (mh - 1) < hgt mem head_)%nat /\
  Z.of_nat (rank mem head_) + (mh - 1) < Z.of_nat fuel.
Proof.
  intros Hinv Hfuel. pose proof (inv_max_height _ _ Hinv).
  rewrite (inv_head_height _ _ Hinv).
  pose proof (rank_le_inserted mem head_). unfold kMaxHeight in *. lia.
Qed.

Lemma pred_at_first_ge mem mh k p :
  inv mem mh -> pred_at mem k p 0 -> first_ge mem k (link mem p 0).
Proof.
  intros Hinv (Hh & Hb & Hnlt). split.
  - intros y Hy. split; [|by apply Hnlt].
    by destruct (inv_link _ _ Hinv _ _ _ Hy).
  - intros z Hz Hge.
    apply (inv_no_skip _ _ Hinv p 0%nat z); try done.
    + by destruct (inv_height _ _ Hinv z Hz).
    + destruct Hb as [-> | Hlt]; [by left|]. right.
      eapply lt_le_trans; [done|]. by apply not_lt_le.
Qed.

Lemma FindGreaterOrEqual_spec s k fuel prev :
  inv (nodes s) (max_height_ s) ->
  (length (inserted (nodes s)) + Z.to_nat kMaxHeight <= fuel)%nat ->
  match prev with Some a => length a = Z.to_nat kMaxHeight | None => True end ->
  exists next prev',
    FindGreaterOrEqual fuel s k prev = Some (next, prev') /\
    first_ge (nodes s) k next /\
    prev_result (nodes s) k (Z.to_nat (max_height_ s - 1)) prev prev'.
Proof.
  intros Hinv Hfuel Hprev.
  destruct (search_fuel _ _ _ Hinv Hfuel) as (H0 & Hh & Hr).
  destruct (FindGreaterOrEqual_loop_spec s k _ fuel Hinv prev head_
              (max_height_ s - 1))
    as (next & p & prev' & Hrun & Hp & Hlink & Hres); try done; [by left|].
  exists next, prev'. split; [done|]. split; [|done].
  rewrite <- Hlink. by eapply pred_at_first_ge.
Qed.

(** *** [FindLessThan] and [FindLast] *)

Lemma FindLessThan_loop_spec s k mh fuel :
  inv (nodes s) mh ->
  forall x level,
    0 <= level -> (Z.to_nat level < hgt (nodes s) x)%nat ->
    before (nodes s) x k ->
    Z.of_nat (rank (nodes s) x) + level < Z.of_nat fuel ->
    exists p,
      FindLessThan_loop fuel s k x level = Some p /\
      pred_at (nodes s) k p 0.
Proof.
  intros Hinv. set (mem := nodes s) in *.
  induction fuel as [|fuel IH]; intros x level Hl Hh Hb Hfuel; [lia|].
  simpl. fold mem.
  rewrite Node_key_nkey by (by eapply hgt_lt_length). simpl.
  replace (bool_decide (x = head_) || (compare_ (nkey mem x) k <? 0))
    with true; cycle 1.
  { symmetry. apply orb_true_iff. rewrite bool_decide_eq_true, Z.ltb_lt.
    exact Hb. }
  rewrite bind_assert_true.
  rewrite (Node_Next_link mem x level Hl Hh). simpl.
  assert (Hstop : forall nxt,
    link mem x (Z.to_nat level) = nxt ->
    (forall y, nxt = Some y -> ~ lt (nkey mem y) k) ->
    exists p,
      (if level =? 0 then Some x
       else FindLessThan_loop fuel s k x (level - 1)) = Some p /\
      pred_at mem k p 0).
  { intros nxt Hnxt Hnlt.
    destruct (level =? 0) eqn:Elevel.
    - apply Z.eqb_eq in Elevel. subst level.
      change (Z.to_nat 0) with 0%nat in *. exists x. split; [done|].
      split; [done|]. split; [done|]. intros y Hy. apply Hnlt. congruence.
    - apply Z.eqb_neq in Elevel. apply IH; [lia | lia | done | lia]. }
  destruct (link mem x (Z.to_nat level)) as [y|] eqn:Enext.
  - destruct (inv_link _ _ Hinv _ _ _ Enext) as (Hy & Hhy & _).
    rewrite Node_key_nkey by (unfold is_node in Hy; lia). simpl.
    destruct (0 <=? compare_ (nkey mem y) k) eqn:Ecmp.
    + apply Z.leb_le in Ecmp. apply (Hstop (Some y)); [done|].
      intros y' Hy'. injection Hy' as <-. unfold lt. lia.
    + apply Z.leb_gt in Ecmp.
      pose proof (rank_link _ _ _ _ _ Hinv Enext).
      apply IH; try done; [by right | lia].
  - simpl. apply (Hstop None); done.
Qed.

Lemma pred_at_last_lt mem mh k p :
  inv mem mh -> pred_at mem k p 0 -> last_lt mem k p.
Proof.
  intros Hinv (Hh & Hb & Hnlt).
  split; [by eapply hgt_lt_length|]. split; [done|].
  intros z Hz Hlt.
  assert (Hnb : ~ before mem p (nkey mem z)).
  { intros Hbz.
    destruct (inv_no_skip _ _ Hinv p 0%nat z) as (y & Hy & Hle); try done.
    - by destruct (inv_height _ _ Hinv z Hz).
    - apply (Hnlt y Hy). by eapply le_lt_trans. }
  split.
  - intros ->. apply Hnb. by left.
  - apply not_lt_le. intros Hlt'. apply Hnb. by right.
Qed.

Lemma FindLessThan_spec s k fuel :
  inv (nodes s) (max_height_ s) ->
  (length (inserted (nodes s)) + Z.to_nat kMaxHeight <= fuel)%nat ->
  exists p, FindLessThan fuel s k = Some p /\ last_lt (nodes s) k p.
Proof.
  intros Hinv Hfuel.
  destruct (search_fuel _ _ _ Hinv Hfuel) as (H0 & Hh & Hr).
  destruct (FindLessThan_loop_spec s k _ fuel Hinv head_ (max_height_ s - 1))
    as (p & Hrun & Hp); try done; [by left|].
  exists p. split; [done|]. by eapply pred_at_last_lt.
Qed.

Lemma FindLast_loop_spec s mh fuel :
  inv (nodes s) mh ->
  forall x level,
    0 <= level -> (Z.to_nat level < hgt (nodes s) x)%nat ->
    Z.of_nat (rank (nodes s) x) + level < Z.of_nat fuel ->
    exists p,
      FindLast_loop fuel s x level = Some p /\
      (0 < hgt (nodes s) p)%nat /\ link (nodes s) p 0 = None.
Proof.
  intros Hinv. set (mem := nodes s) in *.
  induction fuel as [|fuel IH]; intros x level Hl Hh Hfuel; [lia|].
  simpl. fold mem.
  rewrite (Node_Next_link mem x level Hl Hh). simpl.
  destruct (link mem x (Z.to_nat level)) as [y|] eqn:Enext.
  - destruct (inv_link _ _ Hinv _ _ _ Enext) as (Hy & Hhy & _).
    pose proof (rank_link _ _ _ _ _ Hinv Enext).
    apply IH; try done. lia.
  - destruct (level =? 0) eqn:Elevel.
    + apply Z.eqb_eq in Elevel. subst level.
      change (Z.to_nat 0) with 0%nat in *. exists x. split; [done|].
      split; [lia | done].
    + apply Z.eqb_neq in Elevel. apply IH; lia.
Qed.

Lemma FindLast_spec s fuel :
  inv (nodes s) (max_height_ s) ->
  (length (inserted (nodes s)) + Z.to_nat kMaxHeight <= fuel)%nat ->
  exists p, FindLast fuel s = Some p /\ is_last (nodes s) p.
Proof.
  intros Hinv Hfuel.
  destruct (search_fuel _ _ _ Hinv Hfuel) as (H0 & Hh & Hr).
  destruct (FindLast_loop_spec s _ fuel Hinv head_ (max_height_ s - 1))
    as (p & Hrun & Hhp & Hlink); try done.
  exists p. split; [done|]. split; [by eapply hgt_lt_length|].
  intros z Hz.
  assert (Hnb : ~ before (nodes s) p (nkey (nodes s) z)).
  { intros Hbz.
    destruct (inv_no_skip _ _ Hinv p 0%nat z) as (y & Hy & _); try done.
    - by destruct (inv_height _ _ Hinv z Hz).
    - congruence. }
  split.
  - intros ->. apply Hnb. by left.
  - apply not_lt_le. intros Hlt'. apply Hnb. by right.
Qed.

(** *** [Insert] keeps the invariant

    The arena after [Insert] linked a new node of key [k] and height [h] in,
    described link by link: [pl l] is the predecessor of [k] at level [l]. *)
Record linked_in (mem mem' : list Node) (k : Key) (h : nat) (pl : nat -> nat)
    : Prop := mkLinkedIn {
  li_length : length mem' = S (length mem);
  li_key_old : forall x, (x < length mem)%nat -> nkey mem' x = nkey mem x;
  li_key_new : nkey mem' (length mem) = k;
  li_hgt_old : forall x, (x < length mem)%nat -> hgt mem' x = hgt mem x;
  li_hgt_new : hgt mem' (length mem) = h;
  li_link : forall x l,
    link mem' x l =
      if decide (x = length mem) then
        if decide (l < h)%nat then link mem (pl l) l else None
      else if decide ((l < h)%nat /\ x = pl l) then Some (length mem)
      else link mem x l
}.

Lemma linked_in_inv mem mh mem' k h pl :
  inv mem mh ->
  (forall z, is_node mem z -> compare_ k (nkey mem z) <> 0) ->
  (1 <= h)%nat -> Z.of_nat h <= kMaxHeight ->
  (forall l, (l < h)%nat -> pred_at mem k (pl l) l) ->
  linked_in mem mem' k h pl ->
  inv mem' (Z.max mh (Z.of_nat h)).
Proof.
  intros Hinv Hnew Hh1 Hh12 Hpl [Hlen Hko Hkn Hho Hhn Hlink].
  set (N := length mem) in *.
  pose proof (inv_head _ _ Hinv) as HN. fold N in HN.
  pose proof (inv_max_height _ _ Hinv) as Hmh.
  assert (Hnode : forall z, is_node mem' z <-> is_node mem z \/ z = N).
  { intros z. unfold is_node. fold N. rewrite Hlen. lia. }
  assert (Hplt : forall l, (l < h)%nat -> (pl l < N)%nat).
  { intros l Hl. destruct (Hpl l Hl) as (Hhp & _).
    by apply hgt_lt_length in Hhp. }
  (* keys and heights of the nodes, old and new *)
  assert (Hkey : forall z, is_node mem' z ->
            (is_node mem z /\ nkey mem' z = nkey mem z /\ hgt mem' z = hgt mem z)
            \/ (z = N /\ nkey mem' z = k /\ hgt mem' z = h)).
  { intros z Hz. apply Hnode in Hz as [Hz | ->].
    - left. split; [done|]. unfold is_node in Hz. fold N in Hz.
      split; [apply Hko | apply Hho]; lia.
    - right. done. }
  assert (Hbefore : forall x k', (x < N)%nat ->
            before mem' x k' <-> before mem x k').
  { intros x k' Hx. unfold before. by rewrite Hko. }
  (* the link of a predecessor does not lead before the new key *)
  assert (Hsucc : forall l y, (l < h)%nat -> link mem (pl l) l = Some y ->
            is_node mem y /\ (l < hgt mem y)%nat /\ lt k (nkey mem y)).
  { intros l y Hl Hy. destruct (Hpl l Hl) as (_ & _ & Hnlt).
    destruct (inv_link _ _ Hinv _ _ _ Hy) as (Hy1 & Hy2 & _).
    split; [done|]. split; [done|].
    destruct (lt_total k (nkey mem y) (Hnew y Hy1)) as [|Hlt]; [done|].
    by apply Hnlt in Hlt. }
  constructor.
  - lia.
  - rewrite Hho by done. apply (inv_head_height _ _ Hinv).
  - unfold kMaxHeight in *. lia.
  - intros z Hz. destruct (Hkey z Hz) as [(Hz' & _ & ->) | (-> & _ & ->)].
    + destruct (inv_height _ _ Hinv z Hz'). lia.
    + lia.
  - (* links *)
    intros x l y. rewrite Hlink.
    destruct (decide (x = N)) as [->|Hx].
    + destruct (decide (l < h)%nat) as [Hl|]; [|done]. intros Hy.
      destruct (Hsucc l y Hl Hy) as (Hy1 & Hy2 & Hy3).
      unfold is_node in Hy1. fold N in Hy1.
      split; [apply Hnode; by left|].
      rewrite (Hho y), (Hko y), Hkn by lia. done.
    + destruct (decide ((l < h)%nat /\ x = pl l)) as [[Hl ->]|Hnp].
      * intros [= <-]. split; [apply Hnode; by right|].
        rewrite Hhn, Hkn. split; [done|]. intros Hne.
        rewrite Hko by (by apply Hplt).
        destruct (Hpl l Hl) as (_ & [? | Hb] & _); done.
      * intros Hy.
        destruct (inv_link _ _ Hinv _ _ _ Hy) as (Hy1 & Hy2 & Hy3).
        pose proof (link_Some_hgt _ _ _ _ Hy) as Hxl.
        apply hgt_lt_length in Hxl. fold N in Hxl.
        unfold is_node in Hy1. fold N in Hy1.
        split; [apply Hnode; by left|].
        rewrite (Hho y), (Hko y), (Hko x) by lia. done.
  - (* no node is skipped *)
    intros x l z Hxl Hz Hzl Hb. rewrite Hlink.
    destruct (decide (x = N)) as [->|Hx].
    + (* from the new node *)
      rewrite Hhn in Hxl. rewrite decide_True by done.
      destruct Hb as [Hb | Hb]; [unfold head_ in *; lia|].
      rewrite Hkn in Hb.
      destruct (Hkey z Hz) as [(Hz' & Hkz & Hhz) | (-> & Hkz & _)]; cycle 1.
      { rewrite Hkz in Hb. by apply lt_irrefl in Hb. }
      rewrite Hkz in *. rewrite Hhz in Hzl.
      destruct (Hpl l Hxl) as (Hpl1 & Hpl2 & Hpl3).
      destruct (inv_no_skip _ _ Hinv (pl l) l z) as (y & Hy & Hle); try done.
      { destruct Hpl2 as [? | Hpl2]; [by left|]. right.
        by eapply lt_trans. }
      exists y. split; [done|].
      destruct (Hsucc l y Hxl Hy) as (Hy1 & _).
      unfold is_node in Hy1. fold N in Hy1. rewrite Hko by lia. done.
    + assert (HxN : (x < N)%nat).
      { apply hgt_lt_length in Hxl. rewrite Hlen in Hxl. lia. }
      rewrite Hho in Hxl by done. apply Hbefore in Hb; [|done].
      destruct (decide ((l < h)%nat /\ x = pl l)) as [[Hl ->]|Hnp].
      * (* from the predecessor at this level *)
        exists N. split; [done|]. rewrite Hkn.
        destruct (Hkey z Hz) as [(Hz' & Hkz & Hhz) | (-> & Hkz & _)]; cycle 1.
        { rewrite Hkz. rewrite compare_refl. lia. }
        rewrite Hkz in *. rewrite Hhz in Hzl.
        apply not_lt_le. intros Hlt.
        destruct (Hpl l Hl) as (_ & _ & Hpl3).
        destruct (inv_no_skip _ _ Hinv (pl l) l z) as (y & Hy & Hle); try done.
        apply (Hpl3 y Hy). by eapply le_lt_trans.
      * destruct (Hkey z Hz) as [(Hz' & Hkz & Hhz) | (-> & Hkz & Hhz)].
        -- (* an old node seen from an old node *)
           rewrite Hkz in *. rewrite Hhz in Hzl.
           destruct (inv_no_skip _ _ Hinv x l z) as (y & Hy & Hle); try done.
           exists y. split; [done|].
           destruct (inv_link _ _ Hinv _ _ _ Hy) as (Hy1 & _).
           unfold is_node in Hy1. fold N in Hy1. rewrite Hko by lia. done.
        -- (* the new node seen from an old node that is not its predecessor *)
           rewrite Hkz in *. rewrite Hhz in Hzl.
           assert (Hxp : x <> pl l) by (intros ->; by apply Hnp).
           destruct (Hpl l Hzl) as (Hpl1 & Hpl2 & Hpl3).
           pose proof (Hplt l Hzl) as HpN.
           assert (Hcase : (pl l <> head_ /\ before mem x (nkey mem (pl l)))
                           \/ (x <> head_ /\ before mem (pl l) (nkey mem x))).
           { destruct (decide (x = head_)) as [->|Hx0].
             - left. split; [done | by left].
             - destruct (decide (pl l = head_)) as [Hp0|Hp0].
               + right. split; [done | by left].
               + destruct (lt_total (nkey mem x) (nkey mem (pl l))) as [?|?].
                 * apply (inv_distinct _ _ Hinv); unfold is_node, head_ in *;
                     fold N; lia.
                 * left. split; [done | by right].
                 * right. split; [done | by right]. }
           destruct Hcase as [[Hp0 Hbx] | [Hx0 Hbp]].
           ++ destruct (inv_no_skip _ _ Hinv x l (pl l)) as (y & Hy & Hle);
                try done.
              { unfold is_node, head_ in *. fold N. lia. }
              exists y. split; [done|].
              destruct (inv_link _ _ Hinv _ _ _ Hy) as (Hy1 & _).
              unfold is_node in Hy1. fold N in Hy1. rewrite Hko by lia.
              destruct Hpl2 as [? | Hpl2]; [done|].
              pose proof (le_lt_trans _ _ _ Hle Hpl2) as Hlt.
              unfold lt in Hlt. lia.
           ++ exfalso.
              destruct (inv_no_skip _ _ Hinv (pl l) l x) as (y & Hy & Hle);
                try done.
              { unfold is_node, head_ in *. fold N. lia. }
              apply (Hpl3 y Hy).
              destruct Hb as [? | Hb]; [done|]. by eapply le_lt_trans.
  - (* no two keys compare equal *)
    intros z1 z2 Hz1 Hz2 Hne.
    destruct (Hkey z1 Hz1) as [(Hz1' & -> & _) | (-> & -> & _)];
      destruct (Hkey z2 Hz2) as [(Hz2' & -> & _) | (-> & -> & _)].
    + by apply (inv_distinct _ _ Hinv).
    + intros H. apply compare_eq_sym in H. by apply (Hnew z1).
    + by apply Hnew.
    + done.
Qed.

Lemma length_inserted mem : length (inserted mem) = pred (length mem).
Proof. unfold inserted. rewrite length_fmap. by destruct mem. Qed.

Lemma inserted_lookup_S mem i :
  (S i < length mem)%nat -> inserted mem !! i = Some (nkey mem (S i)).
Proof.
  intros H. apply (inserted_lookup mem (S i)). unfold is_node. lia.
Qed.

Lemma linked_in_inserted mem mem' k h pl :
  (0 < length mem)%nat ->
  linked_in mem mem' k h pl -> inserted mem' = inserted mem ++ [k].
Proof.
  intros HN [Hlen Hko Hkn _ _ _].
  assert (Hlen' : length (inserted mem') = length (inserted mem ++ [k])).
  { rewrite length_app, !length_inserted. simpl. lia. }
  apply list_eq. intros i.
  destruct (decide (S i < length mem')%nat) as [Hi|Hi].
  - rewrite (inserted_lookup_S mem' i) by lia.
    destruct (decide (S i < length mem)%nat) as [Hi'|Hi'].
    + rewrite lookup_app_l by (rewrite length_inserted; lia).
      rewrite (inserted_lookup_S mem i) by lia.
      by rewrite Hko.
    + assert (S i = length mem) as E by lia.
      rewrite lookup_app_r by (rewrite length_inserted; lia).
      rewrite length_inserted.
      replace (i - pred (length mem))%nat with 0%nat by lia. simpl.
      by rewrite E, Hkn.
  - rewrite !lookup_ge_None_2; [done | |].
    + rewrite <- Hlen'. rewrite length_inserted. lia.
    + rewrite length_inserted. lia.
Qed.

(** A [for] loop that keeps an invariant. *)
Lemma for_count_inv {A} (P : Z -> A -> Prop) (body : Z -> A -> option A) n :
  forall i a,
    P i a ->
    (forall j a, i <= j < i + Z.of_nat n -> P j a ->
       exists a', body j a = Some a' /\ P (j + 1) a') ->
    exists a', for_count n i body a = Some a' /\ P (i + Z.of_nat n) a'.
Proof.
  induction n as [|n IH]; intros i a Ha Hstep; simpl.
  - exists a. split; [done|]. by replace (i + Z.of_nat 0) with i by lia.
  - destruct (Hstep i a ltac:(lia) Ha) as (a1 & -> & Ha1). simpl.
    destruct (IH (i + 1) a1 Ha1) as (a' & Hrun & Ha').
    { intros j a2 Hj. apply Hstep. lia. }
    exists a'. split; [done|].
    by replace (i + Z.of_nat (S n)) with (i + 1 + Z.of_nat n) by lia.
Qed.

(** [RandomHeight] answers, and with a height in [1, kMaxHeight]. *)
Lemma RandomHeight_loop_spec fuel : forall height rnd,
  1 <= height <= kMaxHeight ->
  kMaxHeight - height < Z.of_nat fuel ->
  exists h rnd',
    RandomHeight_loop fuel height rnd = Some (h, rnd') /\
    height <= h <= kMaxHeight.
Proof.
  induction fuel as [|fuel IH]; intros height rnd Hh Hfuel; [lia|].
  simpl. destruct (height <? kMaxHeight) eqn:E.
  - apply Z.ltb_lt in E. destruct (OneIn rnd kBranching) as [one rnd1].
    destruct one.
    + destruct (IH (height + 1) rnd1) as (h & rnd' & Hrun & Hb); [lia | lia|].
      exists h, rnd'. split; [done | lia].
    + exists height, rnd1. split; [done | lia].
  - exists height, rnd. split; [done | lia].
Qed.

Lemma RandomHeight_spec rnd :
  exists h rnd',
    RandomHeight rnd = Some (h, rnd') /\ 1 <= h <= kMaxHeight.
Proof.
  unfold RandomHeight.
  destruct (RandomHeight_loop_spec (Z.to_nat kMaxHeight) 1 rnd)
    as (h & rnd' & -> & Hh); [unfold kMaxHeight; lia..|].
  simpl. exists h, rnd'.
  replace (0 <? h) with true by (symmetry; apply Z.ltb_lt; lia).
  replace (h <=? kMaxHeight) with true by (symmetry; apply Z.leb_le; lia).
  split; [done | lia].
Qed.

(** The arena with a new node appended. *)
Lemma NewNode_appended mem k h :
  0 <= h ->
  let mem1 := mem ++ [NewNode k h] in
  length mem1 = S (length mem) /\
  (forall x, (x < length mem)%nat -> nkey mem1 x = nkey mem x) /\
  nkey mem1 (length mem) = k /\
  (forall x, (x < length mem)%nat -> hgt mem1 x = hgt mem x) /\
  hgt mem1 (length mem) = Z.to_nat h /\
  (forall x l, (x < length mem)%nat -> link mem1 x l = link mem x l) /\
  (forall l, link mem1 (length mem) l = None).
Proof.
  intros Hh mem1. unfold mem1, nkey, hgt, link, Node_key.
  split; [rewrite length_app; simpl; lia|].
  split; [intros x Hx; by rewrite lookup_app_l|].
  split; [by rewrite list_lookup_middle|].
  split; [intros x Hx; by rewrite lookup_app_l|].
  split; [rewrite list_lookup_middle by done; simpl; by rewrite length_replicate|].
  split; [intros x l Hx; by rewrite lookup_app_l|].
  intros l. rewrite list_lookup_middle by done. simpl.
  destruct (replicate (Z.to_nat h) None !! l) as [o|] eqn:E; [|done].
  apply lookup_replicate in E as [-> _]. done.
Qed.

(** The second loop of [Insert] links the new node in. *)
Lemma Insert_link_loop mem k h a :
  1 <= h ->
  Z.of_nat (length a) = kMaxHeight ->
  (forall l, Z.of_nat l < h ->
     exists p, a !! l = Some (Some p) /\ (l < hgt mem p)%nat) ->
  exists mem',
    for_range 0 h (Insert_link (length mem) a) (mem ++ [NewNode k h])
      = Some mem' /\
    linked_in mem mem' k (Z.to_nat h) (prev_at a).
Proof.
  intros Hh Hlen Ha. set (N := length mem). set (mem1 := mem ++ [NewNode k h]).
  destruct (NewNode_appended mem k h ltac:(lia))
    as (H1len & H1ko & H1kn & H1ho & H1hn & H1lo & H1ln).
  fold mem1 N in H1len, H1ko, H1kn, H1ho, H1hn, H1lo, H1ln.
  set (J := fun (j : Z) (m : list Node) =>
    length m = S N /\
    (forall x, nkey m x = nkey mem1 x) /\
    (forall x, hgt m x = hgt mem1 x) /\
    (forall x l, link m x l =
       if decide (Z.of_nat l < j) then
         if decide (x = N) then link mem (prev_at a l) l
         else if decide (x = prev_at a l) then Some N
         else link mem1 x l
       else link mem1 x l)).
  destruct (for_count_inv J (Insert_link N a) (Z.to_nat (h - 0)) 0 mem1)
    as (mem' & Hrun & HJ).
  { split; [done|]. split; [done|]. split; [done|]. intros x l.
    rewrite decide_False by lia. done. }
  { intros j m Hj (Jlen & Jk & Jh & Jl).
    destruct (Ha (Z.to_nat j) ltac:(lia)) as (p & Hp & Hhp).
    assert (HpN : (p < N)%nat) by (by apply hgt_lt_length in Hhp).
    assert (Hpa : prev_at a (Z.to_nat j) = p) by (unfold prev_at; by rewrite Hp).
    unfold Insert_link, array_get.
    replace ((0 <=? j) && (j <? Z.of_nat (length a))) with true; cycle 1.
    { symmetry. apply andb_true_iff. rewrite Z.leb_le, Z.ltb_lt.
      pose proof (lookup_lt_Some _ _ _ Hp). lia. }
    rewrite bind_assert_true, Hp. simpl.
    rewrite (Node_Next_link m p j) by (rewrite ?Jh, ?H1ho; lia). simpl.
    destruct (Node_SetNext_spec m N j (link m p (Z.to_nat j)))
      as (m1 & -> & M1len & M1k & M1h & M1l);
      [lia | rewrite Jh, H1hn; lia |]. simpl.
    destruct (Node_SetNext_spec m1 p j (Some N))
      as (m2 & -> & M2len & M2k & M2h & M2l);
      [lia | rewrite M1h, Jh, H1ho; lia |].
    exists m2. split; [done|].
    split; [lia|]. split; [intros x; by rewrite M2k, M1k|].
    split; [intros x; by rewrite M2h, M1h|].
    intros x l. rewrite M2l, M1l.
    assert (Hold : link m p (Z.to_nat j) = link mem p (Z.to_nat j)).
    { rewrite Jl. rewrite decide_False by lia. by apply H1lo. }
    destruct (decide (l = Z.to_nat j)) as [->|Hlj].
    - rewrite (decide_True (P := Z.of_nat (Z.to_nat j) < j + 1)) by lia.
      rewrite Hpa.
      destruct (decide (x = p)) as [->|Hxp].
      + rewrite decide_True by done. rewrite decide_False by lia. done.
      + rewrite decide_False by (intros [? _]; done).
        destruct (decide (x = N)) as [->|HxN].
        * rewrite decide_True by done. done.
        * rewrite decide_False by (intros [? _]; done).
          rewrite Jl. rewrite decide_False by lia. done.
    - rewrite decide_False by (intros [_ ?]; done).
      rewrite decide_False by (intros [_ ?]; done).
      rewrite Jl.
      destruct (decide (Z.of_nat l < j)).
      + rewrite (decide_True (P := Z.of_nat l < j + 1)) by lia. done.
      + rewrite (decide_False (P := Z.of_nat l < j + 1)) by lia. done. }
  exists mem'. split; [exact Hrun|].
  destruct HJ as (Jlen & Jk & Jh & Jl).
  replace (0 + Z.of_nat (Z.to_nat (h - 0))) with h in Jl by lia.
  constructor; fold N.
  - done.
  - intros x Hx. rewrite Jk. by apply H1ko.
  - by rewrite Jk.
  - intros x Hx. rewrite Jh. by apply H1ho.
  - by rewrite Jh.
  - intros x l. rewrite Jl.
    destruct (decide (x = N)) as [->|HxN].
    + destruct (decide (Z.of_nat l < h)).
      * rewrite (decide_True (P := (l < Z.to_nat h)%nat)) by lia. done.
      * rewrite (decide_False (P := (l < Z.to_nat h)%nat)) by lia. done.
    + destruct (decide (Z.of_nat l < h)).
      * destruct (decide (x = prev_at a l)).
        -- rewrite decide_True by (split; [lia | done]). done.
        -- rewrite decide_False by (intros [_ ?]; done).
           destruct (decide (x < N)%nat); [by apply H1lo|].
           unfold link. rewrite !lookup_ge_None_2; [done | lia | lia].
      * rewrite decide_False by (intros [? _]; lia).
        destruct (decide (x < N)%nat); [by apply H1lo|].
        unfold link. rewrite !lookup_ge_None_2; [done | lia | lia].
Qed.

(** The first loop of [Insert] fills the levels above the old height with the
    head, which is the predecessor of any key there. *)
Lemma Insert_fill_loop mem mh k h a1 :
  inv mem mh -> 1 <= h <= kMaxHeight ->
  prev_filled mem k (Z.to_nat (mh - 1))
    (replicate (Z.to_nat kMaxHeight) None) a1 ->
  exists a2,
    (if mh <? h then
       for_range mh h (fun i prev => array_set prev i (Some head_)) a1
       ≫= fun prev => Some (prev, h)
     else Some (a1, mh)) = Some (a2, Z.max mh h) /\
    Z.of_nat (length a2) = kMaxHeight /\
    forall l, Z.of_nat l < Z.max mh h ->
      exists p, a2 !! l = Some (Some p) /\ pred_at mem k p l /\
                (mh <= Z.of_nat l -> p = head_).
Proof.
  intros Hinv Hh (Hlen & Hlow & _).
  pose proof (inv_max_height _ _ Hinv) as Hmh.
  rewrite length_replicate in Hlen.
  assert (Hhead : forall l, mh <= Z.of_nat l < kMaxHeight ->
            pred_at mem k head_ l).
  { intros l Hl. split; [|split].
    - rewrite (inv_head_height _ _ Hinv). lia.
    - by left.
    - intros y Hy. destruct (inv_link _ _ Hinv _ _ _ Hy) as (Hy1 & Hy2 & _).
      destruct (inv_height _ _ Hinv y Hy1). lia. }
  destruct (mh <? h) eqn:E.
  - apply Z.ltb_lt in E.
    set (P := fun (j : Z) (a : list (option nat)) =>
      length a = Z.to_nat kMaxHeight /\
      (forall l, Z.of_nat l < mh -> a !! l = a1 !! l) /\
      (forall l, mh <= Z.of_nat l < j -> a !! l = Some (Some head_))).
    destruct (for_count_inv P (fun i prev => array_set prev i (Some head_))
                (Z.to_nat (h - mh)) mh a1) as (a2 & Hrun & Ha2 & Hold & Hnew).
    { split; [done|]. split; [done|]. intros l Hl. lia. }
    { intros j a Hj (Pa & Pold & Pnew). unfold array_set.
      replace ((0 <=? j) && (j <? Z.of_nat (length a))) with true; cycle 1.
      { symmetry. apply andb_true_iff. rewrite Z.leb_le, Z.ltb_lt. lia. }
      rewrite bind_assert_true. eexists. split; [reflexivity|].
      split; [by rewrite length_insert|]. split.
      - intros l Hl. rewrite list_lookup_insert_ne by lia. by apply Pold.
      - intros l Hl. destruct (decide (l = Z.to_nat j)) as [->|Hne].
        + apply list_lookup_insert_eq. lia.
        + rewrite list_lookup_insert_ne by lia. apply Pnew. lia. }
    unfold for_range. rewrite Hrun. simpl.
    replace (mh + Z.of_nat (Z.to_nat (h - mh))) with h in Hnew by lia.
    exists a2. split; [f_equal; f_equal; lia|]. split; [lia|].
    intros l Hl. destruct (decide (Z.of_nat l < mh)) as [Hlt|Hge].
    + destruct (Hlow l ltac:(lia)) as (p & Hp & Hpred).
      exists p. rewrite Hold by done. split; [done|]. split; [done | lia].
    + exists head_. split; [apply Hnew; lia|]. split; [apply Hhead; lia | done].
  - apply Z.ltb_ge in E.
    exists a1. split; [f_equal; f_equal; lia|]. split; [lia|].
    intros l Hl. destruct (Hlow l ltac:(lia)) as (p & Hp & Hpred).
    exists p. split; [done|]. split; [done | lia].
Qed.

(** [Insert] of a key that compares equal to none in the list. *)
Lemma Insert_spec s k fuel :
  inv (nodes s) (max_height_ s) ->
  (forall z, is_node (nodes s) z -> compare_ k (nkey (nodes s) z) <> 0) ->
  (length (inserted (nodes s)) + Z.to_nat kMaxHeight <= fuel)%nat ->
  exists h rnd' s',
    RandomHeight (rnd_ s) = Some (h, rnd') /\
    1 <= h <= kMaxHeight /\
    Insert fuel s k = Some s' /\
    inv (nodes s') (max_height_ s') /\
    max_height_ s' = Z.max (max_height_ s) h /\
    rnd_ s' = rnd' /\
    inserted (nodes s') = inserted (nodes s) ++ [k] /\
    length (nodes s') = S (length (nodes s)) /\
    hgt (nodes s') (length (nodes s)) = Z.to_nat h /\
    (forall l, max_height_ s <= Z.of_nat l < h ->
       link (nodes s') head_ l = Some (length (nodes s))).
Proof.
  intros Hinv Hnew Hfuel. set (mem := nodes s) in *. set (mh := max_height_ s) in *.
  destruct (FindGreaterOrEqual_spec s k fuel
              (Some (replicate (Z.to_nat kMaxHeight) None)) Hinv Hfuel)
    as (x & prev' & Hfge & Hx & Hres); [by rewrite length_replicate|].
  destruct prev' as [a1|]; [|done]. simpl in Hres. fold mem mh in Hres.
  destruct (RandomHeight_spec (rnd_ s)) as (h & rnd' & Hrh & Hh).
  destruct (Insert_fill_loop mem mh k h a1 Hinv Hh Hres)
    as (a2 & Hfill & Hlen2 & Ha2).
  destruct (Insert_link_loop mem k h a2) as (mem' & Hlink & Hli);
    [lia | done | |].
  { intros l Hl. destruct (Ha2 l ltac:(lia)) as (p & Hp & (Hhp & _) & _).
    by exists p. }
  assert (Hpl : forall l, (l < Z.to_nat h)%nat ->
            pred_at mem k (prev_at a2 l) l).
  { intros l Hl. destruct (Ha2 l ltac:(lia)) as (p & Hp & Hpred & _).
    unfold prev_at. by rewrite Hp. }
  pose proof (linked_in_inv mem mh mem' k (Z.to_nat h) (prev_at a2) Hinv Hnew
                ltac:(lia) ltac:(lia) Hpl Hli) as Hinv'.
  replace (Z.of_nat (Z.to_nat h)) with h in Hinv' by lia.
  exists h, rnd', {| nodes := mem'; max_height_ := Z.max mh h; rnd_ := rnd' |}.
  split; [done|]. split; [done|]. split.
  { unfold Insert. rewrite Hfge. simpl. fold mem.
    assert (Hdup : match x with
                   | Some x => Node_key mem x ≫= fun xk => Some (Equal k xk)
                   | None => Some false
                   end = Some false).
    { destruct x as [y|]; [|done]. destruct Hx as [Hy _].
      destruct (Hy y eq_refl) as [Hy1 _].
      rewrite Node_key_nkey by (unfold is_node in Hy1; fold mem in Hy1; lia).
      simpl. unfold Equal. f_equal. apply Z.eqb_neq. by apply Hnew. }
    rewrite Hdup. simpl. rewrite Hrh. simpl.
    unfold GetMaxHeight. fold mh. rewrite Hfill. simpl.
    rewrite Hlink. done. }
  simpl. split; [done|]. split; [done|]. split; [done|].
  split; [eapply linked_in_inserted; [apply (inv_head _ _ Hinv) | exact Hli]|].
  destruct Hli as [Lilen _ _ _ Lihn Lilink].
  split; [done|]. split; [done|].
  intros l Hl. rewrite Lilink.
  pose proof (inv_head _ _ Hinv).
  rewrite decide_False by (unfold head_; fold mem; lia).
  destruct (Ha2 l ltac:(lia)) as (p & Hp & _ & Hp0).
  rewrite decide_True; [done|]. split; [lia|].
  unfold prev_at. rewrite Hp. symmetry. apply Hp0. lia.
Qed.

(** *** The empty list, and a sequence of inserts *)

Lemma SkipList_new_spec rnd :
  SkipList_new rnd =
    Some {| nodes := [NewNode key0 kMaxHeight]; max_height_ := 1; rnd_ := rnd |}.
Proof. reflexivity. Qed.

Lemma inv_new : inv [NewNode key0 kMaxHeight] 1.
Proof.
  assert (Hlink : forall x l, link [NewNode key0 kMaxHeight] x l = None).
  { intros x l. destruct x as [|x]; [|done].
    destruct (NewNode_appended [] key0 kMaxHeight) as (_ & _ & _ & _ & _ & _ & H);
      [unfold kMaxHeight; lia|].
    exact (H l). }
  constructor.
  - simpl. lia.
  - reflexivity.
  - unfold kMaxHeight. lia.
  - intros z Hz. unfold is_node in Hz. simpl in Hz. lia.
  - intros x l y Hy. by rewrite Hlink in Hy.
  - intros x l z _ Hz. unfold is_node in Hz. simpl in Hz. lia.
  - intros z1 z2 Hz. unfold is_node in Hz. simpl in Hz. lia.
Qed.

Lemma inv_distinct_inserted mem mh : inv mem mh -> distinct (inserted mem).
Proof.
  intros Hinv i j a b Hi Hj Hne.
  pose proof (lookup_lt_Some _ _ _ Hi) as Hil.
  pose proof (lookup_lt_Some _ _ _ Hj) as Hjl.
  rewrite length_inserted in Hil, Hjl.
  rewrite inserted_lookup_S in Hi, Hj by lia.
  injection Hi as <-. injection Hj as <-.
  apply (inv_distinct _ _ Hinv); unfold is_node; lia.
Qed.

Lemma distinct_NoDup keys : distinct keys -> NoDup keys.
Proof.
  intros H. apply NoDup_alt. intros i j a Hi Hj.
  destruct (decide (i = j)) as [|Hne]; [done|].
  destruct (H i j a a Hi Hj Hne). apply compare_refl.
Qed.

Lemma InsertAll_spec fuel keys : forall s,
  inv (nodes s) (max_height_ s) ->
  distinct (inserted (nodes s) ++ keys) ->
  (length (inserted (nodes s)) + length keys + Z.to_nat kMaxHeight <= fuel)%nat ->
  exists s',
    InsertAll fuel s keys = Some s' /\
    inv (nodes s') (max_height_ s') /\
    inserted (nodes s') = inserted (nodes s) ++ keys /\
    max_height_ s <= max_height_ s'.
Proof.
  induction keys as [|k keys IH]; intros s Hinv Hd Hfuel.
  - exists s. rewrite app_nil_r. split; [done|]. split; [done|].
    split; [done | lia].
  - simpl in Hfuel.
    destruct (Insert_spec s k fuel Hinv)
      as (h & rnd' & s1 & _ & Hh & Hins & Hinv1 & Hmh1 & _ & Hkeys1 & _);
      [|lia|].
    { intros z Hz Heq. apply compare_eq_sym in Heq. revert Heq.
      apply (Hd (pred z) (length (inserted (nodes s)))).
      - rewrite lookup_app_l by (rewrite length_inserted; unfold is_node in Hz; lia).
        by apply inserted_lookup.
      - by rewrite list_lookup_middle.
      - rewrite length_inserted. unfold is_node in Hz. lia. }
    destruct (IH s1 Hinv1) as (s' & Hall & Hinv' & Hkeys' & Hmh').
    { rewrite Hkeys1, <- app_assoc. done. }
    { rewrite Hkeys1, length_app. simpl. lia. }
    exists s'. simpl. rewrite Hins. simpl. split; [done|]. split; [done|].
    split; [by rewrite Hkeys', Hkeys1, <- app_assoc | lia].
Qed.

(** *** [Contains] and the iterator *)

Lemma Contains_spec s k fuel :
  inv (nodes s) (max_height_ s) ->
  (length (inserted (nodes s)) + Z.to_nat kMaxHeight <= fuel)%nat ->
  exists b,
    Contains fuel s k = Some b /\
    (b = true <-> exists k', k' ∈ inserted (nodes s) /\ compare_ k k' = 0).
Proof.
  intros Hinv Hfuel.
  destruct (FindGreaterOrEqual_spec s k fuel None Hinv Hfuel I)
    as (x & prev' & Hfge & [Hx1 Hx2] & _).
  unfold Contains. rewrite Hfge. simpl.
  assert (Hnone : forall b, b = false ->
            (forall y, x = Some y -> compare_ k (nkey (nodes s) y) <> 0) ->
            (b = true <-> exists k', k' ∈ inserted (nodes s) /\ compare_ k k' = 0)).
  { intros b -> Hne. split; [done|]. intros (k' & Hk' & Heq).
    apply elem_of_inserted in Hk' as (z & Hz & <-).
    assert (Heq' : compare_ (nkey (nodes s) z) k = 0)
      by (by apply compare_eq_sym).
    destruct (Hx2 z Hz) as (y & Hy & Hle).
    { apply le_not_lt. lia. }
    destruct (Hx1 y Hy) as [_ Hnlt]. exfalso. apply (Hne y Hy).
    apply compare_eq_sym.
    assert (Hzk : compare_ (nkey (nodes s) z) k <= 0) by lia.
    pose proof (compare_trans _ _ _ Hle Hzk).
    unfold lt in Hnlt. lia. }
  destruct x as [y|].
  - destruct (Hx1 y eq_refl) as [Hy _].
    rewrite Node_key_nkey by (unfold is_node in Hy; lia). simpl.
    eexists. split; [reflexivity|]. unfold Equal.
    destruct (compare_ k (nkey (nodes s) y) =? 0) eqn:E.
    + apply Z.eqb_eq in E. split; [|done]. intros _.
      exists (nkey (nodes s) y). split; [|done].
      apply elem_of_inserted. by exists y.
    + apply Z.eqb_neq in E. apply Hnone; [done|]. by intros y' [= <-].
  - exists false. split; [done|]. apply Hnone; done.
Qed.

Lemma scan_spec s fuel :
  inv (nodes s) (max_height_ s) ->
  forall x,
    (0 < hgt (nodes s) x)%nat ->
    (rank (nodes s) x < fuel)%nat ->
    exists visited,
      scan fuel s {| node_ := link (nodes s) x 0 |} = Some visited /\
      StronglySorted lt visited /\
      (forall k, k ∈ visited <->
         k ∈ inserted (nodes s) /\ before (nodes s) x k).
Proof.
  intros Hinv. set (mem := nodes s) in *.
  induction fuel as [|fuel IH]; intros x Hx Hfuel; [lia|].
  simpl. destruct (link mem x 0) as [y|] eqn:Hy.
  - destruct (inv_link _ _ Hinv _ _ _ Hy) as (Hy1 & Hy2 & Hy3).
    pose proof (rank_link _ _ _ _ _ Hinv Hy).
    destruct (IH y ltac:(lia) ltac:(lia)) as (rest & Hrest & Hsorted & Hmem).
    unfold Valid, Iterator_key, Next. simpl. fold mem.
    rewrite Node_key_nkey by (unfold is_node in Hy1; lia). simpl.
    rewrite (Node_Next_link mem y 0) by (simpl; lia). simpl.
    change (Z.to_nat 0) with 0%nat. rewrite Hrest. simpl. eexists. split; [reflexivity|]. split.
    + constructor; [done|]. apply Forall_forall. intros k Hk.
      apply Hmem in Hk as [_ [Hk | Hk]]; [|done].
      unfold is_node, head_ in *. lia.
    + intros k. rewrite elem_of_cons, Hmem. split.
      * intros [-> | [Hk [Hk0 | Hlt]]].
        -- split; [apply elem_of_inserted; by exists y|].
           destruct (decide (x = head_)) as [->|Hne]; [by left|].
           right. by apply Hy3.
        -- unfold is_node, head_ in *. lia.
        -- split; [done|].
           destruct (decide (x = head_)) as [->|Hne]; [by left|].
           right. eapply lt_trans; [by apply Hy3 | done].
      * intros [Hk Hb].
        pose proof Hk as Hk'. apply elem_of_inserted in Hk' as (z & Hz & <-).
        destruct (inv_no_skip _ _ Hinv x 0%nat z) as (y' & Hy' & Hle);
          try done.
        { by destruct (inv_height _ _ Hinv z Hz). }
        rewrite Hy in Hy'. injection Hy' as <-.
        destruct (decide (y = z)) as [->|Hne]; [by left|].
        right. split; [done|]. right.
        destruct (lt_total (nkey mem y) (nkey mem z)) as [|Hlt]; [|done|].
        -- by apply (inv_distinct _ _ Hinv).
        -- by apply le_not_lt in Hle.
  - exists []. split; [done|]. split; [constructor|].
    intros k. split; [by intros ?%elem_of_nil|]. intros [Hk Hb].
    apply elem_of_inserted in Hk as (z & Hz & <-).
    destruct (inv_no_skip _ _ Hinv x 0%nat z) as (y' & Hy' & _); try done.
    + by destruct (inv_height _ _ Hinv z Hz).
    + congruence.
Qed.

Lemma StronglySorted_lt_NoDup l : StronglySorted lt l -> NoDup l.
Proof.
  induction 1 as [|a l Hs IH Hall]; constructor; [|done].
  intros Ha. rewrite Forall_forall in Hall. by apply (lt_irrefl a), Hall.
Qed.

(** The list a sequence of inserts builds from the empty list. *)
Lemma build_spec fuel rnd keys :
  distinct keys ->
  (length keys + Z.to_nat kMaxHeight <= fuel)%nat ->
  exists s0 s,
    SkipList_new rnd = Some s0 /\ InsertAll fuel s0 keys = Some s /\
    inv (nodes s) (max_height_ s) /\ inserted (nodes s) = keys.
Proof.
  intros Hd Hfuel. eexists. rewrite SkipList_new_spec.
  destruct (InsertAll_spec fuel keys
              {| nodes := [NewNode key0 kMaxHeight]; max_height_ := 1;
                 rnd_ := rnd |})
    as (s & Hall & Hinv & Hkeys & _); simpl; [apply inv_new | done | lia |].
  exists s. done.
Qed.

(** [C1]: after the keys of a list, no two of which compare equal, have been
    inserted into an empty list, [Contains(k)] is true for every key k of the
    list and false for every k that compares equal to none of them, and the
    scan from [SeekToFirst] by [Next] visits the keys of the list, each once,
    in strictly increasing order. *)
Theorem Insert_Contains_scan fuel rnd keys :
  distinct keys ->
  (length keys + Z.to_nat kMaxHeight <= fuel)%nat ->
  exists s0 s,
    SkipList_new rnd = Some s0 /\
    InsertAll fuel s0 keys = Some s /\
    (forall k, k ∈ keys -> Contains fuel s k = Some true) /\
    (forall k, (forall k', k' ∈ keys -> compare_ k k' <> 0) ->
       Contains fuel s k = Some false) /\
    exists it visited,
      SeekToFirst s = Some it /\
      scan fuel s it = Some visited /\
      StronglySorted lt visited /\
      visited ≡ₚ keys.
Proof.
  intros Hd Hfuel.
  destruct (build_spec fuel rnd keys Hd Hfuel)
    as (s0 & s & Hnew & Hall & Hinv & Hkeys).
  exists s0, s. split; [done|]. split; [done|].
  assert (Hfuel' : (length (inserted (nodes s)) + Z.to_nat kMaxHeight
                    <= fuel)%nat) by (by rewrite Hkeys).
  split; [|split].
  - intros k Hk.
    destruct (Contains_spec s k fuel Hinv Hfuel') as (b & -> & Hb).
    f_equal. apply Hb. exists k. rewrite Hkeys. split; [done|].
    apply compare_refl.
  - intros k Hk.
    destruct (Contains_spec s k fuel Hinv Hfuel') as (b & -> & Hb).
    f_equal. destruct b; [|done].
    destruct (proj1 Hb eq_refl) as (k' & Hk' & Heq).
    rewrite Hkeys in Hk'. by destruct (Hk k' Hk').
  - pose proof (inv_head_height _ _ Hinv) as Hhead.
    destruct (scan_spec s fuel Hinv head_) as (visited & Hscan & Hsorted & Hmem).
    { rewrite Hhead. unfold kMaxHeight. lia. }
    { pose proof (rank_le_inserted (nodes s) head_). unfold kMaxHeight in *. lia. }
    exists {| node_ := link (nodes s) head_ 0 |}, visited.
    split.
    { unfold SeekToFirst.
      rewrite (Node_Next_link (nodes s) head_ 0);
        [done | lia | rewrite Hhead; unfold kMaxHeight; simpl; lia]. }
    split; [done|]. split; [done|].
    apply NoDup_Permutation.
    + by apply StronglySorted_lt_NoDup.
    + by apply distinct_NoDup.
    + intros k. rewrite Hmem, Hkeys. split; [by intros [? _]|].
      intros Hk. split; [done | by left].
Qed.

(** [C6]: at every [Insert] of a sequence, the height sampled for the new node
    lies in [1, 12], and so does [max_height_], before and after; [max_height_]
    does not decrease; when the height sampled is greater than [max_height_],
    [max_height_] becomes that height, and the head links to the new node at
    every level from the old [max_height_] up to it; otherwise [max_height_]
    stays. *)
Theorem Insert_max_height fuel rnd keys k :
  distinct (keys ++ [k]) ->
  (length keys + 1 + Z.to_nat kMaxHeight <= fuel)%nat ->
  exists s0 s s' h rnd' nd,
    SkipList_new rnd = Some s0 /\
    InsertAll fuel s0 keys = Some s /\
    Insert fuel s k = Some s' /\
    RandomHeight (rnd_ s) = Some (h, rnd') /\
    1 <= h <= 12 /\
    max_height_ s0 = 1 /\
    max_height_ s0 <= max_height_ s /\
    1 <= max_height_ s <= 12 /\
    max_height_ s <= max_height_ s' <= 12 /\
    nodes s' !! length (nodes s) = Some nd /\
    key nd = k /\ Z.of_nat (length (next_ nd)) = h /\
    (max_height_ s < h ->
       max_height_ s' = h /\
       forall l, max_height_ s <= l < h ->
         Node_Next (nodes s') head_ l = Some (Some (length (nodes s)))) /\
    (h <= max_height_ s -> max_height_ s' = max_height_ s).
Proof.
  intros Hd Hfuel.
  assert (Hdk : distinct keys).
  { intros i j a b Hi Hj. apply Hd; by apply lookup_app_l_Some. }
  eexists. rewrite SkipList_new_spec.
  destruct (InsertAll_spec fuel keys
              {| nodes := [NewNode key0 kMaxHeight]; max_height_ := 1;
                 rnd_ := rnd |})
    as (s & Hall & Hinv & Hkeys & Hmono); simpl; [apply inv_new | done | lia |].
  simpl in Hkeys, Hmono.
  destruct (Insert_spec s k fuel Hinv)
    as (h & rnd' & s' & Hrh & Hh & Hins & Hinv' & Hmh' & _ & Hkeys' & Hlen' &
        Hhgt & Hhead); [| rewrite Hkeys; lia |].
  { intros z Hz Heq. apply compare_eq_sym in Heq. revert Heq.
    apply (Hd (pred z) (length keys)).
    - apply lookup_app_l_Some. rewrite <- Hkeys. by apply inserted_lookup.
    - by rewrite list_lookup_middle.
    - unfold is_node in Hz. rewrite <- Hkeys, length_inserted. lia. }
  pose proof (inv_max_height _ _ Hinv) as Hmh.
  pose proof (inv_max_height _ _ Hinv') as Hmh2.
  unfold kMaxHeight in *.
  destruct (lookup_lt_is_Some_2 (nodes s') (length (nodes s)) ltac:(lia))
    as [nd Hnd].
  exists s, s', h, rnd', nd.
  split; [done|]. split; [done|]. split; [done|]. split; [done|].
  split; [done|]. split; [done|]. split; [done|]. split; [done|].
  split; [lia|]. split; [done|]. split; [|split; [|split]].
  - pose proof (inserted_lookup_S (nodes s') (pred (length (nodes s)))) as H.
    pose proof (inv_head _ _ Hinv).
    replace (S (pred (length (nodes s)))) with (length (nodes s)) in H by lia.
    rewrite Hkeys', Hkeys in H. specialize (H ltac:(lia)).
    rewrite lookup_app_r in H by (rewrite <- Hkeys, length_inserted; lia).
    rewrite <- Hkeys, length_inserted in H.
    replace (pred (length (nodes s)) - pred (length (nodes s)))%nat
      with 0%nat in H by lia.
    simpl in H. injection H as H. unfold nkey, Node_key in H.
    rewrite Hnd in H. simpl in H. done.
  - unfold hgt in Hhgt. rewrite Hnd in Hhgt. simpl in Hhgt. lia.
  - intros Hlt. split; [lia|]. intros l Hl.
    rewrite (Node_Next_link (nodes s') head_ l);
      [| lia | rewrite (inv_head_height _ _ Hinv'); unfold kMaxHeight; lia].
    f_equal. apply Hhead. lia.
  - lia.
Qed.

(** *** Where the seeks land *)

Lemma Seek_spec s k fuel :
  inv (nodes s) (max_height_ s) ->
  (length (inserted (nodes s)) + Z.to_nat kMaxHeight <= fuel)%nat ->
  exists next,
    Seek fuel s k = Some {| node_ := next |} /\ first_ge (nodes s) k next.
Proof.
  intros Hinv Hfuel.
  destruct (FindGreaterOrEqual_spec s k fuel None Hinv Hfuel I)
    as (x & prev' & Hfge & Hx & _).
  exists x. unfold Seek. rewrite Hfge. done.
Qed.

Lemma SeekToLast_spec s fuel :
  inv (nodes s) (max_height_ s) ->
  (length (inserted (nodes s)) + Z.to_nat kMaxHeight <= fuel)%nat ->
  exists p,
    SeekToLast fuel s =
      Some {| node_ := if bool_decide (p = head_) then None else Some p |} /\
    is_last (nodes s) p.
Proof.
  intros Hinv Hfuel.
  destruct (FindLast_spec s fuel Hinv Hfuel) as (p & Hrun & Hp).
  exists p. unfold SeekToLast. rewrite Hrun. done.
Qed.

Lemma Prev_spec s n fuel :
  inv (nodes s) (max_height_ s) ->
  (length (inserted (nodes s)) + Z.to_nat kMaxHeight <= fuel)%nat ->
  is_node (nodes s) n ->
  exists p,
    Prev fuel s {| node_ := Some n |} =
      Some {| node_ := if bool_decide (p = head_) then None else Some p |} /\
    last_lt (nodes s) (nkey (nodes s) n) p.
Proof.
  intros Hinv Hfuel Hn.
  destruct (FindLessThan_spec s (nkey (nodes s) n) fuel Hinv Hfuel)
    as (p & Hrun & Hp).
  exists p. unfold Prev. simpl.
  rewrite Node_key_nkey by (unfold is_node in Hn; lia). simpl.
  rewrite Hrun. done.
Qed.

Lemma Iterator_key_node s n :
  (n < length (nodes s))%nat ->
  Iterator_key s {| node_ := Some n |} = Some (nkey (nodes s) n).
Proof. intros H. unfold Iterator_key. simpl. by apply Node_key_nkey. Qed.


(** *** Seeks and steps on a whole list *)

Lemma built_inv fuel rnd keys s :
  distinct keys ->
  (length keys + Z.to_nat kMaxHeight <= fuel)%nat ->
  built fuel rnd keys s ->
  inv (nodes s) (max_height_ s) /\ inserted (nodes s) = keys.
Proof.
  intros Hd Hfuel (s0 & Hnew & Hall).
  destruct (build_spec fuel rnd keys Hd Hfuel)
    as (s0' & s' & Hnew' & Hall' & Hinv & Hkeys).
  rewrite Hnew in Hnew'. injection Hnew' as <-.
  rewrite Hall in Hall'. injection Hall' as <-. done.
Qed.

Lemma elem_of_keys_node mem keys k :
  inserted mem = keys ->
  k ∈ keys <-> exists z, is_node mem z /\ nkey mem z = k.
Proof. intros <-. apply elem_of_inserted. Qed.

(** [X7]: on the list a sequence of inserts built, [Seek(target)] lands on
    the least key that is not less than the target, and leaves the iterator
    invalid exactly when every key is less than the target (so on every seek
    in an empty list). *)
Theorem Seek_first_at_or_after fuel rnd keys s target :
  distinct keys ->
  (length keys + Z.to_nat kMaxHeight <= fuel)%nat ->
  built fuel rnd keys s ->
  exists it,
    Seek fuel s target = Some it /\
    (Valid it = false <-> forall k, k ∈ keys -> lt k target) /\
    (Valid it = true ->
       exists k, Iterator_key s it = Some k /\ k ∈ keys /\ ~ lt k target /\
         forall k', k' ∈ keys -> ~ lt k' target -> compare_ k k' <= 0).
Proof.
  intros Hd Hfuel Hb.
  destruct (built_inv _ _ _ _ Hd Hfuel Hb) as [Hinv Hkeys].
  destruct (Seek_spec s target fuel Hinv) as (next & Hseek & Hge & Hfirst);
    [by rewrite Hkeys|].
  exists {| node_ := next |}. split; [done|]. unfold Valid. simpl. split.
  - rewrite bool_decide_eq_false. split.
    + intros Hnone k Hk.
      destruct (Z_lt_dec (compare_ k target) 0) as [|Hnlt]; [done|].
      apply (elem_of_keys_node _ _ _ Hkeys) in Hk as (z & Hz & <-).
      destruct (Hfirst z Hz Hnlt) as (y & -> & _). by destruct Hnone.
    + intros Hall Hsome. destruct next as [y|]; [|done].
      destruct (Hge y eq_refl) as [Hy Hnlt]. apply Hnlt, Hall.
      apply (elem_of_keys_node _ _ _ Hkeys). eauto.
  - rewrite bool_decide_eq_true. intros Hsome. destruct next as [y|]; [|done].
    destruct (Hge y eq_refl) as [Hy Hnlt]. exists (nkey (nodes s) y).
    split. { apply Iterator_key_node. unfold is_node in Hy. lia. }
    split. { apply (elem_of_keys_node _ _ _ Hkeys). eauto. }
    split; [done|]. intros k' Hk' Hn'.
    apply (elem_of_keys_node _ _ _ Hkeys) in Hk' as (z & Hz & <-).
    destruct (Hfirst z Hz Hn') as (y' & Hy' & Hle). by injection Hy' as <-.
Qed.

(** [X8]: [SeekToFirst] and [SeekToLast] leave a valid iterator exactly when
    the list is not empty, and then stand on the least and on the greatest
    key. *)
Theorem SeekToFirst_SeekToLast_extremes fuel rnd keys s :
  distinct keys ->
  (length keys + Z.to_nat kMaxHeight <= fuel)%nat ->
  built fuel rnd keys s ->
  exists first last,
    SeekToFirst s = Some first /\
    SeekToLast fuel s = Some last /\
    Valid first = bool_decide (keys <> []) /\
    Valid last = bool_decide (keys <> []) /\
    (keys <> [] ->
       exists lo hi,
         Iterator_key s first = Some lo /\ Iterator_key s last = Some hi /\
         lo ∈ keys /\ hi ∈ keys /\
         forall k, k ∈ keys -> compare_ lo k <= 0 /\ compare_ k hi <= 0).
Proof.
  intros Hd Hfuel Hb.
  destruct (built_inv _ _ _ _ Hd Hfuel Hb) as [Hinv Hkeys].
  assert (Hfuel' : (length (inserted (nodes s)) + Z.to_nat kMaxHeight
                    <= fuel)%nat) by (by rewrite Hkeys).
  set (mem := nodes s) in *.
  pose proof (inv_head_height _ _ Hinv) as Hhead.
  pose proof (inv_head _ _ Hinv) as Hlen.
  destruct (SeekToLast_spec s fuel Hinv Hfuel') as (p & Hlast & Hp1 & Hp2).
  fold mem in Hp1, Hp2.
  exists {| node_ := link mem head_ 0 |},
         {| node_ := if bool_decide (p = head_) then None else Some p |}.
  split.
  { unfold SeekToFirst. fold mem.
    rewrite (Node_Next_link mem head_ 0);
      [done | lia | rewrite Hhead; unfold kMaxHeight; simpl; lia]. }
  split; [exact Hlast|]. unfold Valid. simpl.
  assert (Hnode : keys <> [] -> is_node mem 1).
  { intros Hne. unfold is_node. rewrite <- Hkeys in Hne.
    pose proof (length_inserted mem). destruct (inserted mem); [done|].
    simpl in *. lia. }
  assert (Hempty : keys = [] -> length mem = 1%nat).
  { intros He. rewrite <- Hkeys in He. pose proof (length_inserted mem) as H.
    rewrite He in H. simpl in H. lia. }
  assert (Hfirst : forall z, is_node mem z ->
            exists y, link mem head_ 0 = Some y /\
                      compare_ (nkey mem y) (nkey mem z) <= 0).
  { intros z Hz. apply (inv_no_skip _ _ Hinv); [|done| |by left].
    - rewrite Hhead. unfold kMaxHeight. lia.
    - by destruct (inv_height _ _ Hinv z Hz). }
  destruct (decide (keys = [])) as [He|Hne].
  - rewrite (bool_decide_eq_false_2 (keys <> [])) by (intros H; by apply H).
    split; [|split; [|done]].
    + apply bool_decide_eq_false. intros Hsome.
      destruct (link mem head_ 0) as [y|] eqn:Hy; [|done].
      destruct (inv_link _ _ Hinv _ _ _ Hy) as (Hy1 & _).
      unfold is_node in Hy1. specialize (Hempty He). lia.
    + specialize (Hempty He).
      rewrite (bool_decide_eq_true_2 (p = head_)) by (unfold head_; lia).
      apply bool_decide_eq_false. intros H. by apply H.
  - rewrite (bool_decide_eq_true_2 (keys <> [])) by done.
    destruct (Hfirst 1%nat (Hnode Hne)) as (y & Hy & _).
    destruct (Hp2 1%nat (Hnode Hne)) as (Hph & _).
    rewrite Hy. rewrite (bool_decide_eq_false_2 (p = head_)) by done.
    split; [by apply bool_decide_eq_true|].
    split; [by apply bool_decide_eq_true|].
    intros _. exists (nkey mem y), (nkey mem p).
    destruct (inv_link _ _ Hinv _ _ _ Hy) as (Hy1 & _).
    split. { apply Iterator_key_node. unfold is_node in Hy1. fold mem. lia. }
    split. { by apply Iterator_key_node. }
    split. { apply (elem_of_keys_node _ _ _ Hkeys). eauto. }
    split. { apply (elem_of_keys_node _ _ _ Hkeys). exists p. split; [|done].
             unfold is_node, head_ in *. lia. }
    intros k Hk. apply (elem_of_keys_node _ _ _ Hkeys) in Hk as (z & Hz & <-).
    split.
    + destruct (Hfirst z Hz) as (y' & Hy' & Hle). rewrite Hy in Hy'.
      by injection Hy' as <-.
    + by destruct (Hp2 z Hz).
Qed.

(** The node [Prev] goes to from a node, in the words of the keys. *)
Lemma last_lt_keys mem mh keys k p :
  inv mem mh -> inserted mem = keys -> last_lt mem k p ->
  (p = head_ <-> forall k', k' ∈ keys -> ~ lt k' k) /\
  (p <> head_ ->
     nkey mem p ∈ keys /\ lt (nkey mem p) k /\
     forall k', k' ∈ keys -> lt k' k -> compare_ k' (nkey mem p) <= 0).
Proof.
  intros Hinv Hkeys (Hp1 & Hp2 & Hp3). split.
  - split.
    + intros -> k' Hk' Hlt.
      apply (elem_of_keys_node _ _ _ Hkeys) in Hk' as (z & Hz & <-).
      by destruct (Hp3 z Hz Hlt).
    + intros Hall. destruct (decide (p = head_)) as [|Hne]; [done|].
      destruct Hp2 as [|Hlt]; [done|]. destruct (Hall (nkey mem p)); [|done].
      apply (elem_of_keys_node _ _ _ Hkeys). exists p. split; [|done].
      unfold is_node, head_ in *. lia.
  - intros Hne. destruct Hp2 as [|Hlt]; [done|]. split.
    { apply (elem_of_keys_node _ _ _ Hkeys). exists p. split; [|done].
      unfold is_node, head_ in *. lia. }
    split; [done|]. intros k' Hk' Hlt'.
    apply (elem_of_keys_node _ _ _ Hkeys) in Hk' as (z & Hz & <-).
    by destruct (Hp3 z Hz Hlt').
Qed.

(** Where a seek that left a valid iterator stands. *)
Lemma Seek_valid_node s fuel target it :
  inv (nodes s) (max_height_ s) ->
  (length (inserted (nodes s)) + Z.to_nat kMaxHeight <= fuel)%nat ->
  Seek fuel s target = Some it -> Valid it = true ->
  exists n, it = {| node_ := Some n |} /\ is_node (nodes s) n.
Proof.
  intros Hinv Hfuel Hseek Hvalid.
  destruct (Seek_spec s target fuel Hinv Hfuel) as (next & Hseek' & Hge & _).
  rewrite Hseek in Hseek'. injection Hseek' as ->.
  unfold Valid in Hvalid. simpl in Hvalid.
  apply bool_decide_eq_true in Hvalid. destruct next as [n|]; [|done].
  exists n. split; [done|]. by destruct (Hge n eq_refl).
Qed.

(** [X9]: from wherever a seek left a valid iterator, at a key k, [Prev]
    moves to the greatest key that is less than k, and leaves the iterator
    invalid exactly when no key is less than k. *)
Theorem Prev_greatest_smaller fuel rnd keys s target it k :
  distinct keys ->
  (length keys + Z.to_nat kMaxHeight <= fuel)%nat ->
  built fuel rnd keys s ->
  Seek fuel s target = Some it ->
  Iterator_key s it = Some k ->
  exists it',
    Prev fuel s it = Some it' /\
    (Valid it' = false <-> forall k', k' ∈ keys -> ~ lt k' k) /\
    (Valid it' = true ->
       exists kp, Iterator_key s it' = Some kp /\ kp ∈ keys /\ lt kp k /\
         forall k', k' ∈ keys -> lt k' k -> compare_ k' kp <= 0).
Proof.
  intros Hd Hfuel Hb Hseek Hkey.
  destruct (built_inv _ _ _ _ Hd Hfuel Hb) as [Hinv Hkeys].
  assert (Hfuel' : (length (inserted (nodes s)) + Z.to_nat kMaxHeight
                    <= fuel)%nat) by (by rewrite Hkeys).
  assert (Hvalid : Valid it = true).
  { unfold Iterator_key in Hkey. by destruct (Valid it). }
  destruct (Seek_valid_node s fuel target it Hinv Hfuel' Hseek Hvalid)
    as (n & -> & Hn).
  rewrite Iterator_key_node in Hkey by (unfold is_node in Hn; lia).
  injection Hkey as <-.
  destruct (Prev_spec s n fuel Hinv Hfuel' Hn) as (p & Hprev & Hp).
  destruct (last_lt_keys _ _ _ _ _ Hinv Hkeys Hp) as [Hhead Hnode].
  eexists. split; [exact Hprev|]. unfold Valid. simpl.
  destruct (decide (p = head_)) as [Hp0|Hp0].
  - rewrite (bool_decide_eq_true_2 (p = head_)) by done. simpl. split.
    + split; [intros _; by apply Hhead | done].
    + done.
  - rewrite (bool_decide_eq_false_2 (p = head_)) by done. simpl. split.
    + split; [done|]. intros Hall. by apply Hhead in Hall.
    + intros _. destruct (Hnode Hp0) as (H1 & H2 & H3).
      exists (nkey (nodes s) p). split; [|done].
      apply Iterator_key_node. by destruct Hp.
Qed.

(** [X10]: [Next] and [Prev] undo each other: from a valid position, [Next]
    followed by [Prev] comes back to it unless [Next] ran off the end, and
    [Prev] followed by [Next] comes back to it unless [Prev] ran off the
    start. *)
Theorem Next_Prev_inverse fuel rnd keys s target it :
  distinct keys ->
  (length keys + Z.to_nat kMaxHeight <= fuel)%nat ->
  built fuel rnd keys s ->
  Seek fuel s target = Some it ->
  Valid it = true ->
  (exists it', Next s it = Some it' /\
               (Valid it' = true -> Prev fuel s it' = Some it)) /\
  (exists it', Prev fuel s it = Some it' /\
               (Valid it' = true -> Next s it' = Some it)).
Proof.
  intros Hd Hfuel Hb Hseek Hvalid.
  destruct (built_inv _ _ _ _ Hd Hfuel Hb) as [Hinv Hkeys].
  assert (Hfuel' : (length (inserted (nodes s)) + Z.to_nat kMaxHeight
                    <= fuel)%nat) by (by rewrite Hkeys).
  destruct (Seek_valid_node s fuel target it Hinv Hfuel' Hseek Hvalid)
    as (n & -> & Hn).
  set (mem := nodes s) in *.
  assert (Hh : forall z, is_node mem z -> (0 < hgt mem z)%nat).
  { intros z Hz. destruct (inv_height _ _ Hinv z Hz). lia. }
  assert (Hnext : forall z, is_node mem z ->
            Next s {| node_ := Some z |} = Some {| node_ := link mem z 0 |}).
  { intros z Hz. unfold Next. simpl. fold mem.
    rewrite (Node_Next_link mem z 0) by (try lia; by apply Hh).
    done. }
  split.
  - eexists. split; [by apply Hnext|]. unfold Valid. simpl.
    intros Hv. apply bool_decide_eq_true in Hv.
    destruct (link mem n 0) as [n'|] eqn:Hn'; [|done].
    destruct (inv_link _ _ Hinv _ _ _ Hn') as (Hn'1 & _ & Hlt).
    assert (Hne : n <> head_) by (unfold is_node, head_ in *; lia).
    specialize (Hlt Hne).
    destruct (Prev_spec s n' fuel Hinv Hfuel' Hn'1) as (p & -> & Hp1 & Hp2 & Hp3).
    fold mem in Hp1, Hp2, Hp3.
    destruct (Hp3 n Hn Hlt) as (Hp0 & Hle).
    destruct Hp2 as [|Hp2]; [done|].
    rewrite bool_decide_false by done. do 3 f_equal.
    destruct (decide (p = n)) as [|Hpn]; [done|]. exfalso.
    assert (Hpnode : is_node mem p) by (unfold is_node, head_ in *; lia).
    destruct (lt_total (nkey mem n) (nkey mem p)) as [Hlt'|Hlt'].
    + by apply (inv_distinct _ _ Hinv).
    + destruct (inv_no_skip _ _ Hinv n 0%nat p) as (y & Hy & Hle');
        [by apply Hh | done | by apply Hh | by right |].
      rewrite Hn' in Hy. injection Hy as <-.
      by apply le_not_lt in Hle'.
    + by apply le_not_lt in Hle.
  - destruct (Prev_spec s n fuel Hinv Hfuel' Hn) as (p & -> & Hp1 & Hp2 & Hp3).
    fold mem in Hp1, Hp2, Hp3.
    eexists. split; [done|]. unfold Valid. simpl. intros Hv.
    destruct (decide (p = head_)) as [Hp0|Hp0].
    { rewrite (bool_decide_eq_true_2 (p = head_)) in Hv by done. done. }
    rewrite (bool_decide_eq_false_2 (p = head_)) by done.
    destruct Hp2 as [|Hp2]; [done|].
    assert (Hpnode : is_node mem p) by (unfold is_node, head_ in *; lia).
    rewrite Hnext by done. do 2 f_equal.
    destruct (inv_no_skip _ _ Hinv p 0%nat n) as (y & Hy & Hle);
      [by apply Hh | done | by apply Hh | by right |].
    rewrite Hy. f_equal.
    destruct (decide (y = n)) as [|Hyn]; [done|]. exfalso.
    destruct (inv_link _ _ Hinv _ _ _ Hy) as (Hy1 & _ & Hlt).
    specialize (Hlt Hp0).
    destruct (lt_total (nkey mem y) (nkey mem n)) as [Hlt'|Hlt'].
    + by apply (inv_distinct _ _ Hinv).
    + destruct (Hp3 y Hy1 Hlt') as (_ & Hle').
      by apply le_not_lt in Hle'.
    + by apply le_not_lt in Hle.
Qed.

(** [X11]: [Insert] of a key that compares equal to one in the list trips the
    assertion of [Insert]: the search lands on the key that is there, [Equal]
    is true of the two, and the call does not return. *)
Theorem Insert_duplicate_asserts fuel rnd keys s k k' :
  distinct keys ->
  (length keys + Z.to_nat kMaxHeight <= fuel)%nat ->
  built fuel rnd keys s ->
  k' ∈ keys -> compare_ k k' = 0 ->
  (exists x prev xk,
     FindGreaterOrEqual fuel s k (Some (replicate (Z.to_nat kMaxHeight) None))
       = Some (Some x, prev) /\
     Node_key (nodes s) x = Some xk /\ Equal k xk = true) /\
  Insert fuel s k = None.
Proof.
  intros Hd Hfuel Hb Hk' Heq.
  destruct (built_inv _ _ _ _ Hd Hfuel Hb) as [Hinv Hkeys].
  destruct (FindGreaterOrEqual_spec s k fuel
              (Some (replicate (Z.to_nat kMaxHeight) None)) Hinv)
    as (x & prev' & Hfge & (Hge & Hfirst) & _);
    [by rewrite Hkeys | by rewrite length_replicate |].
  apply (elem_of_keys_node _ _ _ Hkeys) in Hk' as (z & Hz & <-).
  assert (Hnlt : ~ lt (nkey (nodes s) z) k).
  { unfold lt. apply compare_eq_sym in Heq. lia. }
  destruct (Hfirst z Hz Hnlt) as (y & -> & Hle).
  destruct (Hge y eq_refl) as [Hy Hny].
  assert (Hyk : compare_ k (nkey (nodes s) y) = 0).
  { apply not_lt_le in Hny.
    assert (compare_ (nkey (nodes s) y) k <= 0).
    { eapply compare_trans; [exact Hle|]. apply compare_eq_sym in Heq. lia. }
    apply le_not_lt in H. unfold lt in H. lia. }
  assert (Hkey : Node_key (nodes s) y = Some (nkey (nodes s) y)).
  { apply Node_key_nkey. unfold is_node in Hy. lia. }
  assert (Hequal : Equal k (nkey (nodes s) y) = true).
  { unfold Equal. by apply Z.eqb_eq. }
  split.
  - exists y, prev', (nkey (nodes s) y). done.
  - unfold Insert. rewrite Hfge. simpl. destruct prev' as [a|]; [|done].
    simpl. rewrite Hkey. simpl. rewrite Hequal. done.
Qed.

(** *** What [Insert] keeps *)

Lemma same_nodes_refl mem : same_nodes mem mem.
Proof. split; [done|]. intros x nd H. by exists nd. Qed.

Lemma same_nodes_trans mem1 mem2 mem3 :
  same_nodes mem1 mem2 -> same_nodes mem2 mem3 -> same_nodes mem1 mem3.
Proof.
  intros [Hl1 H1] [Hl2 H2]. split; [congruence|].
  intros x nd Hx. destruct (H1 x nd Hx) as (nd' & Hx' & Hk & Hh).
  destruct (H2 x nd' Hx') as (nd'' & Hx'' & Hk' & Hh').
  exists nd''. split; [done|]. split; congruence.
Qed.

Lemma Node_SetNext_same_nodes mem x n y mem' :
  Node_SetNext mem x n y = Some mem' -> same_nodes mem mem'.
Proof.
  unfold Node_SetNext, array_set. intros H.
  destruct (0 <=? n); simpl in H; [|done].
  destruct (mem !! x) as [nd|] eqn:Hx; simpl in H; [|done].
  destruct (n <? Z.of_nat (length (next_ nd))); simpl in H; [|done].
  injection H as <-. split; [by rewrite length_insert|].
  intros z nd' Hz. destruct (decide (z = x)) as [->|Hne].
  - rewrite list_lookup_insert_eq by (by eapply lookup_lt_Some).
    eexists. split; [done|]. simpl.
    assert (nd' = nd) as -> by congruence.
    split; [done|]. by rewrite length_insert.
  - rewrite list_lookup_insert_ne by done. by exists nd'.
Qed.

Lemma for_count_preserves {A} (R : A -> A -> Prop) (body : Z -> A -> option A) :
  (forall a, R a a) ->
  (forall a b c, R a b -> R b c -> R a c) ->
  (forall i a a', body i a = Some a' -> R a a') ->
  forall n i a a', for_count n i body a = Some a' -> R a a'.
Proof.
  intros Hrefl Htrans Hbody. induction n as [|n IH]; intros i a a' H.
  - simpl in H. injection H as <-. apply Hrefl.
  - simpl in H. destruct (body i a) as [a1|] eqn:E; simpl in H; [|done].
    eapply Htrans; [by eapply Hbody | by eapply IH].
Qed.

Lemma Insert_link_same_nodes x prev i mem mem' :
  Insert_link x prev i mem = Some mem' -> same_nodes mem mem'.
Proof.
  unfold Insert_link. intros H.
  destruct (array_get prev i) as [[p|]|]; simpl in H; try done.
  destruct (Node_Next mem p i) as [succ|]; simpl in H; [|done].
  destruct (Node_SetNext mem x i succ) as [mem1|] eqn:E1; simpl in H; [|done].
  eapply same_nodes_trans; by eapply Node_SetNext_same_nodes.
Qed.

(** What a call of [Insert] that returned did to the arena. *)
Lemma Insert_same_nodes fuel s k s' :
  Insert fuel s k = Some s' ->
  exists h, same_nodes (nodes s ++ [NewNode k h]) (nodes s').
Proof.
  unfold Insert. intros H.
  destruct (FindGreaterOrEqual _ _ _ _) as [[x [prev|]]|]; simpl in H;
    try done.
  destruct (match x with Some _ => _ | None => _ end) as [dup|]; simpl in H;
    [|done].
  destruct (negb dup); simpl in H; [|done].
  destruct (RandomHeight (rnd_ s)) as [[h rnd']|]; simpl in H; [|done].
  destruct (if GetMaxHeight s <? h then _ else _) as [[prev' mh]|]; simpl in H;
    [|done].
  destruct (for_range 0 h _ _) as [mem'|] eqn:E; simpl in H; [|done].
  injection H as <-. simpl. exists h.
  unfold for_range in E.
  eapply (for_count_preserves same_nodes); [..|exact E].
  - apply same_nodes_refl.
  - apply same_nodes_trans.
  - intros i a a'. apply Insert_link_same_nodes.
Qed.

(** [X12]: [Insert] allocates one node, for the new key, and touches no
    other: every node that was in the arena is still there, at its place,
    with its key and its height.  Nodes are never deleted, and nothing of a
    node but its links changes once it is in the list. *)
Theorem Insert_keeps_nodes fuel s k s' :
  Insert fuel s k = Some s' ->
  length (nodes s') = S (length (nodes s)) /\
  (forall x nd, nodes s !! x = Some nd ->
     exists nd', nodes s' !! x = Some nd' /\ key nd' = key nd /\
                 length (next_ nd') = length (next_ nd)) /\
  (exists nd, nodes s' !! length (nodes s) = Some nd /\ key nd = k).
Proof.
  intros H. destruct (Insert_same_nodes _ _ _ _ H) as (h & Hlen & Hsame).
  rewrite length_app in Hlen. simpl in Hlen. split; [lia|]. split.
  - intros x nd Hx. apply Hsame. by apply lookup_app_l_Some.
  - destruct (Hsame (length (nodes s)) (NewNode k h)) as (nd & Hnd & Hk & _).
    { by rewrite list_lookup_middle. }
    by exists nd.
Qed.

Lemma Insert_hgt_old fuel s k s' x :
  Insert fuel s k = Some s' -> (x < length (nodes s))%nat ->
  hgt (nodes s') x = hgt (nodes s) x.
Proof.
  intros H Hx. destruct (Insert_same_nodes _ _ _ _ H) as (h & _ & Hsame).
  destruct (lookup_lt_is_Some_2 (nodes s) x Hx) as [nd Hnd].
  destruct (Hsame x nd) as (nd' & Hnd' & _ & Hh).
  { by apply lookup_app_l_Some. }
  unfold hgt. rewrite Hnd, Hnd'. simpl. done.
Qed.

Lemma inv_tallest_new : tallest [NewNode key0 kMaxHeight] 1.
Proof.
  split; [|by left]. intros z Hz. unfold is_node in Hz. simpl in Hz. lia.
Qed.

Lemma InsertAll_tallest fuel keys : forall s s',
  inv (nodes s) (max_height_ s) ->
  distinct (inserted (nodes s) ++ keys) ->
  (length (inserted (nodes s)) + length keys + Z.to_nat kMaxHeight <= fuel)%nat ->
  tallest (nodes s) (max_height_ s) ->
  InsertAll fuel s keys = Some s' ->
  tallest (nodes s') (max_height_ s').
Proof.
  induction keys as [|k keys IH]; intros s s' Hinv Hd Hfuel Ht Hall.
  - simpl in Hall. by injection Hall as <-.
  - simpl in Hfuel, Hall.
    destruct (Insert_spec s k fuel Hinv)
      as (h & rnd' & s1 & _ & Hh & Hins & Hinv1 & Hmh1 & _ & Hkeys1 & Hlen1
          & Hhgt1 & _);
      [|lia|].
    { intros z Hz Heq. apply compare_eq_sym in Heq. revert Heq.
      apply (Hd (pred z) (length (inserted (nodes s)))).
      - rewrite lookup_app_l by (rewrite length_inserted; unfold is_node in Hz; lia).
        by apply inserted_lookup.
      - by rewrite list_lookup_middle.
      - rewrite length_inserted. unfold is_node in Hz. lia. }
    rewrite Hins in Hall. simpl in Hall.
    apply (IH s1 s' Hinv1); [| |  | done].
    { rewrite Hkeys1, <- app_assoc. done. }
    { rewrite Hkeys1, length_app. simpl. lia. }
    pose proof (inv_head _ _ Hinv) as Hhead.
    split.
    + intros z Hz. by destruct (inv_height _ _ Hinv1 z Hz).
    + rewrite Hmh1. destruct Ht as [_ Ht].
      destruct (Z_lt_dec (max_height_ s) h) as [Hlt|Hge].
      * right. exists (length (nodes s)). split; [unfold is_node; lia|].
        rewrite Hhgt1. lia.
      * replace (Z.max (max_height_ s) h) with (max_height_ s) by lia.
        destruct Ht as [|(z & Hz & Hzh)]; [by left|]. right.
        exists z. split; [unfold is_node in *; lia|].
        rewrite (Insert_hgt_old _ _ _ _ _ Hins) by (unfold is_node in Hz; lia).
        done.
Qed.

(** [X13]: on the list a sequence of inserts built, [max_height_] is the
    height of the tallest node (1 when the list is empty), and the head has
    no link at a level that is not below it. *)
Theorem max_height_tallest fuel rnd keys s :
  distinct keys ->
  (length keys + Z.to_nat kMaxHeight <= fuel)%nat ->
  built fuel rnd keys s ->
  1 <= max_height_ s <= kMaxHeight /\
  tallest (nodes s) (max_height_ s) /\
  (forall l, max_height_ s <= l < kMaxHeight ->
     Node_Next (nodes s) head_ l = Some None).
Proof.
  intros Hd Hfuel Hb.
  destruct (built_inv _ _ _ _ Hd Hfuel Hb) as [Hinv Hkeys].
  split; [apply (inv_max_height _ _ Hinv)|]. split.
  - destruct Hb as (s0 & Hnew & Hall).
    rewrite SkipList_new_spec in Hnew. injection Hnew as <-.
    eapply (InsertAll_tallest fuel keys); [| | | |exact Hall]; simpl.
    + apply inv_new.
    + done.
    + lia.
    + apply inv_tallest_new.
  - intros l Hl.
    pose proof (inv_max_height _ _ Hinv).
    rewrite Node_Next_link;
      [| lia | rewrite (inv_head_height _ _ Hinv); lia].
    f_equal. destruct (link (nodes s) head_ (Z.to_nat l)) as [y|] eqn:Hy;
      [|done].
    destruct (inv_link _ _ Hinv _ _ _ Hy) as (Hy1 & Hy2 & _).
    destruct (inv_height _ _ Hinv y Hy1). lia.
Qed.

(** *** The backward scan *)

Lemma elem_of_rev {A} (l : list A) x : x ∈ rev l <-> x ∈ l.
Proof. rewrite !list_elem_of_In. symmetry. apply in_rev. Qed.

Lemma StronglySorted_flip_rev (l : list Key) :
  StronglySorted (flip lt) l -> StronglySorted lt (rev l).
Proof.
  induction 1 as [|x l Hl IH Hx]; [constructor|]. simpl.
  apply StronglySorted_app_2; [|done|repeat constructor].
  intros x1 x2 Hx1 Hx2. apply list_elem_of_singleton in Hx2 as ->.
  rewrite Forall_forall in Hx. apply (proj1 (elem_of_rev _ _)) in Hx1.
  by apply (Hx x1).
Qed.

Lemma scan_back_spec s fuel :
  inv (nodes s) (max_height_ s) ->
  (length (inserted (nodes s)) + Z.to_nat kMaxHeight <= fuel)%nat ->
  forall steps n,
    is_node (nodes s) n ->
    (length (List.filter (fun k => (compare_ k (nkey (nodes s) n) <=? 0)%Z)
               (inserted (nodes s))) < steps)%nat ->
    exists visited,
      scan_back steps fuel s {| node_ := Some n |} = Some visited /\
      StronglySorted (flip lt) visited /\
      (forall k, k ∈ visited <->
         k ∈ inserted (nodes s) /\ compare_ k (nkey (nodes s) n) <= 0).
Proof.
  intros Hinv Hfuel. set (mem := nodes s) in *.
  induction steps as [|steps IH]; intros n Hn Hsteps; [lia|].
  simpl.
  rewrite Iterator_key_node by (unfold is_node in Hn; fold mem; lia).
  simpl. fold mem.
  destruct (Prev_spec s n fuel Hinv Hfuel Hn) as (p & -> & Hp1 & Hp2 & Hp3).
  fold mem in Hp1, Hp2, Hp3. simpl.
  assert (Hself : nkey mem n ∈ inserted mem).
  { apply elem_of_inserted. by exists n. }
  assert (Hother : forall z, is_node mem z ->
            compare_ (nkey mem z) (nkey mem n) <= 0 -> z <> n ->
            lt (nkey mem z) (nkey mem n)).
  { intros z Hz Hle Hne.
    destruct (lt_total (nkey mem z) (nkey mem n)) as [|Hlt]; [|done|].
    - by apply (inv_distinct _ _ Hinv).
    - by apply le_not_lt in Hle. }
  destruct (decide (p = head_)) as [Hp0|Hp0].
  - rewrite (bool_decide_eq_true_2 (p = head_)) by done.
    destruct steps as [|steps].
    { assert (0 < length (List.filter
                            (fun k => (compare_ k (nkey mem n) <=? 0)%Z)
                            (inserted mem)))%nat; [|lia].
      destruct (List.filter _ _) eqn:E; [|simpl; lia].
      assert (nkey mem n ∈ List.filter
                (fun k => (compare_ k (nkey mem n) <=? 0)%Z) (inserted mem)).
      { apply list_elem_of_In, filter_In. split; [by apply list_elem_of_In|].
        apply Z.leb_le. by rewrite compare_refl. }
      rewrite E in H. by apply elem_of_nil in H. }
    simpl. eexists. split; [reflexivity|]. split; [repeat constructor|].
    intros k. rewrite list_elem_of_singleton. split.
    + intros ->. split; [done|]. by rewrite compare_refl.
    + intros [Hk Hle]. apply elem_of_inserted in Hk as (z & Hz & <-).
      destruct (decide (z = n)) as [->|Hne]; [done|].
      by destruct (Hp3 z Hz (Hother z Hz Hle Hne)).
  - rewrite (bool_decide_eq_false_2 (p = head_)) by done.
    destruct Hp2 as [|Hlt]; [done|].
    assert (Hpnode : is_node mem p) by (unfold is_node, head_ in *; lia).
    destruct (IH p Hpnode) as (rest & -> & Hsorted & Hmem).
    { eapply Nat.lt_le_trans; [|apply Nat.lt_succ_r, Hsteps].
      apply filter_length_lt.
      - intros a _ Ha. apply Z.leb_le. apply Z.leb_le in Ha.
        eapply compare_trans; [exact Ha|]. unfold lt in Hlt. lia.
      - exists (nkey mem n). split; [done|]. split.
        + apply Z.leb_le. by rewrite compare_refl.
        + apply Z.leb_gt. apply compare_antisym in Hlt. lia. }
    simpl. eexists. split; [reflexivity|]. split.
    + constructor; [done|]. apply Forall_forall. intros k Hk.
      apply Hmem in Hk as [_ Hle]. unfold flip. by eapply le_lt_trans.
    + intros k. rewrite elem_of_cons, Hmem. split.
      * intros [-> | [Hk Hle]].
        -- split; [done|]. by rewrite compare_refl.
        -- split; [done|]. unfold lt in Hlt.
           eapply compare_trans; [exact Hle | lia].
      * intros [Hk Hle]. pose proof Hk as Hk'.
        apply elem_of_inserted in Hk' as (z & Hz & <-).
        destruct (decide (z = n)) as [->|Hne]; [by left|]. right.
        split; [done|]. by destruct (Hp3 z Hz (Hother z Hz Hle Hne)).
Qed.

(** [X14]: the scan from [SeekToLast] by [Prev] visits the keys the scan
    from [SeekToFirst] by [Next] visits, in the opposite order. *)
Theorem scan_back_reverses fuel rnd keys s :
  distinct keys ->
  (length keys + Z.to_nat kMaxHeight <= fuel)%nat ->
  built fuel rnd keys s ->
  exists first forward last backward,
    SeekToFirst s = Some first /\ scan fuel s first = Some forward /\
    SeekToLast fuel s = Some last /\
    scan_back fuel fuel s last = Some backward /\
    backward = rev forward /\
    forward ≡ₚ keys.
Proof.
  intros Hd Hfuel Hb.
  destruct (built_inv _ _ _ _ Hd Hfuel Hb) as [Hinv Hkeys].
  assert (Hfuel' : (length (inserted (nodes s)) + Z.to_nat kMaxHeight
                    <= fuel)%nat) by (by rewrite Hkeys).
  set (mem := nodes s) in *.
  pose proof (inv_head_height _ _ Hinv) as Hhead.
  destruct (scan_spec s fuel Hinv head_) as (forward & Hscan & Hsorted & Hmem).
  { fold mem. rewrite Hhead. unfold kMaxHeight. lia. }
  { fold mem. pose proof (rank_le_inserted mem head_).
    unfold kMaxHeight in *. lia. }
  fold mem in Hmem.
  assert (Hperm : forward ≡ₚ keys).
  { apply NoDup_Permutation.
    + by apply StronglySorted_lt_NoDup.
    + by apply distinct_NoDup.
    + intros k. rewrite Hmem, Hkeys. split; [by intros [? _]|].
      intros Hk. split; [done | by left]. }
  destruct (SeekToLast_spec s fuel Hinv Hfuel') as (p & Hlast & Hp1 & Hp2).
  fold mem in Hp1, Hp2.
  assert (Hback : exists backward,
            scan_back fuel fuel s
              {| node_ := if bool_decide (p = head_) then None else Some p |}
              = Some backward /\
            StronglySorted (flip lt) backward /\
            forall k, k ∈ backward <-> k ∈ keys).
  { destruct (decide (p = head_)) as [Hp0|Hp0].
    - rewrite (bool_decide_eq_true_2 (p = head_)) by done.
      destruct fuel as [|fuel']; [unfold kMaxHeight in *; lia|].
      exists []. split; [done|]. split; [constructor|].
      intros k. split; [by intros ?%elem_of_nil|]. intros Hk.
      apply (elem_of_keys_node _ _ _ Hkeys) in Hk as (z & Hz & _).
      by destruct (Hp2 z Hz).
    - rewrite (bool_decide_eq_false_2 (p = head_)) by done.
      assert (Hpnode : is_node mem p) by (unfold is_node, head_ in *; lia).
      destruct (scan_back_spec s fuel Hinv Hfuel' fuel p Hpnode)
        as (backward & Hrun & Hs & Hm).
      { eapply Nat.le_lt_trans; [apply List.filter_length_le|].
        fold mem. rewrite Hkeys. unfold kMaxHeight in *. lia. }
      exists backward. split; [done|]. split; [done|].
      intros k. rewrite Hm. fold mem. rewrite Hkeys. split; [by intros [? _]|].
      intros Hk. split; [done|].
      apply (elem_of_keys_node _ _ _ Hkeys) in Hk as (z & Hz & <-).
      by destruct (Hp2 z Hz). }
  destruct Hback as (backward & Hrun & Hs & Hm).
  exists {| node_ := link mem head_ 0 |}, forward,
         {| node_ := if bool_decide (p = head_) then None else Some p |},
         backward.
  split.
  { unfold SeekToFirst. fold mem.
    rewrite (Node_Next_link mem head_ 0);
      [done | lia | rewrite Hhead; unfold kMaxHeight; simpl; lia]. }
  split; [done|]. split; [exact Hlast|]. split; [exact Hrun|].
  split; [|done].
  apply StronglySorted_flip_rev in Hs.
  rewrite <- (rev_involutive backward). f_equal.
  apply (StronglySorted_unique_strong lt); [|done|done|].
  - intros x1 x2 _ _ H1 H2. destruct (lt_irrefl x1). by eapply lt_trans.
  - apply NoDup_Permutation.
    + by apply StronglySorted_lt_NoDup.
    + by apply StronglySorted_lt_NoDup.
    + intros k. rewrite elem_of_rev, Hm, Hmem, Hkeys. split; [|by intros [? _]].
      intros Hk. split; [done | by left].
Qed.

(** *** The levels *)

(** [X24]: on the list a sequence of inserts built, the link of a node at a
    level it has leads to the next node, in the order of the keys, among the
    nodes that have that level, and is null when there is none: each level is
    the sorted list of the nodes tall enough for it, and so a sublist of the
    level below. *)
Theorem level_links_sorted fuel rnd keys s x l :
  distinct keys ->
  (length keys + Z.to_nat kMaxHeight <= fuel)%nat ->
  built fuel rnd keys s ->
  (x < length (nodes s))%nat ->
  (l < hgt (nodes s) x)%nat ->
  exists next,
    Node_Next (nodes s) x (Z.of_nat l) = Some next /\
    (forall y, next = Some y ->
       is_node (nodes s) y /\ (l < hgt (nodes s) y)%nat /\
       before (nodes s) x (nkey (nodes s) y)) /\
    (forall z, is_node (nodes s) z -> (l < hgt (nodes s) z)%nat ->
       before (nodes s) x (nkey (nodes s) z) ->
       exists y, next = Some y /\
                 compare_ (nkey (nodes s) y) (nkey (nodes s) z) <= 0).
Proof.
  intros Hd Hfuel Hb Hx Hl.
  destruct (built_inv _ _ _ _ Hd Hfuel Hb) as [Hinv Hkeys].
  exists (link (nodes s) x l). split.
  { rewrite Node_Next_link by (rewrite ?Nat2Z.id; lia).
    by rewrite Nat2Z.id. }
  split.
  - intros y Hy. destruct (inv_link _ _ Hinv _ _ _ Hy) as (Hy1 & Hy2 & Hy3).
    split; [done|]. split; [done|].
    destruct (decide (x = head_)) as [|Hne]; [by left|]. right. by apply Hy3.
  - intros z Hz Hzl Hbefore. by apply (inv_no_skip _ _ Hinv).
Qed.
End Proofs.

(** *** Integer keys *)

#[local] Existing Instance Z_comparator.
#[local] Existing Instance Z_head_key.
#[local] Existing Instance lehmer.

Lemma cmpZ_lt (a b : Z) : compare_ a b < 0 <-> a < b.
Proof.
  unfold compare_, Z_comparator, cmpZ.
  destruct (Z.ltb_spec a b), (Z.ltb_spec b a); lia.
Qed.

Lemma cmpZ_le (a b : Z) : compare_ a b <= 0 <-> a <= b.
Proof.
  unfold compare_, Z_comparator, cmpZ.
  destruct (Z.ltb_spec a b), (Z.ltb_spec b a); lia.
Qed.

Lemma cmpZ_eq (a b : Z) : compare_ a b = 0 <-> a = b.
Proof.
  unfold compare_, Z_comparator, cmpZ.
  destruct (Z.ltb_spec a b), (Z.ltb_spec b a); lia.
Qed.

Lemma cmpZ_antisym (a b : Z) : compare_ a b < 0 <-> 0 < compare_ b a.
Proof.
  unfold compare_, Z_comparator, cmpZ.
  destruct (Z.ltb_spec a b), (Z.ltb_spec b a); lia.
Qed.

Lemma cmpZ_trans (a b c : Z) :
  compare_ a b <= 0 -> compare_ b c <= 0 -> compare_ a c <= 0.
Proof. rewrite !cmpZ_le. lia. Qed.

Lemma cmpZ_distinct (keys : list Z) : NoDup keys -> distinct keys.
Proof.
  intros H i j a b Hi Hj Hne Heq. apply cmpZ_eq in Heq as ->.
  apply Hne. by eapply NoDup_lookup.
Qed.

(** [C8]: after 5, 1, 9 and 3 have been inserted into an empty list, whatever
    heights the random source gives the nodes, [Seek(4)] lands on the key 5,
    [SeekToLast] on the key 9, and [Prev] from there on the key 5. *)
Theorem Seek_SeekToLast_Prev_example {Random : Type}
    {random : RandomSource Random} (rnd : Random) (fuel : nat) :
  (16 <= fuel)%nat ->
  exists s0 s it4 it9 it5,
    SkipList_new rnd = Some s0 /\
    InsertAll fuel s0 [5; 1; 9; 3] = Some s /\
    Seek fuel s 4 = Some it4 /\ Iterator_key s it4 = Some 5 /\
    SeekToLast fuel s = Some it9 /\ Iterator_key s it9 = Some 9 /\
    Prev fuel s it9 = Some it5 /\ Iterator_key s it5 = Some 5.
Proof.
  intros Hfuel.
  destruct (build_spec cmpZ_antisym cmpZ_trans fuel rnd [5; 1; 9; 3])
    as (s0 & s & Hnew & Hall & Hinv & Hkeys).
  { apply cmpZ_distinct. apply (bool_decide_unpack _). vm_compute. exact I. }
  { unfold kMaxHeight. simpl. lia. }
  assert (Hfuel' : (length (inserted (nodes s)) + Z.to_nat kMaxHeight
                    <= fuel)%nat)
    by (rewrite Hkeys; unfold kMaxHeight; simpl; lia).
  (* every node holds one of the four keys, and each key is in a node *)
  assert (Hnode : forall z, is_node (nodes s) z ->
            nkey (nodes s) z ∈ [5; 1; 9; 3]).
  { intros z Hz. rewrite <- Hkeys. apply (proj2 (elem_of_inserted _ _)).
    by exists z. }
  assert (Hkey : forall k, k ∈ [5; 1; 9; 3] ->
            exists z, is_node (nodes s) z /\ nkey (nodes s) z = k).
  { intros k Hk. rewrite <- Hkeys in Hk.
    by apply (proj1 (elem_of_inserted _ _)) in Hk. }
  destruct (Seek_spec cmpZ_antisym cmpZ_trans s 4 fuel Hinv Hfuel')
    as (next & Hseek & Hge1 & Hge2).
  destruct (SeekToLast_spec cmpZ_antisym cmpZ_trans s fuel Hinv Hfuel')
    as (p & Hlast & Hp & Hmax).
  (* Seek(4) *)
  destruct (Hkey 5 ltac:(repeat constructor)) as (z5 & Hz5 & Hk5).
  destruct (Hge2 z5 Hz5) as (y & -> & Hy5).
  { unfold lt. rewrite Hk5, cmpZ_lt. lia. }
  destruct (Hge1 y eq_refl) as [Hy Hy4].
  rewrite Hk5, cmpZ_le in Hy5. unfold lt in Hy4. rewrite cmpZ_lt in Hy4.
  assert (Ey : nkey (nodes s) y = 5).
  { pose proof (Hnode y Hy) as Hin.
    repeat (apply elem_of_cons in Hin as [Hin | Hin]; [lia|]).
    by apply elem_of_nil in Hin. }
  (* SeekToLast *)
  destruct (Hkey 9 ltac:(repeat constructor)) as (z9 & Hz9 & Hk9).
  destruct (Hmax z9 Hz9) as [Hp0 Hp9].
  rewrite Hk9, cmpZ_le in Hp9.
  assert (Hpn : is_node (nodes s) p) by (unfold is_node, head_ in *; lia).
  assert (Ep : nkey (nodes s) p = 9).
  { pose proof (Hnode p Hpn) as Hin.
    repeat (apply elem_of_cons in Hin as [Hin | Hin]; [lia|]).
    by apply elem_of_nil in Hin. }
  rewrite bool_decide_eq_false_2 in Hlast by done.
  (* Prev *)
  destruct (Prev_spec cmpZ_antisym cmpZ_trans s p fuel Hinv Hfuel' Hpn)
    as (q & Hprev & Hq & Hqb & Hqmax).
  rewrite Ep in Hqb, Hqmax.
  destruct (Hqmax z5 Hz5) as [Hq0 Hq5].
  { unfold lt. rewrite Hk5, cmpZ_lt. lia. }
  rewrite Hk5, cmpZ_le in Hq5.
  destruct Hqb as [? | Hq9]; [done|]. unfold lt in Hq9. rewrite cmpZ_lt in Hq9.
  assert (Hqn : is_node (nodes s) q) by (unfold is_node, head_ in *; lia).
  assert (Eq : nkey (nodes s) q = 5).
  { pose proof (Hnode q Hqn) as Hin.
    repeat (apply elem_of_cons in Hin as [Hin | Hin]; [lia|]).
    by apply elem_of_nil in Hin. }
  rewrite bool_decide_eq_false_2 in Hprev by done.
  exists s0, s, {| node_ := Some y |}, {| node_ := Some p |},
    {| node_ := Some q |}.
  split; [done|]. split; [done|]. split; [done|].
  split; [rewrite Iterator_key_node, Ey; [done | unfold is_node in Hy; lia]|].
  split; [done|].
  split; [rewrite Iterator_key_node, Ep; [done | unfold is_node in Hpn; lia]|].
  split; [done|].
  rewrite Iterator_key_node, Eq; [done | unfold is_node in Hqn; lia].
Qed.

Lemma Seek_SeekToLast_Prev_example_witness :
  exists s0 s it4 it9 it5,
    SkipList_new 0x5eadbeef = Some s0 /\
    InsertAll 16 s0 [5; 1; 9; 3] = Some s /\
    Seek 16 s 4 = Some it4 /\ Iterator_key s it4 = Some 5 /\
    SeekToLast 16 s = Some it9 /\ Iterator_key s it9 = Some 9 /\
    Prev 16 s it9 = Some it5 /\ Iterator_key s it5 = Some 5.
Proof.
  apply (Seek_SeekToLast_Prev_example (random := lehmer) 0x5eadbeef 16). lia.
Defined.

(** The list of that instance, as it is in the arena. *)
Example InsertAll_example :
  (s0 ← SkipList_new 0x5eadbeef;
   s ← InsertAll 16 s0 [5; 1; 9; 3];
   it ← SeekToFirst s;
   visited ← scan 16 s it;
   Some (max_height_ s, visited))
  = Some (2, [1; 3; 5; 9]).
Proof. vm_compute. reflexivity. Qed.

Lemma Insert_Contains_scan_witness :
  exists s0 s,
    SkipList_new 0x5eadbeef = Some s0 /\
    InsertAll 16 s0 [5; 1; 9; 3] = Some s /\
    (forall k, k ∈ [5; 1; 9; 3] -> Contains 16 s k = Some true) /\
    (forall k, (forall k', k' ∈ [5; 1; 9; 3] -> compare_ k k' <> 0) ->
       Contains 16 s k = Some false) /\
    exists it visited,
      SeekToFirst s = Some it /\
      scan 16 s it = Some visited /\
      StronglySorted lt visited /\
      visited ≡ₚ [5; 1; 9; 3].
Proof.
  apply (Insert_Contains_scan (random := lehmer) cmpZ_antisym cmpZ_trans
           16 0x5eadbeef [5; 1; 9; 3]).
  - apply cmpZ_distinct. apply (bool_decide_unpack _). vm_compute. exact I.
  - unfold kMaxHeight. simpl. lia.
Defined.

Lemma Insert_max_height_witness :
  exists s0 s s' h rnd' nd,
    SkipList_new 0x5eadbeef = Some s0 /\
    InsertAll 16 s0 [5; 1; 9] = Some s /\
    Insert 16 s 3 = Some s' /\
    RandomHeight (rnd_ s) = Some (h, rnd') /\
    1 <= h <= 12 /\
    max_height_ s0 = 1 /\
    max_height_ s0 <= max_height_ s /\
    1 <= max_height_ s <= 12 /\
    max_height_ s <= max_height_ s' <= 12 /\
    nodes s' !! length (nodes s) = Some nd /\
    key nd = 3 /\ Z.of_nat (length (next_ nd)) = h /\
    (max_height_ s < h ->
       max_height_ s' = h /\
       forall l, max_height_ s <= l < h ->
         Node_Next (nodes s') head_ l = Some (Some (length (nodes s)))) /\
    (h <= max_height_ s -> max_height_ s' = max_height_ s).
Proof.
  apply (Insert_max_height (random := lehmer) cmpZ_antisym cmpZ_trans
           16 0x5eadbeef [5; 1; 9] 3).
  - apply cmpZ_distinct. apply (bool_decide_unpack _). vm_compute. exact I.
  - unfold kMaxHeight. simpl. lia.
Defined.

(** An insert that raises the list: the node of the key 5 is sampled with
    height 2 while [max_height_] is 1. *)
Example Insert_raises_example :
  (s0 ← SkipList_new 0x5eadbeef;
   s ← Insert 16 s0 5;
   h ← RandomHeight (rnd_ s0);
   Some (max_height_ s0, fst h, max_height_ s, nodes s))
  = Some (1, 2, 2,
          [{| key := 0;
              next_ := [Some 1%nat; Some 1%nat; None; None; None; None; None;
                        None; None; None; None; None] |};
           {| key := 5; next_ := [None; None] |}]).
Proof. vm_compute. reflexivity. Qed.


(** *** Seeks and steps on the list of the examples *)

Lemma distinct_5_1_9_3 : distinct [5; 1; 9; 3].
Proof. apply cmpZ_distinct. apply (bool_decide_unpack _). vm_compute. exact I. Qed.

Lemma built_5_1_9_3 : built 16 0x5eadbeef [5; 1; 9; 3] list_5_1_9_3.
Proof. eexists. split; [reflexivity|]. vm_compute. reflexivity. Qed.

Lemma fuel_5_1_9_3 : (length [5; 1; 9; 3] + Z.to_nat kMaxHeight <= 16)%nat.
Proof. unfold kMaxHeight. simpl. lia. Qed.

Example list_5_1_9_3_nodes :
  (max_height_ list_5_1_9_3, key <$> nodes list_5_1_9_3,
   (fun nd => length (next_ nd)) <$> nodes list_5_1_9_3)
  = (2, [0; 5; 1; 9; 3], [12; 2; 1; 1; 1]%nat).
Proof. vm_compute. reflexivity. Qed.

Lemma Seek_first_at_or_after_witness :
  exists it,
    Seek 16 list_5_1_9_3 4 = Some it /\
    (Valid it = false <-> forall k, k ∈ [5; 1; 9; 3] -> lt k 4) /\
    (Valid it = true ->
       exists k, Iterator_key list_5_1_9_3 it = Some k /\ k ∈ [5; 1; 9; 3] /\
         ~ lt k 4 /\
         forall k', k' ∈ [5; 1; 9; 3] -> ~ lt k' 4 -> compare_ k k' <= 0).
Proof.
  exact (Seek_first_at_or_after cmpZ_antisym cmpZ_trans 16 0x5eadbeef
           [5; 1; 9; 3] list_5_1_9_3 4
           distinct_5_1_9_3 fuel_5_1_9_3 built_5_1_9_3).
Defined.

(** The seek of the witness lands on 5, and a seek past the last key leaves
    the iterator invalid. *)
Example Seek_first_at_or_after_example :
  (it ← Seek 16 list_5_1_9_3 4; Iterator_key list_5_1_9_3 it) = Some 5 /\
  Valid <$> Seek 16 list_5_1_9_3 10 = Some false.
Proof. split; vm_compute; reflexivity. Qed.

Lemma SeekToFirst_SeekToLast_extremes_witness :
  exists first last,
    SeekToFirst list_5_1_9_3 = Some first /\
    SeekToLast 16 list_5_1_9_3 = Some last /\
    Valid first = bool_decide ([5; 1; 9; 3] <> []) /\
    Valid last = bool_decide ([5; 1; 9; 3] <> []) /\
    ([5; 1; 9; 3] <> [] ->
       exists lo hi,
         Iterator_key list_5_1_9_3 first = Some lo /\
         Iterator_key list_5_1_9_3 last = Some hi /\
         lo ∈ [5; 1; 9; 3] /\ hi ∈ [5; 1; 9; 3] /\
         forall k, k ∈ [5; 1; 9; 3] -> compare_ lo k <= 0 /\ compare_ k hi <= 0).
Proof.
  exact (SeekToFirst_SeekToLast_extremes cmpZ_antisym cmpZ_trans 16 0x5eadbeef
           [5; 1; 9; 3] list_5_1_9_3
           distinct_5_1_9_3 fuel_5_1_9_3 built_5_1_9_3).
Defined.

Example SeekToFirst_SeekToLast_extremes_example :
  (it ← SeekToFirst list_5_1_9_3; Iterator_key list_5_1_9_3 it) = Some 1 /\
  (it ← SeekToLast 16 list_5_1_9_3; Iterator_key list_5_1_9_3 it) = Some 9.
Proof. split; vm_compute; reflexivity. Qed.

Lemma Prev_greatest_smaller_witness :
  exists it',
    Prev 16 list_5_1_9_3 {| node_ := Some 1%nat |} = Some it' /\
    (Valid it' = false <-> forall k', k' ∈ [5; 1; 9; 3] -> ~ lt k' 5) /\
    (Valid it' = true ->
       exists kp, Iterator_key list_5_1_9_3 it' = Some kp /\
         kp ∈ [5; 1; 9; 3] /\ lt kp 5 /\
         forall k', k' ∈ [5; 1; 9; 3] -> lt k' 5 -> compare_ k' kp <= 0).
Proof.
  apply (Prev_greatest_smaller cmpZ_antisym cmpZ_trans 16 0x5eadbeef
           [5; 1; 9; 3] list_5_1_9_3 4 {| node_ := Some 1%nat |} 5
           distinct_5_1_9_3 fuel_5_1_9_3 built_5_1_9_3).
  - vm_compute. reflexivity.
  - vm_compute. reflexivity.
Defined.

Example Prev_greatest_smaller_example :
  (it ← Prev 16 list_5_1_9_3 {| node_ := Some 1%nat |};
   Iterator_key list_5_1_9_3 it) = Some 3.
Proof. vm_compute. reflexivity. Qed.

Lemma Next_Prev_inverse_witness :
  let it := {| node_ := Some 1%nat |} in
  (exists it', Next list_5_1_9_3 it = Some it' /\
               (Valid it' = true -> Prev 16 list_5_1_9_3 it' = Some it)) /\
  (exists it', Prev 16 list_5_1_9_3 it = Some it' /\
               (Valid it' = true -> Next list_5_1_9_3 it' = Some it)).
Proof.
  apply (Next_Prev_inverse cmpZ_antisym cmpZ_trans 16 0x5eadbeef
           [5; 1; 9; 3] list_5_1_9_3 4 {| node_ := Some 1%nat |}
           distinct_5_1_9_3 fuel_5_1_9_3 built_5_1_9_3).
  - vm_compute. reflexivity.
  - reflexivity.
Defined.

Lemma Insert_duplicate_asserts_witness :
  (exists x prev xk,
     FindGreaterOrEqual 16 list_5_1_9_3 9
       (Some (replicate (Z.to_nat kMaxHeight) None)) = Some (Some x, prev) /\
     Node_key (nodes list_5_1_9_3) x = Some xk /\ Equal 9 xk = true) /\
  Insert 16 list_5_1_9_3 9 = None.
Proof.
  apply (Insert_duplicate_asserts cmpZ_antisym cmpZ_trans 16 0x5eadbeef
           [5; 1; 9; 3] list_5_1_9_3 9 9
           distinct_5_1_9_3 fuel_5_1_9_3 built_5_1_9_3).
  - apply (bool_decide_unpack _). vm_compute. exact I.
  - reflexivity.
Defined.

Lemma Insert_keeps_nodes_witness :
  exists s',
    Insert 16 list_5_1_9_3 7 = Some s' /\
    length (nodes s') = S (length (nodes list_5_1_9_3)) /\
    (forall x nd, nodes list_5_1_9_3 !! x = Some nd ->
       exists nd', nodes s' !! x = Some nd' /\ key nd' = key nd /\
                   length (next_ nd') = length (next_ nd)) /\
    (exists nd, nodes s' !! length (nodes list_5_1_9_3) = Some nd /\
                key nd = 7).
Proof.
  destruct (Insert 16 list_5_1_9_3 7) as [s'|] eqn:E;
    [|vm_compute in E; discriminate].
  exists s'. split; [reflexivity|].
  exact (Insert_keeps_nodes 16 list_5_1_9_3 7 s' E).
Defined.

Lemma max_height_tallest_witness :
  1 <= max_height_ list_5_1_9_3 <= kMaxHeight /\
  tallest (nodes list_5_1_9_3) (max_height_ list_5_1_9_3) /\
  (forall l, max_height_ list_5_1_9_3 <= l < kMaxHeight ->
     Node_Next (nodes list_5_1_9_3) head_ l = Some None).
Proof.
  exact (max_height_tallest cmpZ_antisym cmpZ_trans 16 0x5eadbeef
           [5; 1; 9; 3] list_5_1_9_3
           distinct_5_1_9_3 fuel_5_1_9_3 built_5_1_9_3).
Defined.

Lemma scan_back_reverses_witness :
  exists first forward last backward,
    SeekToFirst list_5_1_9_3 = Some first /\
    scan 16 list_5_1_9_3 first = Some forward /\
    SeekToLast 16 list_5_1_9_3 = Some last /\
    scan_back 16 16 list_5_1_9_3 last = Some backward /\
    backward = rev forward /\
    forward ≡ₚ [5; 1; 9; 3].
Proof.
  exact (scan_back_reverses cmpZ_antisym cmpZ_trans 16 0x5eadbeef
           [5; 1; 9; 3] list_5_1_9_3
           distinct_5_1_9_3 fuel_5_1_9_3 built_5_1_9_3).
Defined.

Example scan_back_reverses_example :
  (it ← SeekToLast 16 list_5_1_9_3; scan_back 16 16 list_5_1_9_3 it)
  = Some [9; 5; 3; 1].
Proof. vm_compute. reflexivity. Qed.

Lemma level_links_sorted_witness :
  exists next,
    Node_Next (nodes list_5_1_9_3) 0%nat (Z.of_nat 1) = Some next /\
    (forall y, next = Some y ->
       is_node (nodes list_5_1_9_3) y /\
       (1 < hgt (nodes list_5_1_9_3) y)%nat /\
       before (nodes list_5_1_9_3) 0%nat (nkey (nodes list_5_1_9_3) y)) /\
    (forall z, is_node (nodes list_5_1_9_3) z ->
       (1 < hgt (nodes list_5_1_9_3) z)%nat ->
       before (nodes list_5_1_9_3) 0%nat (nkey (nodes list_5_1_9_3) z) ->
       exists y, next = Some y /\
                 compare_ (nkey (nodes list_5_1_9_3) y)
                          (nkey (nodes list_5_1_9_3) z) <= 0).
Proof.
  apply (level_links_sorted cmpZ_antisym cmpZ_trans 16 0x5eadbeef
           [5; 1; 9; 3] list_5_1_9_3 0%nat 1%nat
           distinct_5_1_9_3 fuel_5_1_9_3 built_5_1_9_3).
  - vm_compute. lia.
  - vm_compute. lia.
Defined.

(** The levels of the list of the examples: all four keys at level 0, and 5
    alone at level 1. *)
Example level_links_sorted_example :
  (fun nd => next_ nd) <$> nodes list_5_1_9_3
  = [[Some 2%nat; Some 1%nat; None; None; None; None; None; None; None; None;
      None; None];
     [Some 3%nat; None]; [Some 4%nat]; [None]; [Some 1%nat]].
Proof. vm_compute. reflexivity. Qed.
End skiplist_proofs.

(** ** Slices *)

Module slice_proofs.

Import slice.

(** *** Reads and byte strings *)

Lemma read_Some mem n :
  0 <= n <= Z.of_nat (length mem) -> read mem n = Some (take (Z.to_nat n) mem).
Proof.
  intros H. unfold read.
  replace (n <=? Z.of_nat (length mem)) with true
    by (symmetry; apply Z.leb_le; lia).
  done.
Qed.

Lemma read_None mem n : Z.of_nat (length mem) < n -> read mem n = None.
Proof.
  intros H. unfold read.
  replace (n <=? Z.of_nat (length mem)) with false
    by (symmetry; apply Z.leb_gt; lia).
  done.
Qed.

Lemma length_bytes s : valid s -> Z.of_nat (length (bytes s)) = size_ s.
Proof. intros [H _]. unfold bytes. rewrite length_take. lia. Qed.

Lemma ToString_valid s : valid s -> ToString s = Some (bytes s).
Proof. intros [H _]. unfold ToString. by rewrite read_Some. Qed.

Lemma read_prefix s n :
  valid s -> 0 <= n <= size_ s ->
  read (data_ s) n = Some (take (Z.to_nat n) (bytes s)).
Proof.
  intros [H _] Hn. rewrite read_Some by lia. unfold bytes.
  rewrite take_take. do 2 f_equal. lia.
Qed.

(** *** The order of byte strings *)

Lemma cmp_bytes_antisym a : forall b, cmp_bytes a b < 0 <-> 0 < cmp_bytes b a.
Proof.
  induction a as [|x a IH]; intros [|y b]; simpl; try lia.
  destruct (Z.eqb_spec x y), (Z.eqb_spec y x); try lia. apply IH.
Qed.

Lemma cmp_bytes_eq a : forall b, cmp_bytes a b = 0 <-> a = b.
Proof.
  induction a as [|x a IH]; intros [|y b]; simpl; try (split; [lia|done]);
    [done|].
  destruct (Z.eqb_spec x y) as [->|Hne].
  - rewrite IH. split; [by intros -> | by intros [= ->]].
  - split; [lia | intros [= -> _]; done].
Qed.

Lemma cmp_bytes_trans a : forall b c,
  cmp_bytes a b <= 0 -> cmp_bytes b c <= 0 -> cmp_bytes a c <= 0.
Proof.
  induction a as [|x a IH]; intros [|y b] [|z c]; simpl; try lia.
  destruct (Z.eqb_spec x y), (Z.eqb_spec y z), (Z.eqb_spec x z); try lia.
  apply IH.
Qed.

Lemma cmp_bytes_lex a : forall b, cmp_bytes a b < 0 <-> lex_lt a b.
Proof.
  induction a as [|x a IH]; intros [|y b]; simpl.
  - split; [lia|]. intros [(c & Hc & H) | (p & x & y & ra & rb & H & _)].
    + by destruct c.
    + by destruct p.
  - split; [|lia]. intros _. left. by exists (y :: b).
  - split; [lia|]. intros [(c & Hc & H) | (p & x' & y & ra & rb & _ & H & _)].
    + done.
    + by destruct p.
  - destruct (Z.eqb_spec x y) as [->|Hne].
    + rewrite IH. split.
      * intros [(c & Hc & ->) | (p & x' & y' & ra & rb & -> & -> & Hlt)].
        -- left. by exists c.
        -- right. by exists (y :: p), x', y', ra, rb.
      * intros [(c & Hc & H) | (p & x' & y' & ra & rb & Ha & Hb & Hlt)].
        -- injection H as ->. left. by exists c.
        -- destruct p as [|z p]; simpl in *.
           ++ injection Ha as -> ->. injection Hb as -> ->. lia.
           ++ injection Ha as -> ->. injection Hb as ->.
              right. by exists p, x', y', ra, rb.
    + split.
      * intros Hlt. right. exists [], x, y, a, b. split; [done|].
        split; [done | lia].
      * intros [(c & Hc & H) | (p & x' & y' & ra & rb & Ha & Hb & Hlt)].
        -- by injection H as ->.
        -- destruct p as [|z p]; simpl in *.
           ++ injection Ha as -> ->. injection Hb as -> ->. lia.
           ++ injection Ha as -> ->. by injection Hb as ->.
Qed.

(** What [compare] computes from [memcmp] and the sizes is the comparison of
    the two byte strings. *)
Lemma cmp_bytes_memcmp a : forall b,
  let m := Nat.min (length a) (length b) in
  let r := memcmp_bytes (take m a) (take m b) in
  cmp_bytes a b =
    if r =? 0 then
      if Z.of_nat (length a) <? Z.of_nat (length b) then -1
      else if Z.of_nat (length b) <? Z.of_nat (length a) then 1
      else r
    else r.
Proof.
  induction a as [|x a IH]; intros [|y b]; simpl.
  - done.
  - destruct (Z.ltb_spec 0 (Z.pos (Pos.of_succ_nat (length b)))); [done | lia].
  - done.
  - destruct (Z.eqb_spec x y) as [->|Hne].
    + rewrite IH. simpl.
      destruct (memcmp_bytes _ _ =? 0); [|done].
      repeat match goal with
             | |- context [?p <? ?q] => destruct (Z.ltb_spec p q)
             end; lia.
    + destruct (Z.eqb_spec (x - y) 0); [lia | done].
Qed.

Lemma compare_cmp_bytes a b :
  valid a -> valid b ->
  compare a b = Some (cmp_bytes (bytes a) (bytes b)).
Proof.
  intros Ha Hb. pose proof (length_bytes a Ha) as Hla.
  pose proof (length_bytes b Hb) as Hlb.
  destruct Ha as [Ha _], Hb as [Hb _].
  unfold compare, memcmp.
  set (min_len := if size_ a <? size_ b then size_ a else size_ b).
  assert (Hmin : min_len = Z.of_nat (Nat.min (length (bytes a))
                                             (length (bytes b)))).
  { unfold min_len. destruct (Z.ltb_spec (size_ a) (size_ b)); lia. }
  rewrite !read_Some by lia. simpl.
  rewrite (cmp_bytes_memcmp (bytes a) (bytes b)). simpl.
  rewrite Hla, Hlb.
  set (m := Nat.min (length (bytes a)) (length (bytes b))) in *.
  assert (Hta : take (Z.to_nat min_len) (data_ a) = take m (bytes a)).
  { unfold bytes. rewrite take_take. f_equal. lia. }
  assert (Htb : take (Z.to_nat min_len) (data_ b) = take m (bytes b)).
  { unfold bytes. rewrite take_take. f_equal. lia. }
  by rewrite Hta, Htb.
Qed.

(** [X15]: on slices that are within their objects, [compare] answers, and it
    is a three-way comparison that orders them totally: what it answers for
    (a, b) is negative exactly when what it answers for (b, a) is positive,
    it is zero exactly when the two slices refer to the same bytes, and it is
    transitive. *)
Theorem compare_total_order a b c :
  valid a -> valid b -> valid c ->
  exists ab ba bc ac,
    compare a b = Some ab /\ compare b a = Some ba /\
    compare b c = Some bc /\ compare a c = Some ac /\
    (ab < 0 <-> 0 < ba) /\
    (ab = 0 <-> bytes a = bytes b) /\
    (ab <= 0 -> bc <= 0 -> ac <= 0).
Proof.
  intros Ha Hb Hc. do 4 eexists.
  split; [by apply compare_cmp_bytes|].
  split; [by apply compare_cmp_bytes|].
  split; [by apply compare_cmp_bytes|].
  split; [by apply compare_cmp_bytes|].
  split; [apply cmp_bytes_antisym|].
  split; [apply cmp_bytes_eq | apply cmp_bytes_trans].
Qed.

(** [X16]: the order of [compare] is the lexicographic order of the bytes:
    a is before b exactly when the bytes of a are a proper prefix of those of
    b, or the two differ first at a byte that is smaller in a. *)
Theorem compare_lexicographic a b :
  valid a -> valid b ->
  exists r, compare a b = Some r /\ (r < 0 <-> lex_lt (bytes a) (bytes b)).
Proof.
  intros Ha Hb. eexists. split; [by apply compare_cmp_bytes|].
  apply cmp_bytes_lex.
Qed.

(** [X17]: [operator==] is equality of the bytes referred to, whatever the
    pointers, [operator!=] is its negation, and the two agree with [compare]:
    x == y exactly when [compare] answers 0. *)
Theorem operator_eq_bytes x y :
  valid x -> valid y ->
  operator_eq x y = Some (bool_decide (bytes x = bytes y)) /\
  operator_ne x y = Some (negb (bool_decide (bytes x = bytes y))) /\
  (operator_eq x y = Some true <-> compare x y = Some 0).
Proof.
  intros Hx Hy.
  assert (Heq : operator_eq x y = Some (bool_decide (bytes x = bytes y))).
  { pose proof (length_bytes x Hx) as Hlx.
    pose proof (length_bytes y Hy) as Hly.
    unfold operator_eq, size, data.
    destruct (Z.eqb_spec (size_ x) (size_ y)) as [E|E].
    - pose proof (compare_cmp_bytes x y Hx Hy) as Hcmp.
      unfold compare in Hcmp. rewrite <- E, Z.ltb_irrefl in Hcmp.
      destruct (memcmp (data_ x) (data_ y) (size_ x)) as [r|]; [|done].
      simpl in *. injection Hcmp as Hcmp. f_equal.
      assert (Hr : r = cmp_bytes (bytes x) (bytes y)).
      { destruct (r =? 0); done. }
      rewrite Hr. destruct (Z.eqb_spec (cmp_bytes (bytes x) (bytes y)) 0)
        as [H0|H0].
      + apply cmp_bytes_eq in H0. by rewrite bool_decide_eq_true_2.
      + rewrite bool_decide_eq_false_2; [done|]. intros H. apply H0.
        by apply cmp_bytes_eq.
    - rewrite bool_decide_eq_false_2; [done|]. intros H. apply E.
      rewrite <- Hlx, <- Hly, H. done. }
  split; [done|]. split; [unfold operator_ne; by rewrite Heq|].
  rewrite Heq, compare_cmp_bytes by done. split.
  - intros [= H]. apply bool_decide_eq_true in H. f_equal.
    by apply cmp_bytes_eq.
  - intros [= H]. apply cmp_bytes_eq in H. by rewrite bool_decide_eq_true_2.
Qed.

(** *** Prefixes *)

Lemma memcmp_bytes_eq a : forall b,
  length a = length b -> memcmp_bytes a b = 0 <-> a = b.
Proof.
  induction a as [|x a IH]; intros [|y b] Hlen; simpl in *; try done.
  destruct (Z.eqb_spec x y) as [->|Hne].
  - rewrite IH by lia. split; [by intros -> | by intros [= ->]].
  - split; [lia | intros [= -> _]; done].
Qed.

Lemma remove_prefix_valid s n :
  valid s -> 0 <= n <= size_ s ->
  exists s',
    remove_prefix s n = Some s' /\ valid s' /\
    size_ s' = size_ s - n /\
    bytes s' = drop (Z.to_nat n) (bytes s).
Proof.
  intros [Hs Hmax] Hn. unfold remove_prefix, size.
  replace (n <=? size_ s) with true by (symmetry; apply Z.leb_le; lia).
  simpl. eexists. split; [reflexivity|].
  rewrite to_size_t_id by lia. split; [|split; [done|]].
  - split; simpl; [|lia]. rewrite length_drop. lia.
  - unfold bytes. simpl. rewrite take_drop_commute. do 2 f_equal. lia.
Qed.

(** [X18]: [starts_with(x)] is true exactly when the bytes of x are a prefix
    of the bytes of the slice; [remove_prefix(x.size())] then leaves the rest:
    the bytes of x followed by the bytes of what is left are the bytes the
    slice had. *)
Theorem starts_with_remove_prefix s x :
  valid s -> valid x ->
  exists b,
    starts_with s x = Some b /\
    (b = true <-> bytes x `prefix_of` bytes s) /\
    (b = true ->
       exists s', remove_prefix s (size x) = Some s' /\ valid s' /\
                  bytes s = bytes x ++ bytes s').
Proof.
  intros Hs Hx. pose proof (length_bytes s Hs) as Hls.
  pose proof (length_bytes x Hx) as Hlx.
  assert (Hsplit : bytes x `prefix_of` bytes s ->
            size_ x <= size_ s /\
            take (Z.to_nat (size_ x)) (bytes s) = bytes x).
  { intros [rest Hrest]. split.
    - rewrite <- Hls, <- Hlx, Hrest, length_app. lia.
    - rewrite Hrest, take_app_length'; [done|]. lia. }
  unfold starts_with.
  destruct (Z.leb_spec (size_ x) (size_ s)) as [Hle|Hgt].
  - unfold memcmp. destruct Hx as [Hx Hxmax].
    rewrite (read_prefix s (size_ x) Hs) by lia.
    rewrite read_Some by lia. simpl. fold (bytes x).
    eexists. split; [reflexivity|].
    assert (Hiff : (memcmp_bytes (take (Z.to_nat (size_ x)) (bytes s))
                      (bytes x) =? 0) = true
                   <-> bytes x `prefix_of` bytes s).
    { rewrite Z.eqb_eq, memcmp_bytes_eq by (rewrite length_take; lia). split.
      - intros H. exists (drop (Z.to_nat (size_ x)) (bytes s)).
        by rewrite <- H, take_drop.
      - intros H. by apply Hsplit. }
    split; [done|]. intros Hb. apply Hiff in Hb.
    destruct (remove_prefix_valid s (size_ x) Hs ltac:(lia))
      as (s' & Hrem & Hv & _ & Hbytes).
    exists s'. split; [done|]. split; [done|].
    destruct (Hsplit Hb) as [_ Htake].
    by rewrite Hbytes, <- Htake, take_drop.
  - exists false. split; [done|]. split; [|done]. split; [done|].
    intros H. destruct (Hsplit H). lia.
Qed.

(** [X19]: [remove_prefix(n)] drops the first n bytes: on a slice of at least
    n bytes it leaves the bytes from the n-th on, so that byte i of what is
    left is byte n + i of what was there; on a shorter slice its assertion
    fails.  [operator[]] answers the byte at an index below the size, and its
    assertion fails from the size on. *)
Theorem remove_prefix_shifts s n :
  valid s -> 0 <= n ->
  (n <= size s ->
     exists s',
       remove_prefix s n = Some s' /\ valid s' /\
       size s' = size s - n /\
       bytes s' = drop (Z.to_nat n) (bytes s) /\
       forall i, 0 <= i ->
         operator_index s' i = operator_index s (n + i)) /\
  (size s < n -> remove_prefix s n = None) /\
  (forall i, 0 <= i ->
     operator_index s i =
       if i <? size s then bytes s !! Z.to_nat i else None) /\
  (forall i, 0 <= i < size s -> is_Some (operator_index s i)).
Proof.
  intros Hs Hn.
  assert (Hindex : forall t, valid t -> forall i, 0 <= i ->
            operator_index t i =
              if i <? size t then bytes t !! Z.to_nat i else None).
  { intros t Ht i Hi. unfold operator_index, size, bytes.
    destruct (Z.ltb_spec i (size_ t)); [|done]. simpl.
    rewrite lookup_take_lt by lia. done. }
  split; [|split; [|split]].
  - intros Hle. unfold size in *.
    destruct (remove_prefix_valid s n Hs ltac:(lia))
      as (s' & Hrem & Hv & Hsize & Hbytes).
    exists s'. split; [done|]. split; [done|]. split; [done|].
    split; [done|]. intros i Hi.
    rewrite (Hindex s' Hv) by done. rewrite (Hindex s Hs) by lia.
    unfold size. rewrite Hsize, Hbytes, lookup_drop.
    replace (Z.to_nat n + Z.to_nat i)%nat with (Z.to_nat (n + i)) by lia.
    destruct (Z.ltb_spec i (size_ s - n)), (Z.ltb_spec (n + i) (size_ s));
      try done; lia.
  - intros Hgt. unfold remove_prefix.
    replace (n <=? size s) with false by (symmetry; apply Z.leb_gt; lia).
    done.
  - by apply Hindex.
  - intros i Hi. rewrite (Hindex s Hs) by lia.
    replace (i <? size s) with true by (symmetry; apply Z.ltb_lt; lia).
    apply lookup_lt_is_Some. pose proof (length_bytes s Hs).
    unfold size in *. lia.
Qed.

(** *** Construction *)

Lemma strlen_spec a : forall rest,
  Forall (fun c => c <> 0) a ->
  strlen (a ++ 0 :: rest) = Some (Z.of_nat (length a)).
Proof.
  induction a as [|c a IH]; intros rest Hall; simpl; [done|].
  apply Forall_cons in Hall as [Hc Hall].
  destruct (Z.eqb_spec c 0); [done|]. rewrite IH by done. simpl.
  f_equal. lia.
Qed.

Lemma strlen_None s : Forall (fun c => c <> 0) s -> strlen s = None.
Proof.
  induction 1 as [|c s Hc _ IH]; simpl; [done|].
  destruct (Z.eqb_spec c 0); [done|]. by rewrite IH.
Qed.

(** [X20]: a slice made from a [std::string] refers to all of its bytes, NUL
    bytes included, and [ToString] gives the string back; a slice made from a
    C string stops at the first NUL, and making one from memory that holds no
    NUL reads past its end.  The default slice and a cleared one are empty. *)
Theorem Slice_construction str a rest :
  Z.of_nat (length str) < 2 ^ 64 ->
  Z.of_nat (length a) < 2 ^ 64 ->
  Forall (fun c => c <> 0) a ->
  (valid (Slice_of_string str) /\
   size (Slice_of_string str) = Z.of_nat (length str) /\
   ToString (Slice_of_string str) = Some str) /\
  (exists s, Slice_of_cstr (a ++ 0 :: rest) = Some s /\ valid s /\
             ToString s = Some a) /\
  Slice_of_cstr a = None /\
  (empty Slice_new = true /\ ToString Slice_new = Some []) /\
  (empty (clear (Slice_of_string str)) = true /\
   ToString (clear (Slice_of_string str)) = Some []).
Proof.
  intros Hstr Ha Hnz.
  assert (Hv : valid (Slice_of_string str)).
  { unfold valid, Slice_of_string, string_data, string_size. simpl.
    rewrite length_app. simpl. lia. }
  split; [|split; [|split; [|split]]].
  - split; [done|]. split; [done|]. rewrite ToString_valid by done.
    unfold bytes, Slice_of_string, string_data, string_size. simpl.
    rewrite Nat2Z.id, take_app_length. done.
  - unfold Slice_of_cstr. rewrite strlen_spec by done. simpl.
    eexists. split; [reflexivity|].
    assert (Hv' : valid {| data_ := a ++ 0 :: rest;
                           size_ := Z.of_nat (length a) |}).
    { unfold valid. simpl. rewrite length_app. simpl. lia. }
    split; [done|]. rewrite ToString_valid by done.
    unfold bytes. simpl. by rewrite Nat2Z.id, take_app_length.
  - unfold Slice_of_cstr. by rewrite strlen_None.
  - done.
  - done.
Qed.

(** *** Slices of text *)

Lemma compare_total_order_witness :
  let a := Slice_of_data [97; 98; 99] 2 in
  let b := Slice_of_string [97; 98; 99] in
  let c := Slice_of_string [97; 200] in
  exists ab ba bc ac,
    compare a b = Some ab /\ compare b a = Some ba /\
    compare b c = Some bc /\ compare a c = Some ac /\
    (ab < 0 <-> 0 < ba) /\
    (ab = 0 <-> bytes a = bytes b) /\
    (ab <= 0 -> bc <= 0 -> ac <= 0).
Proof.
  apply (compare_total_order (Slice_of_data [97; 98; 99] 2)
           (Slice_of_string [97; 98; 99]) (Slice_of_string [97; 200]));
    vm_compute; (split; [split|]); congruence.
Defined.

(** The comparisons of the witness: a proper prefix comes first, and bytes
    compare as unsigned. *)
Example compare_example :
  compare (Slice_of_data [97; 98; 99] 2) (Slice_of_string [97; 98; 99])
    = Some (-1) /\
  compare (Slice_of_string [97; 98; 99]) (Slice_of_string [97; 200])
    = Some (-102) /\
  compare (Slice_of_string [97; 98]) (Slice_of_data [97; 98; 99] 2) = Some 0.
Proof. repeat split. Qed.

Lemma compare_lexicographic_witness :
  let a := Slice_of_string [97; 98; 99] in
  let b := Slice_of_string [97; 200] in
  exists r, compare a b = Some r /\ (r < 0 <-> lex_lt (bytes a) (bytes b)).
Proof.
  apply (compare_lexicographic (Slice_of_string [97; 98; 99])
           (Slice_of_string [97; 200]));
    vm_compute; (split; [split|]); congruence.
Defined.

Lemma operator_eq_bytes_witness :
  let x := Slice_of_string [97; 98] in
  let y := Slice_of_data [97; 98; 99] 2 in
  operator_eq x y = Some (bool_decide (bytes x = bytes y)) /\
  operator_ne x y = Some (negb (bool_decide (bytes x = bytes y))) /\
  (operator_eq x y = Some true <-> compare x y = Some 0).
Proof.
  apply (operator_eq_bytes (Slice_of_string [97; 98])
           (Slice_of_data [97; 98; 99] 2));
    vm_compute; (split; [split|]); congruence.
Defined.

Lemma starts_with_remove_prefix_witness :
  let s := Slice_of_string [97; 98; 99] in
  let x := Slice_of_string [97; 98] in
  exists b,
    starts_with s x = Some b /\
    (b = true <-> bytes x `prefix_of` bytes s) /\
    (b = true ->
       exists s', remove_prefix s (size x) = Some s' /\ valid s' /\
                  bytes s = bytes x ++ bytes s').
Proof.
  apply (starts_with_remove_prefix (Slice_of_string [97; 98; 99])
           (Slice_of_string [97; 98]));
    vm_compute; (split; [split|]); congruence.
Defined.

Example starts_with_remove_prefix_example :
  starts_with (Slice_of_string [97; 98; 99]) (Slice_of_string [97; 98])
    = Some true /\
  (remove_prefix (Slice_of_string [97; 98; 99]) 2 ≫= ToString) = Some [99] /\
  starts_with (Slice_of_string [97; 98]) (Slice_of_string [97; 98; 99])
    = Some false.
Proof. repeat split. Qed.

Lemma remove_prefix_shifts_witness :
  let s := Slice_of_string [97; 98; 99] in
  exists s',
    remove_prefix s 2 = Some s' /\ valid s' /\
    size s' = size s - 2 /\
    bytes s' = drop (Z.to_nat 2) (bytes s) /\
    forall i, 0 <= i -> operator_index s' i = operator_index s (2 + i).
Proof.
  destruct (remove_prefix_shifts (Slice_of_string [97; 98; 99]) 2)
    as (H & _); [vm_compute; (split; [split|]); congruence | lia |].
  apply H. vm_compute. congruence.
Defined.

Lemma Slice_construction_witness :
  exists s, Slice_of_cstr ([97; 98] ++ 0 :: [99; 0]) = Some s /\ valid s /\
            ToString s = Some [97; 98].
Proof.
  destruct (Slice_construction [97; 0; 98] [97; 98] [99; 0])
    as (_ & H & _); [simpl; lia | simpl; lia | |exact H].
  repeat constructor; discriminate.
Defined.

End slice_proofs.

(** ** The hash function *)

Module hash_proofs.

Import hash.

Lemma to_uint32_range z : 0 <= to_uint32 z < 2 ^ 32.
Proof. unfold to_uint32. apply Z.mod_pos_bound. lia. Qed.

Lemma lxor_range a b n :
  0 <= n -> 0 <= a < 2 ^ n -> 0 <= b < 2 ^ n -> 0 <= Z.lxor a b < 2 ^ n.
Proof.
  intros Hn Ha Hb. split; [apply Z.lxor_nonneg; lia|].
  destruct (Z.eq_dec (Z.lxor a b) 0) as [->|Hne]; [lia|].
  assert (0 <= Z.lxor a b) by (apply Z.lxor_nonneg; lia).
  assert (Hlog : forall x, 0 <= x < 2 ^ n -> 0 < n -> Z.log2 x < n).
  { intros x Hx Hpos. destruct (Z.eq_dec x 0) as [->|]; [done|].
    apply Z.log2_lt_pow2; lia. }
  destruct (Z.eq_dec n 0) as [->|Hn0].
  { assert (a = 0) by lia. assert (b = 0) by lia. subst. done. }
  apply Z.log2_lt_pow2; [lia|].
  eapply Z.le_lt_trans; [apply Z.log2_lxor; lia|].
  apply Z.max_lub_lt; apply Hlog; lia.
Qed.

Lemma mix_range h k : 0 <= h < 2 ^ 32 -> 0 <= k -> 0 <= Z.lxor h (Z.shiftr h k) < 2 ^ 32.
Proof.
  intros Hh Hk. apply lxor_range; [lia | done |].
  rewrite Z.shiftr_div_pow2 by done. split.
  - apply Z.div_pos; lia.
  - eapply Z.le_lt_trans; [|apply Hh].
    apply Z.div_le_upper_bound; [lia|]. nia.
Qed.

Section Proofs.

Context {coding : Coding}.

(** Two runs of the loop on memories that agree on the bytes that remain. *)
Lemma Hash_loop_agree fuel : forall d1 d2 remaining h,
  reads_four_bytes ->
  0 <= remaining <= Z.of_nat (length d1) ->
  take (Z.to_nat remaining) d2 = take (Z.to_nat remaining) d1 ->
  remaining / 4 < Z.of_nat fuel ->
  0 <= h < 2 ^ 32 ->
  exists d1' d2' remaining' h',
    Hash_loop fuel d1 remaining h = Some (d1', remaining', h') /\
    Hash_loop fuel d2 remaining h = Some (d2', remaining', h') /\
    0 <= remaining' < 4 /\
    remaining' <= Z.of_nat (length d1') /\
    take (Z.to_nat remaining') d2' = take (Z.to_nat remaining') d1' /\
    0 <= h' < 2 ^ 32.
Proof.
  induction fuel as [|fuel IH]; intros d1 d2 remaining h Hdec Hrem Hagree Hfuel Hh.
  { assert (0 <= remaining / 4) by (apply Z.div_pos; lia). lia. }
  simpl. destruct (Z.leb_spec 4 remaining) as [Hge|Hlt].
  - assert (Htake4 : take 4 d1 = take 4 d2).
    { apply (f_equal (take 4)) in Hagree. rewrite !take_take in Hagree.
      replace (4 `min` Z.to_nat remaining)%nat with 4%nat in Hagree by lia.
      done. }
    destruct (Hdec d1 d2 ltac:(lia) Htake4) as (w & -> & ->). simpl.
    apply IH; [done | | | | ].
    + rewrite length_drop. lia.
    + rewrite !take_drop_commute.
      replace (4 + Z.to_nat (remaining - 4))%nat with (Z.to_nat remaining)
        by lia.
      by rewrite Hagree.
    + replace remaining with (remaining - 4 + 1 * 4) in Hfuel by lia.
      rewrite Z.div_add in Hfuel by lia. lia.
    + apply mix_range; [apply to_uint32_range | lia].
  - exists d1, d2, remaining, h. repeat split; try done; lia.
Qed.

(** [X21]: [Hash(data, n, seed)] stays within the n bytes it is given: with a
    decoder that reads four bytes at a time it answers whenever the object
    holds n bytes, what it answers fits in 32 bits, and it is the same for
    any other memory that holds the same n bytes.  The hash of no bytes is
    the seed. *)
Theorem Hash_reads_n_bytes data data' n seed :
  reads_four_bytes ->
  0 <= n <= Z.of_nat (length data) ->
  take (Z.to_nat n) data' = take (Z.to_nat n) data ->
  exists h,
    Hash data n seed = Some h /\ Hash data' n seed = Some h /\
    0 <= h < 2 ^ 32 /\
    (n = 0 -> h = to_uint32 seed).
Proof.
  intros Hdec Hn Hagree. unfold Hash.
  set (h0 := to_uint32 (Z.lxor seed (to_size_t (n * m)))).
  destruct (Hash_loop_agree (Z.to_nat (n / 4) + 1) data data' n h0)
    as (d1 & d2 & k & h & Hrun1 & Hrun2 & Hk & Hlen & Hag & Hh);
    [done | done | done | | apply to_uint32_range |].
  { assert (0 <= n / 4) by (apply Z.div_pos; lia). lia. }
  assert (Hzero : n = 0 -> k = 0 /\ h = to_uint32 seed).
  { intros ->. simpl in Hrun1. injection Hrun1 as _ <- <-.
    split; [done|]. unfold h0. simpl. by rewrite Z.lxor_0_r. }
  rewrite Hrun1, Hrun2. simpl.
  assert (Hlook : forall i, (Z.of_nat i < k) ->
            exists b, d1 !! i = Some b /\ d2 !! i = Some b).
  { intros i Hi. destruct (lookup_lt_is_Some_2 d1 i ltac:(lia)) as [b Hb].
    exists b. split; [done|].
    rewrite <- (lookup_take_lt d2 (Z.to_nat k)) by lia.
    rewrite Hag, lookup_take_lt by lia. done. }
  assert (Hcases : k = 0 \/ k = 1 \/ k = 2 \/ k = 3) by lia.
  destruct Hcases as [-> | [-> | [-> | ->]]]; simpl.
  - exists h. split; [done|]. split; [done|]. split; [done|].
    intros H0. by destruct (Hzero H0).
  - destruct (Hlook 0%nat ltac:(lia)) as (b0 & -> & ->). simpl.
    eexists. split; [reflexivity|]. split; [reflexivity|].
    split; [apply mix_range; [apply to_uint32_range | unfold r; lia]|].
    intros H0. destruct (Hzero H0). lia.
  - destruct (Hlook 1%nat ltac:(lia)) as (b1 & -> & ->).
    destruct (Hlook 0%nat ltac:(lia)) as (b0 & -> & ->). simpl.
    eexists. split; [reflexivity|]. split; [reflexivity|].
    split; [apply mix_range; [apply to_uint32_range | unfold r; lia]|].
    intros H0. destruct (Hzero H0). lia.
  - destruct (Hlook 2%nat ltac:(lia)) as (b2 & -> & ->).
    destruct (Hlook 1%nat ltac:(lia)) as (b1 & -> & ->).
    destruct (Hlook 0%nat ltac:(lia)) as (b0 & -> & ->). simpl.
    eexists. split; [reflexivity|]. split; [reflexivity|].
    split; [apply mix_range; [apply to_uint32_range | unfold r; lia]|].
    intros H0. destruct (Hzero H0). lia.
Qed.

End Proofs.

(** *** The little-endian decoder *)

Lemma little_endian_reads_four_bytes :
  reads_four_bytes (H := little_endian).
Proof.
  intros p q Hlen Htake.
  destruct p as [|b0 [|b1 [|b2 [|b3 p]]]]; simpl in Hlen; try lia.
  destruct q as [|c0 [|c1 [|c2 [|c3 q]]]]; try done.
  simpl in Htake. injection Htake as -> -> -> ->.
  eexists. split; reflexivity.
Qed.

Lemma Hash_reads_n_bytes_witness :
  exists h,
    Hash (coding := little_endian) [226; 153; 165; 7; 7] 3 0xbc9f1d34 = Some h /\
    Hash (coding := little_endian) [226; 153; 165] 3 0xbc9f1d34 = Some h /\
    0 <= h < 2 ^ 32.
Proof.
  destruct (Hash_reads_n_bytes (coding := little_endian)
              [226; 153; 165; 7; 7] [226; 153; 165] 3 0xbc9f1d34)
    as (h & H1 & H2 & Hh & _);
    [apply little_endian_reads_four_bytes | simpl; lia | reflexivity |].
  exists h. split; [exact H1|]. split; [exact H2 | exact Hh].
Defined.

(** Values of the function, with no byte, with one, two and three bytes for
    the [switch], and with four for the loop. *)
Example Hash_values :
  Hash (coding := little_endian) [] 0 0xbc9f1d34 = Some 0xbc9f1d34 /\
  Hash (coding := little_endian) [0x62] 1 0xbc9f1d34 = Some 0xef1345c4 /\
  Hash (coding := little_endian) [0xc3; 0x97] 2 0xbc9f1d34 = Some 0x5b663814 /\
  Hash (coding := little_endian) [0xe2; 0x99; 0xa5] 3 0xbc9f1d34
    = Some 0x323c078f /\
  Hash (coding := little_endian) [0xe1; 0x80; 0xb9; 0x32] 4 0xbc9f1d34
    = Some 0xed21633a.
Proof. repeat split; vm_compute; reflexivity. Qed.

End hash_proofs.

(** ** The arena *)

Module arena_proofs.

Import arena.

Lemma total_app a b : total (a ++ b) = total a + total b.
Proof. induction a as [|x a IH]; simpl; [done|]. rewrite IH. lia. Qed.

Lemma total_nonneg sizes : Forall (fun b => 0 < b) sizes -> 0 <= total sizes.
Proof. induction 1; simpl; lia. Qed.

Lemma total_take_S sizes i b :
  sizes !! i = Some b -> total (take (S i) sizes) = total (take i sizes) + b.
Proof.
  intros H. rewrite (take_S_r _ _ _ H), total_app. simpl. lia.
Qed.

Lemma total_take_le sizes i j :
  Forall (fun b => 0 < b) sizes -> (i <= j)%nat ->
  total (take i sizes) <= total (take j sizes) <= total sizes.
Proof.
  intros Hpos Hij.
  assert (H1 : total sizes = total (take j sizes) + total (drop j sizes)).
  { by rewrite <- total_app, take_drop. }
  assert (H2 : total (take j sizes) =
               total (take i sizes) + total (drop i (take j sizes))).
  { rewrite <- total_app. f_equal.
    rewrite <- (take_drop i (take j sizes)) at 1. f_equal.
    rewrite take_take. f_equal. lia. }
  assert (0 <= total (drop j sizes)).
  { apply total_nonneg. by apply Forall_drop. }
  assert (0 <= total (drop i (take j sizes))).
  { apply total_nonneg. by apply Forall_drop, Forall_take. }
  lia.
Qed.

Section Proofs.

Context {fallback : Fallback}.

(** A sequence of requests that the block in use can serve. *)
Lemma Allocates_spec sizes : forall a,
  Forall (fun b => 0 < b) sizes ->
  total sizes <= alloc_bytes_remaining_ a ->
  alloc_bytes_remaining_ a < 2 ^ 64 ->
  exists ps a',
    Allocates a sizes = Some (ps, a') /\
    length ps = length sizes /\
    (forall i p, ps !! i = Some p ->
       p = alloc_ptr_ a + total (take i sizes)) /\
    alloc_ptr_ a' = alloc_ptr_ a + total sizes /\
    alloc_bytes_remaining_ a' = alloc_bytes_remaining_ a - total sizes /\
    blocks_ a' = blocks_ a /\
    MemoryUsage a' = MemoryUsage a.
Proof.
  induction sizes as [|b sizes IH]; intros a Hpos Hfit Hmax.
  - exists [], a. simpl. repeat split; try done; lia.
  - apply Forall_cons in Hpos as [Hb Hpos]. simpl in Hfit.
    pose proof (total_nonneg sizes Hpos) as Hnn.
    simpl. unfold Allocate.
    replace (0 <? b) with true by (symmetry; apply Z.ltb_lt; lia).
    replace (b <=? alloc_bytes_remaining_ a) with true
      by (symmetry; apply Z.leb_le; lia).
    simpl. rewrite to_size_t_id by lia.
    set (a1 := {| alloc_ptr_ := alloc_ptr_ a + b;
                  alloc_bytes_remaining_ := alloc_bytes_remaining_ a - b;
                  blocks_ := blocks_ a;
                  memory_usage_ := memory_usage_ a |}).
    destruct (IH a1 Hpos) as (ps & a' & -> & Hlen & Hps & Hptr & Hrem & Hbl & Hmu);
      [simpl; lia | simpl; lia |].
    simpl in *. exists (alloc_ptr_ a :: ps), a'.
    split; [done|]. split; [simpl; by rewrite Hlen|]. split.
    { intros [|i] p Hp; simpl in *.
      - injection Hp as <-. lia.
      - rewrite (Hps i p Hp). lia. }
    split; [lia|]. split; [lia|]. split; [done|]. done.
Qed.

(** [X22]: while the block in use has room, [Allocate] carves the requests
    out of it one after the other: each region lies within what was left of
    the block, no two regions overlap, what remains shrinks by the bytes
    handed out, and the memory usage does not change; the fallback is not
    called.  A request for no bytes trips the assertion. *)
Theorem Allocate_carves_block a sizes :
  Forall (fun b => 0 < b) sizes ->
  total sizes <= alloc_bytes_remaining_ a ->
  alloc_bytes_remaining_ a < 2 ^ 64 ->
  (exists ps a',
     Allocates a sizes = Some (ps, a') /\
     length ps = length sizes /\
     (forall i p b, ps !! i = Some p -> sizes !! i = Some b ->
        alloc_ptr_ a <= p /\
        p + b <= alloc_ptr_ a + alloc_bytes_remaining_ a) /\
     (forall i j p q b c,
        i <> j ->
        ps !! i = Some p -> sizes !! i = Some b ->
        ps !! j = Some q -> sizes !! j = Some c ->
        apart p b q c) /\
     alloc_bytes_remaining_ a' = alloc_bytes_remaining_ a - total sizes /\
     MemoryUsage a' = MemoryUsage a) /\
  Allocate a 0 = None.
Proof.
  intros Hpos Hfit Hmax. split; [|done].
  destruct (Allocates_spec sizes a Hpos Hfit Hmax)
    as (ps & a' & Hrun & Hlen & Hps & _ & Hrem & _ & Hmu).
  exists ps, a'. split; [done|]. split; [done|].
  assert (Hend : forall i p b, ps !! i = Some p -> sizes !! i = Some b ->
            p + b = alloc_ptr_ a + total (take (S i) sizes)).
  { intros i p b Hp Hb. rewrite (Hps i p Hp), (total_take_S _ _ _ Hb). lia. }
  assert (Hlt : forall i j p q b,
            (i < j)%nat -> ps !! i = Some p -> sizes !! i = Some b ->
            ps !! j = Some q -> p + b <= q).
  { intros i j p q b Hij Hp Hb Hq.
    rewrite (Hend i p b Hp Hb), (Hps j q Hq).
    pose proof (total_take_le sizes (S i) j Hpos ltac:(lia)). lia. }
  split; [|split; [|done]].
  - intros i p b Hp Hb. split.
    + rewrite (Hps i p Hp).
      pose proof (total_nonneg (take i sizes) (Forall_take _ _ _ Hpos)). lia.
    + rewrite (Hend i p b Hp Hb).
      pose proof (total_take_le sizes (S i) (S i) Hpos ltac:(lia)). lia.
  - intros i j p q b c Hij Hp Hb Hq Hc.
    destruct (Nat.lt_total i j) as [Hlt' | [-> | Hlt']]; [|done|].
    + left. by eapply Hlt.
    + right. by eapply Hlt.
Qed.

End Proofs.

Lemma Allocate_carves_block_witness :
  let a := {| alloc_ptr_ := 4096; alloc_bytes_remaining_ := 64;
              blocks_ := [4000]; memory_usage_ := 4104 |} in
  exists ps a',
    Allocates (fallback := no_fallback) a [8; 24; 32] = Some (ps, a') /\
    length ps = 3%nat /\
    alloc_bytes_remaining_ a' = 64 - total [8; 24; 32] /\
    MemoryUsage a' = MemoryUsage a.
Proof.
  destruct (Allocate_carves_block (fallback := no_fallback)
              {| alloc_ptr_ := 4096; alloc_bytes_remaining_ := 64;
                 blocks_ := [4000]; memory_usage_ := 4104 |} [8; 24; 32])
    as ((ps & a' & Hrun & Hlen & _ & _ & Hrem & Hmu) & _);
    [repeat constructor | simpl; lia | simpl; lia |].
  exists ps, a'. split; [exact Hrun|]. split; [exact Hlen|].
  split; [exact Hrem | exact Hmu].
Defined.

(** The run of the witness, and one request too many, which goes to the
    fallback. *)
Example Allocate_carves_block_example :
  fst <$> Allocates (fallback := no_fallback)
            {| alloc_ptr_ := 4096; alloc_bytes_remaining_ := 64;
               blocks_ := [4000]; memory_usage_ := 4104 |} [8; 24; 32]
    = Some [4096; 4104; 4128] /\
  Allocates (fallback := no_fallback)
    {| alloc_ptr_ := 4096; alloc_bytes_remaining_ := 64;
       blocks_ := [4000]; memory_usage_ := 4104 |} [8; 24; 32; 1]
    = None.
Proof. split; reflexivity. Qed.

End arena_proofs.
